(** * Model-based projection for linear arithmetic (qe_arith.cpp)

    A shallow embedding of [qe::arith_project_plugin::imp]: the linearizer
    that lowers literals to rows of the [model_based_opt] engine, the
    coefficient extractor, the projection driver with its lifting of
    surviving rows, and the optimizer driver. *)

From Stdlib Require Import List Bool Arith ZArith QArith Qcanon Qround String Lia
  Permutation Sorted.
From Equations Require Import Equations.
Import ListNotations.

Local Open Scope Qc_scope.

(** ** Terms of the host AST *)

Scheme All for list.

(** Modelled from the spec: the sorts of the host AST (arith_decl_plugin.h and
    ast.h are not part of this file); a term is integer, real or Boolean. *)
Inductive sort : Type := SInt | SReal | SBool.

(** Modelled from the spec: the term representation (ast.h) as a tagged
    variant over the kinds the arith-kind tester recognises, section 9:
    add, sub, mul, uminus, le, lt, eq, distinct, mod, ite, numeral, atom.
    [App f s args] is an application of an uninterpreted symbol of result
    sort [s]; with no argument it is an uninterpreted constant. *)
Inductive expr : Type :=
| Num (q : Qc) (is_int : bool)
| App (f : string) (s : sort) (args : list expr)
| Add (args : list expr)
| Mul (args : list expr)
| Sub (t1 t2 : expr)
| Uminus (t1 : expr)
| Mod (t1 t2 : expr)
| Ite (t1 t2 t3 : expr)
| ELe (e1 e2 : expr)
| EGe (e1 e2 : expr)
| ELt (e1 e2 : expr)
| EGt (e1 e2 : expr)
| EEq (e1 e2 : expr)
| EDistinct (args : list expr)
| ENot (e : expr)
| ETrue
| EFalse.

Definition sort_eqb (a b : sort) : bool :=
  match a, b with
  | SInt, SInt | SReal, SReal | SBool, SBool => true
  | _, _ => false
  end.

Definition Qc_eqb (a b : Qc) : bool := if Qc_eq_dec a b then true else false.

Definition Qc_ltb (a b : Qc) : bool :=
  match a ?= b with Datatypes.Lt => true | _ => false end.

(** Structural identity of terms; the host AST is hash-consed, so this is the
    pointer equality that [obj_map] and [expr_mark] key on. *)
Fixpoint expr_eqb (a b : expr) {struct a} : bool :=
  let fix list_eqb (l1 l2 : list expr) {struct l1} : bool :=
    match l1, l2 with
    | [], [] => true
    | x :: l1', y :: l2' => expr_eqb x y && list_eqb l1' l2'
    | _, _ => false
    end in
  match a, b with
  | Num q i, Num q' i' => Qc_eqb q q' && Bool.eqb i i'
  | App f s l, App f' s' l' => String.eqb f f' && sort_eqb s s' && list_eqb l l'
  | Add l, Add l' => list_eqb l l'
  | Mul l, Mul l' => list_eqb l l'
  | Sub x y, Sub x' y' => expr_eqb x x' && expr_eqb y y'
  | Uminus x, Uminus x' => expr_eqb x x'
  | Mod x y, Mod x' y' => expr_eqb x x' && expr_eqb y y'
  | Ite x y z, Ite x' y' z' => expr_eqb x x' && expr_eqb y y' && expr_eqb z z'
  | ELe x y, ELe x' y' => expr_eqb x x' && expr_eqb y y'
  | EGe x y, EGe x' y' => expr_eqb x x' && expr_eqb y y'
  | ELt x y, ELt x' y' => expr_eqb x x' && expr_eqb y y'
  | EGt x y, EGt x' y' => expr_eqb x x' && expr_eqb y y'
  | EEq x y, EEq x' y' => expr_eqb x x' && expr_eqb y y'
  | EDistinct l, EDistinct l' => list_eqb l l'
  | ENot x, ENot x' => expr_eqb x x'
  | ETrue, ETrue => true
  | EFalse, EFalse => true
  | _, _ => false
  end.

(** Modelled from the spec: the sort of a term (ast.h, arith_decl_plugin.h).
    An arithmetic operator takes the sort of its first argument, a
    comparison is Boolean. *)
Fixpoint get_sort (e : expr) : sort :=
  match e with
  | Num _ i => if i then SInt else SReal
  | App _ s _ => s
  | Add (a :: _) | Mul (a :: _) => get_sort a
  | Add [] | Mul [] => SInt
  | Sub a _ | Uminus a => get_sort a
  | Mod _ _ => SInt
  | Ite _ a _ => get_sort a
  | ELe _ _ | EGe _ _ | ELt _ _ | EGt _ _ | EEq _ _ | EDistinct _ | ENot _
  | ETrue | EFalse => SBool
  end.

Definition is_int (e : expr) : bool := sort_eqb (get_sort e) SInt.
Definition is_real (e : expr) : bool := sort_eqb (get_sort e) SReal.

(** [imp::is_arith] *)
Definition is_arith (e : expr) : bool := is_int e || is_real e.

(** [is_uninterp_const]: an application of an uninterpreted symbol to no
    argument. *)
Definition is_uninterp_const (e : expr) : bool :=
  match e with App _ _ [] => true | _ => false end.

(** A measure of terms in which a node weighs more than twice its
    arguments; it bounds the guards one call of the linearizer can push, also
    in the [distinct] branch, which walks an argument twice. *)
Fixpoint weight (e : expr) : nat :=
  let fix weights (l : list expr) : nat :=
    match l with [] => 0%nat | x :: l' => (weight x + weights l')%nat end in
  match e with
  | Num _ _ | ETrue | EFalse => 1%nat
  | App _ _ l | Add l | Mul l | EDistinct l => S (2 * weights l)
  | Sub a b | Mod a b | ELe a b | EGe a b | ELt a b | EGt a b | EEq a b =>
      S (2 * (weight a + weight b))
  | Uminus a | ENot a => S (2 * weight a)
  | Ite a b c => S (2 * (weight a + weight b + weight c))
  end.

Definition total_weight (l : list expr) : nat :=
  fold_right (fun x n => (weight x + n)%nat) 0%nat l.

(** ** Models and the evaluator *)

(** Modelled from the spec: a value of the model evaluator
    (model_evaluator.h): a numeral or a truth value. *)
Inductive value : Type :=
| VNum (q : Qc)
| VBool (b : bool).

Definition num_of (v : value) : Qc := match v with VNum q => q | VBool _ => 0 end.
Definition bool_of (v : value) : bool := match v with VBool b => b | VNum _ => false end.

Definition value_eqb (a b : value) : bool :=
  match a, b with
  | VNum p, VNum q => Qc_eqb p q
  | VBool p, VBool q => Bool.eqb p q
  | _, _ => false
  end.

(** Modelled from the spec: a model (model.h) is a total assignment of an
    interpretation to every uninterpreted symbol (glossary: total or
    model-completed). *)
Definition model : Type := string -> list value -> value.

(** Modelled from the spec: [model::register_decl] for a constant, the
    interpretation of [f] becomes [v]. *)
Definition register_decl (M : model) (f : string) (v : value) : model :=
  fun g args =>
    if String.eqb g f then match args with [] => v | _ => M g args end
    else M g args.

(** The integer part used by the evaluation of [mod]. *)
Definition Qc_floor (q : Qc) : Z := Qfloor q.

Definition Qc_abs (q : Qc) : Qc := if Qc_ltb q 0 then - q else q.

(** Modelled from the spec: the value of [x mod k] in the evaluator
    (arith_rewriter is not part of this file): the remainder in [0, |k|) for
    a non-zero [k]; for [k = 0], where the host leaves the term
    uninterpreted, the model completion used here picks [x]. *)
Definition Qc_mod (x k : Qc) : Qc :=
  if Qc_eqb k 0 then x
  else x - Qc_abs k * Q2Qc (inject_Z (Qc_floor (x / Qc_abs k))).

Definition sum_Qc (l : list Qc) : Qc := fold_right Qcplus 0 l.
Definition prod_Qc (l : list Qc) : Qc := fold_right Qcmult 1 l.

Fixpoint all_distinct {A} (eqb : A -> A -> bool) (l : list A) : bool :=
  match l with
  | [] => true
  | x :: l' => negb (existsb (eqb x) l') && all_distinct eqb l'
  end.

(** Modelled from the spec: the model evaluator (model_evaluator.h): given a
    term, the numeric or truth value it has in the model.  Evaluation is
    directed by sorts: an arithmetic operator reads its arguments as
    numerals, and an equality or [distinct] with an arithmetic argument
    compares numerals.  The evaluator is total, so the checks
    [VERIFY(a.is_numeral(val, r))] of the source always succeed; its debug
    assertions and traces are not part of the embedding. *)
Fixpoint eval (M : model) (e : expr) {struct e} : value :=
  let evn (x : expr) : Qc := num_of (eval M x) in
  let evb (x : expr) : bool := bool_of (eval M x) in
  match e with
  | Num q _ => VNum q
  | App f _ args => M f (map (eval M) args)
  | Add args => VNum (sum_Qc (map (fun x => num_of (eval M x)) args))
  | Mul args => VNum (prod_Qc (map (fun x => num_of (eval M x)) args))
  | Sub a b => VNum (evn a - evn b)
  | Uminus a => VNum (- evn a)
  | Mod a b => VNum (Qc_mod (evn a) (evn b))
  | Ite g a b => if evb g then eval M a else eval M b
  | ELe a b => VBool (negb (Qc_ltb (evn b) (evn a)))
  | EGe a b => VBool (negb (Qc_ltb (evn a) (evn b)))
  | ELt a b => VBool (Qc_ltb (evn a) (evn b))
  | EGt a b => VBool (Qc_ltb (evn b) (evn a))
  | EEq a b =>
      VBool (if is_arith a || is_arith b then Qc_eqb (evn a) (evn b)
             else value_eqb (eval M a) (eval M b))
  | EDistinct args =>
      VBool (if existsb is_arith args
             then all_distinct Qc_eqb (map (fun x => num_of (eval M x)) args)
             else all_distinct value_eqb (map (eval M) args))
  | ENot a => VBool (negb (evb a))
  | ETrue => VBool true
  | EFalse => VBool false
  end.

Definition eval_num (M : model) (e : expr) : Qc := num_of (eval M e).
Definition eval_bool (M : model) (e : expr) : bool := bool_of (eval M e).

(** The term the evaluator returns: a numeral of the sort of the term, or a
    truth constant. *)
Definition eval_expr (M : model) (e : expr) : expr :=
  match eval M e with
  | VNum q => Num q (is_int e)
  | VBool true => ETrue
  | VBool false => EFalse
  end.

(** Induction on terms, with the hypothesis for every argument of an n-ary
    node. *)
Lemma expr_induct (P : expr -> Prop) :
  (forall q i, P (Num q i)) ->
  (forall f s args, Forall P args -> P (App f s args)) ->
  (forall args, Forall P args -> P (Add args)) ->
  (forall args, Forall P args -> P (Mul args)) ->
  (forall t1, P t1 -> forall t2, P t2 -> P (Sub t1 t2)) ->
  (forall t1, P t1 -> P (Uminus t1)) ->
  (forall t1, P t1 -> forall t2, P t2 -> P (Mod t1 t2)) ->
  (forall t1, P t1 -> forall t2, P t2 -> forall t3, P t3 -> P (Ite t1 t2 t3)) ->
  (forall e1, P e1 -> forall e2, P e2 -> P (ELe e1 e2)) ->
  (forall e1, P e1 -> forall e2, P e2 -> P (EGe e1 e2)) ->
  (forall e1, P e1 -> forall e2, P e2 -> P (ELt e1 e2)) ->
  (forall e1, P e1 -> forall e2, P e2 -> P (EGt e1 e2)) ->
  (forall e1, P e1 -> forall e2, P e2 -> P (EEq e1 e2)) ->
  (forall args, Forall P args -> P (EDistinct args)) ->
  (forall e, P e -> P (ENot e)) ->
  P ETrue -> P EFalse -> forall e, P e.
Proof.
  intros HNum HApp HAdd HMul HSub HUm HMod HIte HLe HGe HLt HGt HEq HDi HNot HT HF.
  assert (A : forall l, list_all expr P l -> Forall P l)
    by (induction 1; constructor; assumption).
  induction e; auto.
Qed.

(** ** Hash maps keyed on terms *)

(** [obj_map<expr, V>]: at most one entry per key.  The iteration order of the
    hash table is not fixed by the source; the embedding iterates in order of
    first insertion. *)
Definition obj_map (V : Type) : Type := list (expr * V).

Fixpoint map_find {V} (k : expr) (m : obj_map V) : option V :=
  match m with
  | [] => None
  | (k', v) :: m' => if expr_eqb k k' then Some v else map_find k m'
  end.

Fixpoint map_insert {V} (k : expr) (v : V) (m : obj_map V) : obj_map V :=
  match m with
  | [] => [(k, v)]
  | (k', v') :: m' =>
      if expr_eqb k k' then (k', v) :: m' else (k', v') :: map_insert k v m'
  end.

Definition map_contains {V} (k : expr) (m : obj_map V) : bool :=
  match map_find k m with Some _ => true | None => false end.

(** ** The engine facade *)

(** [opt::ineq_type] *)
Inductive ineq_type : Type := t_eq | t_lt | t_le | t_mod.

(** [opt::model_based_opt::var]: an engine variable id with its coefficient. *)
Record var : Type := mk_var { m_id : nat; m_coeff : Qc }.

(** [opt::model_based_opt::row]; [m_const] is the source's [row::m_coeff], the
    constant summand of the row. *)
Record row : Type := mk_row {
  m_vars : list var;
  m_const : Qc;
  m_mod : Qc;
  m_type : ineq_type
}.

(** Modelled from the spec: the state of the engine (model_based_opt.h is not
    part of this file), section 4.2: the seeded variables, the rows and the
    objective. *)
Record model_based_opt : Type := mk_mbo {
  m_var2value : list Qc;
  m_var2is_int : list bool;
  m_rows : list row;
  m_objective : list var * Qc
}.

Definition mbo_empty : model_based_opt :=
  {| m_var2value := []; m_var2is_int := []; m_rows := []; m_objective := ([], 0) |}.

(** Modelled from the spec: [add-var(initial-value, is-integer)] registers a
    variable with its seed and returns its id. *)
Definition add_var (r : Qc) (is_int : bool) (o : model_based_opt)
  : nat * model_based_opt :=
  (List.length (m_var2value o),
   {| m_var2value := m_var2value o ++ [r];
      m_var2is_int := m_var2is_int o ++ [is_int];
      m_rows := m_rows o;
      m_objective := m_objective o |}).

Definition add_row (r : row) (o : model_based_opt) : model_based_opt :=
  {| m_var2value := m_var2value o;
     m_var2is_int := m_var2is_int o;
     m_rows := m_rows o ++ [r];
     m_objective := m_objective o |}.

(** Modelled from the spec: [add-constraint(coeffs, c, type)] adds the row
    [sum coeffs + c  R  0]. *)
Definition add_constraint (coeffs : list var) (c : Qc) (ty : ineq_type)
  (o : model_based_opt) : model_based_opt :=
  add_row {| m_vars := coeffs; m_const := c; m_mod := 0; m_type := ty |} o.

(** Modelled from the spec: [add-divides(coeffs, c, m)] adds the row
    [sum coeffs + c = 0 (mod m)]. *)
Definition add_divides (coeffs : list var) (c : Qc) (m : Qc)
  (o : model_based_opt) : model_based_opt :=
  add_row {| m_vars := coeffs; m_const := c; m_mod := m; m_type := t_mod |} o.

(** Modelled from the spec: [set-objective(coeffs, c)]. *)
Definition set_objective (coeffs : list var) (c : Qc) (o : model_based_opt)
  : model_based_opt :=
  {| m_var2value := m_var2value o;
     m_var2is_int := m_var2is_int o;
     m_rows := m_rows o;
     m_objective := (coeffs, c) |}.

(** Modelled from the spec: [get-value(id)]. *)
Definition get_value (id : nat) (o : model_based_opt) : Qc :=
  nth id (m_var2value o) 0.

(** Modelled from the spec: [get-live-rows()]. *)
Definition get_live_rows (o : model_based_opt) : list row := m_rows o.

(** ** The linearizer *)

(** The objects every linearizer call shares by reference: the engine, the
    caller's literal vector and the term-to-id map. *)
Record lin_env : Type := mk_env {
  mbo : model_based_opt;
  fmls : list expr;
  tids : obj_map nat
}.

(** The accumulator of one linear combination: the constant [c] and the
    term-to-coefficient map [ts]. *)
Record lin_acc : Type := mk_acc {
  acc_c : Qc;
  acc_ts : obj_map Qc
}.

Definition set_mbo (o : model_based_opt) (st : lin_env) : lin_env :=
  {| mbo := o; fmls := fmls st; tids := tids st |}.

Definition push_fml (f : expr) (st : lin_env) : lin_env :=
  {| mbo := mbo st; fmls := fmls st ++ [f]; tids := tids st |}.

(** [imp::insert_mul] *)
Definition insert_mul (x : expr) (v : Qc) (ts : obj_map Qc) : obj_map Qc :=
  match map_find x ts with
  | Some w => map_insert x (w + v) ts
  | None => map_insert x v ts
  end.

(** [imp::is_numeral]: the statically constant terms. *)
Fixpoint is_numeral (t : expr) : option Qc :=
  match t with
  | Num r _ => Some r
  | Uminus t1 =>
      match is_numeral t1 with Some r => Some (- r) | None => None end
  | Mul args =>
      (fix go (l : list expr) (r : Qc) : option Qc :=
         match l with
         | [] => Some r
         | x :: l' =>
             match is_numeral x with
             | Some r1 => go l' (r * r1)
             | None => None
             end
         end) args 1
  | Add args =>
      (fix go (l : list expr) (r : Qc) : option Qc :=
         match l with
         | [] => Some r
         | x :: l' =>
             match is_numeral x with
             | Some r1 => go l' (r + r1)
             | None => None
             end
         end) args 0
  | Sub t1 t2 =>
      match is_numeral t1, is_numeral t2 with
      | Some r1, Some r2 => Some (r1 - r2)
      | _, _ => None
      end
  | _ => None
  end.

(** Registers a term with the engine: a fresh variable seeded with the model
    value of the term, entered in [tids]. *)
Definition add_term (M : model) (v : expr) (st : lin_env) : nat * lin_env :=
  let '(id, o) := add_var (eval_num M v) (is_int v) (mbo st) in
  (id, {| mbo := o; fmls := fmls st; tids := map_insert v id (tids st) |}).

(** The id of a term, registering it when [tids] does not have it. *)
Definition find_or_add (M : model) (v : expr) (st : lin_env) : nat * lin_env :=
  match map_find v (tids st) with
  | Some id => (id, st)
  | None => add_term M v st
  end.

(** [imp::extract_coefficients]: walks [ts]; a term without an id gets a fresh
    engine variable seeded with its model value; an entry is pushed unless its
    coefficient is zero. *)
Fixpoint extract_coefficients (M : model) (ts : obj_map Qc) (st : lin_env)
  : list var * lin_env :=
  match ts with
  | [] => ([], st)
  | (v, coeff) :: ts' =>
      let '(id, st1) := find_or_add M v st in
      let '(coeffs, st2) := extract_coefficients M ts' st1 in
      (if Qc_eqb coeff 0 then coeffs else mk_var id coeff :: coeffs, st2)
  end.

(** Modelled from the spec: [mk_not] of ast_util.h, the negated guard. *)
Definition mk_not (e : expr) : expr := ENot e.

(** [imp::linearize] on terms: multiplies [t] by [mul] into the accumulator. *)
Fixpoint linearize_term (M : model) (mul : Qc) (t : expr) (a : lin_acc)
  (st : lin_env) {struct t} : lin_acc * lin_env :=
  let atom := ({| acc_c := acc_c a; acc_ts := insert_mul t mul (acc_ts a) |}, st) in
  match t with
  | Mul [t1; t2] =>
      match is_numeral t1 with
      | Some mul1 => linearize_term M (mul * mul1) t2 a st
      | None =>
          match is_numeral t2 with
          | Some mul1 => linearize_term M (mul * mul1) t1 a st
          | None => atom
          end
      end
  | Add args =>
      fold_left (fun (p : lin_acc * lin_env) (ti : expr) =>
                   linearize_term M mul ti (fst p) (snd p)) args (a, st)
  | Sub t1 t2 =>
      let '(a1, st1) := linearize_term M mul t1 a st in
      linearize_term M (- mul) t2 a1 st1
  | Uminus t1 => linearize_term M (- mul) t1 a st
  | Num mul1 _ =>
      ({| acc_c := acc_c a + mul * mul1; acc_ts := acc_ts a |}, st)
  | Ite t1 t2 t3 =>
      if eval_bool M t1 then
        let '(a1, st1) := linearize_term M mul t2 a st in
        (a1, push_fml t1 st1)
      else
        linearize_term M mul t3 a (push_fml (mk_not t1) st)
  | Mod t1 t2 =>
      match is_numeral t2 with
      | Some mul1 =>
          let r := eval_num M t in
          let '(a0, st0) :=
            linearize_term M 1 t1 {| acc_c := - r; acc_ts := [] |} st in
          let '(coeffs, st1) := extract_coefficients M (acc_ts a0) st0 in
          ({| acc_c := acc_c a + mul * r; acc_ts := acc_ts a |},
           set_mbo (add_divides coeffs (acc_c a0) mul1 (mbo st1)) st1)
      | None => atom
      end
  | _ => atom
  end.

(** [compare_second]: the strict order on the recorded model values. *)
Definition compare_second (a b : expr * Qc) : bool := Qc_ltb (snd a) (snd b).

(** [std::sort] with [compare_second], as an insertion sort: an element goes
    in front of the first one it is strictly below.  On pairwise different
    values, the only case the source expects, every sorting algorithm gives
    this result. *)
Fixpoint sort_insert (x : expr * Qc) (l : list (expr * Qc)) : list (expr * Qc) :=
  match l with
  | [] => [x]
  | y :: l' => if compare_second x y then x :: l else y :: sort_insert x l'
  end.

Fixpoint sort_nums (l : list (expr * Qc)) : list (expr * Qc) :=
  match l with
  | [] => []
  | x :: l' => sort_insert x (sort_nums l')
  end.

(** The two calls every comparison branch makes: [mul * e1], then
    [- mul * e2]. *)
Definition linearize_pair (M : model) (mul : Qc) (e1 e2 : expr) (a : lin_acc)
  (st : lin_env) : lin_acc * lin_env :=
  let '(a1, st1) := linearize_term M mul e1 a st in
  linearize_term M (- mul) e2 a1 st1.

(** The tail of [imp::linearize] on literals: extract the coefficients and
    submit one row. *)
Definition submit_row (M : model) (a : lin_acc) (ty : ineq_type) (st : lin_env)
  : bool * lin_env :=
  let '(coeffs, st1) := extract_coefficients M (acc_ts a) st in
  (true, set_mbo (add_constraint coeffs (acc_c a) ty (mbo st1)) st1).

(** The sides of a negated equality after the swap of the source:
    [if (r1 < r2) std::swap(e1, e2)]. *)
Definition neq_sides (M : model) (e1 e2 : expr) : expr * expr :=
  if Qc_ltb (eval_num M e1) (eval_num M e2) then (e2, e1) else (e1, e2).

(** The loop of the [distinct] branch over consecutive pairs of the sorted
    vector; [rec] is the recursive call of [linearize] on a literal. *)
Fixpoint linearize_chain (rec : expr -> lin_env -> bool * lin_env)
  (nums : list (expr * Qc)) (st : lin_env) : bool * lin_env :=
  match nums with
  | x :: ((y :: _) as rest) =>
      let '(ok, st1) := rec (ELt (fst x) (fst y)) st in
      if ok then linearize_chain rec rest st1 else (false, st1)
  | _ => (true, st)
  end.

(** The loop of the negated [distinct] branch: the first argument whose value
    was already recorded, with the argument that recorded it. *)
Fixpoint find_eq (M : model) (args : list expr) (values : list (Qc * expr))
  : option (expr * expr) :=
  match args with
  | [] => None
  | arg1 :: args' =>
      let r := eval_num M arg1 in
      match List.find (fun p => Qc_eqb (fst p) r) values with
      | Some (_, arg2) => Some (arg1, arg2)
      | None => find_eq M args' (values ++ [(r, arg1)])
      end
  end.

Definition acc_empty : lin_acc := {| acc_c := 0; acc_ts := [] |}.

(** The body of [imp::linearize] on literals, with its recursive call as a
    parameter.  [EDistinct []] has no first argument to test and is left as
    residue. *)
Definition linearize_body (rec : expr -> lin_env -> bool * lin_env)
  (M : model) (lit0 : expr) (st : lin_env) : bool * lin_env :=
  let is_not := match lit0 with ENot _ => true | _ => false end in
  let lit := match lit0 with ENot l => l | _ => lit0 end in
  let mul : Qc := if is_not then - (1) else 1 in
  match lit with
  | ELe e1 e2 | EGe e2 e1 =>
      let '(a, st1) := linearize_pair M mul e1 e2 acc_empty st in
      submit_row M a (if is_not then t_lt else t_le) st1
  | ELt e1 e2 | EGt e2 e1 =>
      let '(a, st1) := linearize_pair M mul e1 e2 acc_empty st in
      submit_row M a (if is_not then t_le else t_lt) st1
  | EEq e1 e2 =>
      if is_arith e1 then
        if is_not then
          let '(e1', e2') := neq_sides M e1 e2 in
          let '(a, st1) := linearize_pair M mul e1' e2' acc_empty st in
          submit_row M a t_lt st1
        else
          let '(a, st1) := linearize_pair M mul e1 e2 acc_empty st in
          submit_row M a t_eq st1
      else (false, st)
  | EDistinct ((arg0 :: _) as args) =>
      if is_arith arg0 then
        if is_not then
          match find_eq M args [] with
          | Some (arg1, arg2) =>
              let '(a, st1) := linearize_pair M mul arg1 arg2 acc_empty st in
              submit_row M a t_eq st1
          | None => submit_row M acc_empty t_le st
          end
        else
          linearize_chain rec
            (sort_nums (map (fun x => (x, eval_num M x)) args)) st
      else (false, st)
  | _ => (false, st)
  end.

(** [imp::linearize] on literals.  Its only recursive call is on a literal
    [a < b] built in the [distinct] branch, whose own call does not recurse;
    two unfoldings of the body therefore give the function
    (see [linearize_unfold]). *)
Definition linearize (M : model) (lit : expr) (st : lin_env) : bool * lin_env :=
  linearize_body (linearize_body (fun _ st' => (false, st')) M) M lit st.

(** ** What one call of the linearizer pushes on the literal vector *)

Lemma total_weight_app (l1 l2 : list expr) :
  total_weight (l1 ++ l2) = (total_weight l1 + total_weight l2)%nat.
Proof.
  induction l1 as [|x l1 IH]; simpl; [reflexivity|]. rewrite IH. lia.
Qed.

Lemma weight_nary (args : list expr) :
  weight (Add args) = S (2 * total_weight args) /\
  weight (Mul args) = S (2 * total_weight args) /\
  weight (EDistinct args) = S (2 * total_weight args).
Proof.
  assert (E : (fix weights (l : list expr) : nat :=
                 match l with
                 | [] => 0%nat
                 | x :: l' => (weight x + weights l')%nat
                 end) args = total_weight args)
    by (induction args as [|x l IH]; simpl; [|rewrite IH]; reflexivity).
  simpl. rewrite E. auto.
Qed.

Lemma weight_pos (e : expr) : (1 <= weight e)%nat.
Proof. destruct e; simpl; lia. Qed.

Lemma find_or_add_fmls (M : model) (v : expr) (st : lin_env) :
  fmls (snd (find_or_add M v st)) = fmls st.
Proof.
  unfold find_or_add. destruct (map_find v (tids st)); reflexivity.
Qed.

Lemma extract_coefficients_fmls (M : model) (ts : obj_map Qc) (st : lin_env) :
  fmls (snd (extract_coefficients M ts st)) = fmls st.
Proof.
  revert st. induction ts as [|[v q] ts IH]; intro st; simpl; [reflexivity|].
  pose proof (find_or_add_fmls M v st) as F.
  destruct (find_or_add M v st) as [id st1].
  specialize (IH st1). destruct (extract_coefficients M ts st1).
  simpl in *. congruence.
Qed.

(** The guards a term call pushes are appended to the vector, and weigh
    less than the term. *)
Lemma linearize_term_fmls (M : model) (t : expr) :
  forall mul a st, exists gs,
    fmls (snd (linearize_term M mul t a st)) = fmls st ++ gs /\
    (total_weight gs < weight t)%nat.
Proof.
  induction t as [ | | args X | args X | t1 IHt1 t2 IHt2 | t IHt
                   | t1 IHt1 t2 IHt2 | t1 IHt1 t2 IHt2 t3 IHt3
                   | | | | | | | | | ] using expr_induct; intros mul a st;
    try (exists []; simpl; rewrite app_nil_r; split; [reflexivity | lia]).
  - (* Add *)
    simpl linearize_term.
    assert (G : forall p, exists gs,
      fmls (snd (fold_left (fun (p : lin_acc * lin_env) ti =>
               linearize_term M mul ti (fst p) (snd p)) args p))
        = fmls (snd p) ++ gs /\
      (total_weight gs <= total_weight args)%nat).
    { induction X as [|x l Hx Hl IHl]; intro p.
      - exists []. simpl. rewrite app_nil_r. split; [reflexivity | lia].
      - simpl fold_left.
        destruct (Hx mul (fst p) (snd p)) as [g1 [E1 W1]].
        destruct (IHl (linearize_term M mul x (fst p) (snd p))) as [g2 [E2 W2]].
        exists (g1 ++ g2). rewrite E2, E1, app_assoc. split; [reflexivity|].
        rewrite total_weight_app. simpl. lia. }
    destruct (G (a, st)) as [gs [E W]]. exists gs. split; [exact E|].
    destruct (weight_nary args) as [Wa _]. rewrite Wa. lia.
  - (* Mul *)
    destruct args as [|t1 [|t2 [|t3 args]]];
      try (exists []; simpl; rewrite app_nil_r; split; [reflexivity | lia]).
    inversion X as [|? ? H1 X']; subst. inversion X' as [|? ? H2 _]; subst.
    simpl linearize_term.
    destruct (is_numeral t1) as [k1|].
    + destruct (H2 (mul * k1) a st) as [gs [E W]]. exists gs.
      split; [exact E | simpl; lia].
    + destruct (is_numeral t2) as [k2|].
      * destruct (H1 (mul * k2) a st) as [gs [E W]]. exists gs.
        split; [exact E | simpl; lia].
      * exists []. simpl. rewrite app_nil_r. split; [reflexivity | lia].
  - (* Sub *)
    simpl linearize_term.
    destruct (IHt1 mul a st) as [g1 [E1 W1]].
    destruct (linearize_term M mul t1 a st) as [a1 st1]. simpl in E1.
    destruct (IHt2 (- mul) a1 st1) as [g2 [E2 W2]].
    exists (g1 ++ g2). rewrite E2, E1, app_assoc. split; [reflexivity|].
    rewrite total_weight_app. simpl. lia.
  - (* Uminus *)
    simpl linearize_term. destruct (IHt (- mul) a st) as [gs [E W]].
    exists gs. split; [exact E | simpl; lia].
  - (* Mod *)
    simpl linearize_term. destruct (is_numeral t2) as [k|].
    + destruct (IHt1 1 {| acc_c := - eval_num M (Mod t1 t2); acc_ts := [] |} st)
        as [gs [E W]].
      destruct (linearize_term M 1 t1 _ st) as [a0 st0]. simpl in E.
      pose proof (extract_coefficients_fmls M (acc_ts a0) st0) as F.
      destruct (extract_coefficients M (acc_ts a0) st0) as [coeffs st1].
      simpl in F. exists gs. simpl. rewrite F, E. split; [reflexivity | lia].
    + exists []. simpl. rewrite app_nil_r. split; [reflexivity | lia].
  - (* Ite *)
    simpl linearize_term. destruct (eval_bool M t1).
    + destruct (IHt2 mul a st) as [gs [E W]].
      destruct (linearize_term M mul t2 a st) as [a1 st1]. simpl in E.
      exists (gs ++ [t1]). simpl. rewrite E, app_assoc. split; [reflexivity|].
      rewrite total_weight_app. simpl. lia.
    + destruct (IHt3 mul a (push_fml (mk_not t1) st)) as [gs [E W]].
      exists (mk_not t1 :: gs). rewrite E. simpl. rewrite <- app_assoc.
      split; [reflexivity | lia].
Qed.

Lemma linearize_pair_fmls (M : model) (mul : Qc) (e1 e2 : expr) a st :
  exists gs,
    fmls (snd (linearize_pair M mul e1 e2 a st)) = fmls st ++ gs /\
    (total_weight gs < weight e1 + weight e2)%nat.
Proof.
  unfold linearize_pair.
  destruct (linearize_term_fmls M e1 mul a st) as [g1 [E1 W1]].
  destruct (linearize_term M mul e1 a st) as [a1 st1]. simpl in E1.
  destruct (linearize_term_fmls M e2 (- mul) a1 st1) as [g2 [E2 W2]].
  exists (g1 ++ g2). rewrite E2, E1, app_assoc, total_weight_app.
  split; [reflexivity | lia].
Qed.

Lemma submit_row_fmls (M : model) a ty st :
  fmls (snd (submit_row M a ty st)) = fmls st.
Proof.
  unfold submit_row.
  pose proof (extract_coefficients_fmls M (acc_ts a) st) as F.
  destruct (extract_coefficients M (acc_ts a) st) as [coeffs st1]. exact F.
Qed.

Lemma pair_submit_fmls (M : model) mul e1 e2 ty st :
  exists gs,
    fmls (snd (let '(a, st1) := linearize_pair M mul e1 e2 acc_empty st in
               submit_row M a ty st1)) = fmls st ++ gs /\
    (total_weight gs < weight e1 + weight e2)%nat.
Proof.
  destruct (linearize_pair_fmls M mul e1 e2 acc_empty st) as [gs [E W]].
  destruct (linearize_pair M mul e1 e2 acc_empty st) as [a st1].
  exists gs. rewrite submit_row_fmls. split; assumption.
Qed.

Lemma weight_le_total (x : expr) (l : list expr) :
  In x l -> (weight x <= total_weight l)%nat.
Proof.
  induction l as [|y l IH]; simpl; [tauto|].
  intros [->|H]; [lia | specialize (IH H); lia].
Qed.

Lemma find_eq_split (M : model) (args : list expr) :
  forall values arg1 arg2,
    find_eq M args values = Some (arg1, arg2) ->
    exists l1 l2, args = l1 ++ arg1 :: l2 /\ In arg2 (map snd values ++ l1).
Proof.
  induction args as [|x args IH]; intros values arg1 arg2; simpl; [discriminate|].
  destruct (List.find _ values) as [[r e]|] eqn:F.
  - intros [= <- <-]. exists [], args. split; [reflexivity|].
    rewrite app_nil_r. apply find_some in F. destruct F as [F _].
    apply (in_map snd) in F. exact F.
  - intro H. apply IH in H. destruct H as [l1 [l2 [-> I]]].
    exists (x :: l1), l2. split; [reflexivity|].
    rewrite map_app, <- app_assoc in I. exact I.
Qed.

Lemma find_eq_weight (M : model) (args : list expr) arg1 arg2 :
  find_eq M args [] = Some (arg1, arg2) ->
  (weight arg1 + weight arg2 <= total_weight args)%nat.
Proof.
  intro H. apply find_eq_split in H. destruct H as [l1 [l2 [-> I]]].
  simpl in I. apply weight_le_total in I.
  rewrite total_weight_app. simpl. lia.
Qed.

Lemma sort_insert_weight x l :
  total_weight (map fst (sort_insert x l))
  = (weight (fst x) + total_weight (map fst l))%nat.
Proof.
  induction l as [|y l IH]; simpl; [reflexivity|].
  destruct (compare_second x y); simpl; [reflexivity|]. rewrite IH. lia.
Qed.

Lemma sort_nums_weight (f : expr -> Qc) (args : list expr) :
  total_weight (map fst (sort_nums (map (fun x => (x, f x)) args)))
  = total_weight args.
Proof.
  induction args as [|x l IH]; simpl; [reflexivity|].
  rewrite sort_insert_weight, IH. reflexivity.
Qed.

(** A call on [a < b] never reaches the recursive call. *)
Lemma linearize_body_lt rec (M : model) (x y : expr) st :
  linearize_body rec M (ELt x y) st
  = let '(a, st1) := linearize_pair M 1 x y acc_empty st in
    submit_row M a t_lt st1.
Proof. reflexivity. Qed.

Lemma linearize_chain_cons rec x y rest st :
  linearize_chain rec (x :: y :: rest) st
  = let '(ok, st1) := rec (ELt (fst x) (fst y)) st in
    if ok then linearize_chain rec (y :: rest) st1 else (false, st1).
Proof. reflexivity. Qed.

Lemma submit_row_true (M : model) a ty st : fst (submit_row M a ty st) = true.
Proof.
  unfold submit_row. destruct (extract_coefficients M (acc_ts a) st). reflexivity.
Qed.

Lemma linearize_chain_fmls (M : model) rec nums :
  forall st, exists gs,
    fmls (snd (linearize_chain (linearize_body rec M) nums st)) = fmls st ++ gs /\
    (total_weight gs + weight (hd ETrue (map fst nums))
       <= 2 * total_weight (map fst nums) + 1)%nat.
Proof.
  induction nums as [|x [|y rest] IH]; intro st.
  - exists []. simpl. rewrite app_nil_r. split; [reflexivity | lia].
  - exists []. simpl. rewrite app_nil_r. split; [reflexivity | lia].
  - rewrite linearize_chain_cons, linearize_body_lt.
    destruct (pair_submit_fmls M 1 (fst x) (fst y) t_lt st) as [g1 [E1 W1]].
    destruct (linearize_pair M 1 (fst x) (fst y) acc_empty st) as [a st1].
    pose proof (submit_row_true M a t_lt st1) as T.
    destruct (submit_row M a t_lt st1) as [ok st2]. simpl in T. subst ok.
    simpl in E1. destruct (IH st2) as [g2 [E2 W2]].
    exists (g1 ++ g2). rewrite E2, E1, app_assoc, total_weight_app.
    split; [reflexivity|]. simpl in *. lia.
Qed.

(** The guards a literal call pushes are appended to the vector and weigh
    less than the literal. *)
Lemma linearize_fmls (M : model) (lit : expr) (st : lin_env) :
  exists gs,
    fmls (snd (linearize M lit st)) = fmls st ++ gs /\
    (total_weight gs < weight lit)%nat.
Proof.
  assert (R : forall (l : expr), exists gs, gs = [] /\
            fmls (snd (false, st)) = fmls st ++ gs /\
            (total_weight gs < weight l)%nat).
  { intro l. exists []. simpl. rewrite app_nil_r. pose proof (weight_pos l).
    repeat split; lia. }
  assert (P : forall n mul e1 e2 ty, (weight e1 + weight e2 <= n)%nat ->
            exists gs,
              fmls (snd (let '(a, st1) := linearize_pair M mul e1 e2 acc_empty st in
                         submit_row M a ty st1)) = fmls st ++ gs /\
              (total_weight gs < n)%nat).
  { intros n mul e1 e2 ty Hn.
    destruct (pair_submit_fmls M mul e1 e2 ty st) as [gs [E W]].
    exists gs. split; [exact E | lia]. }
  assert (D : forall args, exists gs,
            fmls (snd (submit_row M acc_empty t_le st)) = fmls st ++ gs /\
            (total_weight gs < weight (EDistinct args))%nat).
  { intro args. exists []. rewrite submit_row_fmls, app_nil_r.
    split; [reflexivity | simpl; lia]. }
  unfold linearize. set (r := linearize_body (fun _ st' => (false, st')) M).
  destruct lit as [ | | | | | | | | e1 e2 | e1 e2 | e1 e2 | e1 e2 | e1 e2
                  | args | lit | | ];
    try (destruct (R ETrue) as [gs [-> [E _]]]; exists []; split;
         [exact E | simpl; lia]).
  - apply P; simpl; lia.
  - apply P; simpl; lia.
  - apply P; simpl; lia.
  - apply P; simpl; lia.
  - unfold linearize_body. destruct (is_arith e1).
    + apply P; simpl; lia.
    + destruct (R (EEq e1 e2)) as [gs [_ H]]. exists gs. exact H.
  - unfold linearize_body. destruct args as [|arg0 args].
    + destruct (R (EDistinct [])) as [gs [_ H]]. exists gs. exact H.
    + destruct (is_arith arg0).
      * destruct (linearize_chain_fmls M (fun _ st' => (false, st'))
                    (sort_nums (map (fun x => (x, eval_num M x)) (arg0 :: args))) st)
          as [gs [E W]].
        exists gs. split; [exact E|].
        rewrite (sort_nums_weight (eval_num M)) in W.
        destruct (weight_nary (arg0 :: args)) as [_ [_ Wd]]. rewrite Wd.
        pose proof (weight_pos (hd ETrue (map fst (sort_nums
          (map (fun x => (x, eval_num M x)) (arg0 :: args)))))). lia.
      * destruct (R (EDistinct (arg0 :: args))) as [gs [_ H]]. exists gs. exact H.
  - (* negated literal *)
    unfold linearize_body.
    destruct lit as [ | | | | | | | | e1 e2 | e1 e2 | e1 e2 | e1 e2 | e1 e2
                    | args | lit | | ];
      try (destruct (R ETrue) as [gs [-> [E _]]]; exists []; split;
           [exact E | simpl; lia]).
    + apply P; simpl; lia.
    + apply P; simpl; lia.
    + apply P; simpl; lia.
    + apply P; simpl; lia.
    + destruct (is_arith e1).
      * unfold neq_sides.
        destruct (Qc_ltb (eval_num M e1) (eval_num M e2)); apply P; simpl; lia.
      * destruct (R (ENot (EEq e1 e2))) as [gs [_ H]]. exists gs. exact H.
    + destruct args as [|arg0 args].
      * destruct (R (ENot (EDistinct []))) as [gs [_ H]]. exists gs. exact H.
      * destruct (is_arith arg0).
        -- destruct (find_eq M (arg0 :: args) []) as [[arg1 arg2]|] eqn:F.
           ++ apply find_eq_weight in F. apply P.
              destruct (weight_nary (arg0 :: args)) as [_ [_ Wd]].
              change (weight (ENot (EDistinct (arg0 :: args))))
                with (S (2 * weight (EDistinct (arg0 :: args)))).
              rewrite Wd. lia.
           ++ destruct (D (arg0 :: args)) as [gs [E W]]. exists gs.
              split; [exact E|].
              change (weight (ENot (EDistinct (arg0 :: args))))
                with (S (2 * weight (EDistinct (arg0 :: args)))). lia.
        -- destruct (R (ENot (EDistinct (arg0 :: args)))) as [gs [_ H]].
           exists gs. exact H.
Qed.

(** ** The loop over the growing literal vector *)

(** The loop [for (i = 0; i < fmls.size(); ++i)] of the two drivers.
    [pending] is the part of the vector from index [i] on, to which the
    linearizer appends the guards it commits; [kept] is the compacted prefix
    [fmls[0..j)] of the literals that stay as residue.  It ends because what
    a call appends weighs less than the literal it consumed. *)
Equations? linearize_all (M : model) (kept pending : list expr)
  (o : model_based_opt) (ids : obj_map nat) : lin_env
  by wf (total_weight pending) lt :=
linearize_all M kept [] o ids := {| mbo := o; fmls := kept; tids := ids |};
linearize_all M kept (fml :: rest) o ids :=
  linearize_all M
    (if fst (linearize M fml {| mbo := o; fmls := fml :: rest; tids := ids |})
     then kept else kept ++ [fml])
    (tl (fmls (snd (linearize M fml
                      {| mbo := o; fmls := fml :: rest; tids := ids |}))))
    (mbo (snd (linearize M fml {| mbo := o; fmls := fml :: rest; tids := ids |})))
    (tids (snd (linearize M fml {| mbo := o; fmls := fml :: rest; tids := ids |}))).
Proof.
  destruct (linearize_fmls M fml {| mbo := o; fmls := fml :: rest; tids := ids |})
    as [gs [E W]].
  rewrite E. simpl. rewrite total_weight_app. lia.
Qed.

(** ** The guards a call commits

    What the linearizer leaves on the literal vector does not depend on the
    engine: it is a function of the model and of the term or literal alone,
    the guards of the [ite] terms on the path the model selects, in the
    order of the pushes. *)

(** The guard committed at [ite(c, _, _)]: [c] when the model makes it
    true, its negation otherwise. *)
Definition taken_guard (M : model) (c : expr) : expr :=
  if eval_bool M c then c else mk_not c.

(** The guards pushed while the term linearizer walks [t]. *)
Fixpoint term_guards (M : model) (t : expr) {struct t} : list expr :=
  match t with
  | Mul [t1; t2] =>
      match is_numeral t1 with
      | Some _ => term_guards M t2
      | None =>
          match is_numeral t2 with
          | Some _ => term_guards M t1
          | None => []
          end
      end
  | Add args => flat_map (term_guards M) args
  | Sub t1 t2 => term_guards M t1 ++ term_guards M t2
  | Uminus t1 => term_guards M t1
  | Ite t1 t2 t3 =>
      if eval_bool M t1 then term_guards M t2 ++ [t1]
      else mk_not t1 :: term_guards M t3
  | Mod t1 t2 =>
      match is_numeral t2 with
      | Some _ => term_guards M t1
      | None => []
      end
  | _ => []
  end.

(** The literals [a1 < a2], [a2 < a3], ... over the consecutive pairs of a
    vector. *)
Fixpoint consecutive_lt (l : list expr) : list expr :=
  match l with
  | x :: ((y :: _) as rest) => ELt x y :: consecutive_lt rest
  | _ => []
  end.

(** The terms the literal linearizer walks on a literal, in the order of
    the calls. *)
Definition lit_terms (M : model) (lit0 : expr) : list expr :=
  let is_not := match lit0 with ENot _ => true | _ => false end in
  let lit := match lit0 with ENot l => l | _ => lit0 end in
  match lit with
  | ELe e1 e2 | EGe e2 e1 | ELt e1 e2 | EGt e2 e1 => [e1; e2]
  | EEq e1 e2 =>
      if is_arith e1 then
        if is_not then let '(e1', e2') := neq_sides M e1 e2 in [e1'; e2']
        else [e1; e2]
      else []
  | EDistinct ((arg0 :: _) as args) =>
      if is_arith arg0 then
        if is_not then
          match find_eq M args [] with
          | Some (arg1, arg2) => [arg1; arg2]
          | None => []
          end
        else
          flat_map (fun l => match l with ELt x y => [x; y] | _ => [] end)
            (consecutive_lt
               (map fst (sort_nums (map (fun x => (x, eval_num M x)) args))))
      else []
  | _ => []
  end.

(** The guards pushed by one call of the literal linearizer. *)
Definition lit_guards (M : model) (lit : expr) : list expr :=
  flat_map (term_guards M) (lit_terms M lit).

Lemma linearize_term_guards (M : model) (t : expr) :
  forall mul a st,
    fmls (snd (linearize_term M mul t a st)) = fmls st ++ term_guards M t.
Proof.
  induction t as [ | | args X | args X | t1 IHt1 t2 IHt2 | t IHt
                   | t1 IHt1 t2 IHt2 | t1 IHt1 t2 IHt2 t3 IHt3
                   | | | | | | | | | ] using expr_induct; intros mul a st;
    try (simpl; rewrite app_nil_r; reflexivity).
  - (* Add *)
    simpl linearize_term. simpl term_guards.
    assert (G : forall p,
      fmls (snd (fold_left (fun (p : lin_acc * lin_env) ti =>
               linearize_term M mul ti (fst p) (snd p)) args p))
        = fmls (snd p) ++ flat_map (term_guards M) args).
    { induction X as [|x l Hx Hl IHl]; intro p.
      - simpl. rewrite app_nil_r. reflexivity.
      - simpl fold_left. rewrite IHl, Hx. simpl flat_map.
        rewrite app_assoc. reflexivity. }
    apply (G (a, st)).
  - (* Mul *)
    destruct args as [|t1 [|t2 [|t3 args]]];
      try (simpl; rewrite app_nil_r; reflexivity).
    inversion X as [|? ? H1 X']; subst. inversion X' as [|? ? H2 _]; subst.
    simpl linearize_term. simpl term_guards.
    destruct (is_numeral t1) as [k1|]; [apply H2|].
    destruct (is_numeral t2) as [k2|]; [apply H1|].
    simpl. rewrite app_nil_r. reflexivity.
  - (* Sub *)
    simpl linearize_term. simpl term_guards.
    pose proof (IHt1 mul a st) as E1.
    destruct (linearize_term M mul t1 a st) as [a1 st1]. simpl in E1.
    rewrite IHt2, E1, app_assoc. reflexivity.
  - (* Uminus *)
    simpl linearize_term. simpl term_guards. apply IHt.
  - (* Mod *)
    simpl linearize_term. simpl term_guards. destruct (is_numeral t2) as [k|].
    + pose proof (IHt1 1 {| acc_c := - eval_num M (Mod t1 t2); acc_ts := [] |} st)
        as E.
      destruct (linearize_term M 1 t1 _ st) as [a0 st0]. simpl in E.
      pose proof (extract_coefficients_fmls M (acc_ts a0) st0) as F.
      destruct (extract_coefficients M (acc_ts a0) st0) as [coeffs st1].
      simpl in F. simpl. rewrite F, E. reflexivity.
    + simpl. rewrite app_nil_r. reflexivity.
  - (* Ite *)
    simpl linearize_term. simpl term_guards. destruct (eval_bool M t1).
    + pose proof (IHt2 mul a st) as E.
      destruct (linearize_term M mul t2 a st) as [a1 st1]. simpl in E.
      simpl. rewrite E, app_assoc. reflexivity.
    + rewrite IHt3. simpl. rewrite <- app_assoc. reflexivity.
Qed.

Lemma pair_submit_guards (M : model) mul e1 e2 ty st :
  fmls (snd (let '(a, st1) := linearize_pair M mul e1 e2 acc_empty st in
             submit_row M a ty st1))
  = fmls st ++ flat_map (term_guards M) [e1; e2].
Proof.
  unfold linearize_pair.
  pose proof (linearize_term_guards M e1 mul acc_empty st) as E1.
  destruct (linearize_term M mul e1 acc_empty st) as [a1 st1]. simpl in E1.
  pose proof (linearize_term_guards M e2 (- mul) a1 st1) as E2.
  destruct (linearize_term M (- mul) e2 a1 st1) as [a2 st2]. simpl in E2.
  rewrite submit_row_fmls, E2, E1. simpl. rewrite app_nil_r, app_assoc.
  reflexivity.
Qed.

Lemma chain_terms_cons (x y : expr) (rest : list expr) :
  flat_map (fun l => match l with ELt x y => [x; y] | _ => [] end)
    (consecutive_lt (x :: y :: rest))
  = x :: y :: flat_map (fun l => match l with ELt x y => [x; y] | _ => [] end)
                (consecutive_lt (y :: rest)).
Proof. reflexivity. Qed.

Lemma linearize_chain_guards (M : model) rec nums :
  forall st,
    fmls (snd (linearize_chain (linearize_body rec M) nums st))
    = fmls st
      ++ flat_map (term_guards M)
           (flat_map (fun l => match l with ELt x y => [x; y] | _ => [] end)
              (consecutive_lt (map fst nums))).
Proof.
  induction nums as [|x [|y rest] IH]; intro st;
    try (simpl; rewrite app_nil_r; reflexivity).
  rewrite linearize_chain_cons, linearize_body_lt.
  pose proof (pair_submit_guards M 1 (fst x) (fst y) t_lt st) as E1.
  destruct (linearize_pair M 1 (fst x) (fst y) acc_empty st) as [a st1].
  pose proof (submit_row_true M a t_lt st1) as T.
  destruct (submit_row M a t_lt st1) as [ok st2]. simpl in T. subst ok.
  cbn [snd] in E1. rewrite IH, E1.
  change (map fst (x :: y :: rest)) with (fst x :: fst y :: map fst rest).
  rewrite chain_terms_cons.
  change (map fst (y :: rest)) with (fst y :: map fst rest).
  cbn [flat_map]. rewrite app_nil_r, <- !app_assoc. reflexivity.
Qed.

(** One call of the literal linearizer appends its guards and nothing
    else. *)
Lemma linearize_guards (M : model) (lit : expr) (st : lin_env) :
  fmls (snd (linearize M lit st)) = fmls st ++ lit_guards M lit.
Proof.
  unfold linearize, lit_guards, lit_terms.
  set (r := linearize_body (fun _ st' => (false, st')) M).
  destruct lit as [ | | | | | | | | e1 e2 | e1 e2 | e1 e2 | e1 e2 | e1 e2
                  | args | lit | | ];
    try (simpl; rewrite app_nil_r; reflexivity);
    try apply pair_submit_guards.
  - unfold linearize_body. destruct (is_arith e1).
    + apply pair_submit_guards.
    + simpl. rewrite app_nil_r. reflexivity.
  - unfold linearize_body. destruct args as [|arg0 args].
    + simpl. rewrite app_nil_r. reflexivity.
    + destruct (is_arith arg0).
      * apply linearize_chain_guards.
      * simpl. rewrite app_nil_r. reflexivity.
  - unfold linearize_body.
    destruct lit as [ | | | | | | | | e1 e2 | e1 e2 | e1 e2 | e1 e2 | e1 e2
                    | args | lit | | ];
      try (simpl; rewrite app_nil_r; reflexivity);
      try apply pair_submit_guards.
    + destruct (is_arith e1).
      * destruct (neq_sides M e1 e2) as [e1' e2']. apply pair_submit_guards.
      * simpl. rewrite app_nil_r. reflexivity.
    + destruct args as [|arg0 args].
      * simpl. rewrite app_nil_r. reflexivity.
      * destruct (is_arith arg0).
        -- destruct (find_eq M (arg0 :: args) []) as [[arg1 arg2]|].
           ++ apply pair_submit_guards.
           ++ rewrite submit_row_fmls. simpl. rewrite app_nil_r. reflexivity.
        -- simpl. rewrite app_nil_r. reflexivity.
Qed.

Lemma lit_guards_weight (M : model) (lit : expr) :
  (total_weight (lit_guards M lit) < weight lit)%nat.
Proof.
  destruct (linearize_fmls M lit {| mbo := mbo_empty; fmls := []; tids := [] |})
    as [gs [E W]].
  rewrite linearize_guards in E. apply app_inv_head in E. rewrite E. exact W.
Qed.

(** Every guard the loop of a driver pushes, in the order of the pushes:
    those of the first literal, then those of the rest of the vector, to
    which the first ones have been appended. *)
Equations? all_guards (M : model) (pending : list expr) : list expr
  by wf (total_weight pending) lt :=
all_guards M [] := [];
all_guards M (fml :: rest) :=
  lit_guards M fml ++ all_guards M (rest ++ lit_guards M fml).
Proof.
  pose proof (lit_guards_weight M fml). rewrite total_weight_app. lia.
Qed.

(** ** Marks, and the reverse map from ids to terms *)

(** [expr_mark]: a set of terms. *)
Definition expr_mark : Type := list expr.

Definition is_marked (e : expr) (m : expr_mark) : bool := existsb (expr_eqb e) m.

Definition mark (e : expr) (m : expr_mark) : expr_mark := e :: m.

(** Modelled from the spec: [mark_rec] of qe_mbp.h: marks a term and,
    transitively, its sub-terms. *)
Fixpoint mark_rec (e : expr) (m : expr_mark) {struct e} : expr_mark :=
  let m := mark e m in
  match e with
  | Num _ _ | ETrue | EFalse => m
  | App _ _ l | Add l | Mul l | EDistinct l =>
      fold_left (fun acc x => mark_rec x acc) l m
  | Sub a b | Mod a b | ELe a b | EGe a b | ELt a b | EGt a b | EEq a b =>
      mark_rec b (mark_rec a m)
  | Uminus a | ENot a => mark_rec a m
  | Ite a b c => mark_rec c (mark_rec b (mark_rec a m))
  end.

(** [ptr_vector<expr>::setx(idx, e, 0)]: writes slot [idx], growing the
    vector with null entries when it is too short. *)
Fixpoint setx (idx : nat) (e : expr) (l : list (option expr)) : list (option expr) :=
  match idx, l with
  | O, [] => [Some e]
  | O, _ :: l' => Some e :: l'
  | S n, [] => None :: setx n e []
  | S n, x :: l' => x :: setx n e l'
  end.

(** [index2expr[id]].  A null or missing slot, where the source has no
    defined behaviour, reads as [EFalse]. *)
Definition get_expr (index2expr : list (option expr)) (id : nat) : expr :=
  match nth_error index2expr id with
  | Some (Some e) => e
  | _ => EFalse
  end.

(** ** Lifting a surviving row to a literal *)

Definition Qc_is_neg (q : Qc) : bool := Qc_ltb q 0.

Definition is_t_mod (ty : ineq_type) : bool :=
  match ty with t_mod => true | _ => false end.

(** The unit case of the lifting loop: one variable with a negative
    coefficient in a row that is not a divisibility row. *)
Definition lift_unit (index2expr : list (option expr)) (v : var) (r : row) : expr :=
  let t := get_expr index2expr (m_id v) in
  let t := if Qc_eqb (m_coeff v) (- (1)) then t
           else Mul [Num (- m_coeff v) (is_int t); t] in
  let s := Num (m_const r) (is_int t) in
  match m_type r with
  | t_lt => EGt t s
  | t_le => EGe t s
  | t_eq => EEq t s
  | t_mod => t
  end.

Definition lift_var (index2expr : list (option expr)) (v : var) : expr :=
  let t := get_expr index2expr (m_id v) in
  if Qc_eqb (m_coeff v) 1 then t else Mul [Num (m_coeff v) (is_int t); t].

(** [t := sum of coeff * x]: the one product when the row has one variable,
    else their sum. *)
Definition lift_sum (index2expr : list (option expr)) (r : row) : expr :=
  match map (lift_var index2expr) (m_vars r) with
  | [t0] => t0
  | ts => Add ts
  end.

(** [s := - c], a numeral of the sort of the last product. *)
Definition lift_rhs (index2expr : list (option expr)) (r : row) : expr :=
  Num (- m_const r)
      (is_int (last (map (lift_var index2expr) (m_vars r)) EFalse)).

(** The general case: [t R s], and [(t - s) mod m = 0] for a divisibility
    row, where the subtraction is left out when the constant is zero. *)
Definition lift_general (index2expr : list (option expr)) (r : row) : expr :=
  let s := lift_rhs index2expr r in
  let t := lift_sum index2expr r in
  match m_type r with
  | t_lt => ELt t s
  | t_le => ELe t s
  | t_eq => EEq t s
  | t_mod =>
      let t := if Qc_eqb (m_const r) 0 then t else Sub t s in
      EEq (Mod t (Num (m_mod r) true)) (Num 0 true)
  end.

(** One round of the lifting loop: the literals pushed for row [r]. *)
Definition lift_row (index2expr : list (option expr)) (r : row) : list expr :=
  match m_vars r with
  | [] => []
  | [v] =>
      if Qc_is_neg (m_coeff v) && negb (is_t_mod (m_type r))
      then [lift_unit index2expr v r]
      else [lift_general index2expr r]
  | _ => [lift_general index2expr r]
  end.

(** ** The projection driver *)

(** The loop that marks the variables and registers the arithmetic ones the
    linearizer has not met. *)
Definition register_vars (M : model) (vars : list expr) (st : lin_env) : lin_env :=
  fold_left
    (fun st v =>
       if is_arith v && negb (map_contains v (tids st))
       then snd (add_term M v st) else st)
    vars st.

(** The loop over [tids]: the sub-terms of every engine term that is not a
    variable to eliminate are added to [fmls_mark]. *)
Definition mark_tids (var_mark : expr_mark) (ids : obj_map nat)
  (fmls_mark : expr_mark) : expr_mark :=
  fold_left
    (fun fm (p : expr * nat) =>
       if is_marked (fst p) var_mark then fm else mark_rec (fst p) fm)
    ids fmls_mark.

Definition build_index2expr (ids : obj_map nat) : list (option expr) :=
  fold_left (fun i2e (p : expr * nat) => setx (snd p) (fst p) i2e) ids [].

(** [tids.find(v)] for a key that is present. *)
Definition tids_find (v : expr) (ids : obj_map nat) : nat :=
  match map_find v ids with Some id => id | None => 0%nat end.

Definition is_real_var (fmls_mark : expr_mark) (v : expr) : bool :=
  is_arith v && negb (is_marked v fmls_mark).

(** Modelled from the spec: the value [opt::inf_eps] of the engine's
    [maximize] (inf_eps_rational.h is not part of this file): a rational, a
    rational with an infinitesimal offset, or an infinity; it is finite when
    the coefficient of the infinity is zero. *)
Record inf_eps : Type := mk_inf_eps {
  get_infinity : Qc;
  get_rational : Qc;
  get_infinitesimal : Qc
}.

Definition is_finite (v : inf_eps) : bool := Qc_eqb (get_infinity v) 0.

(** The first half of the projection driver: every literal is offered to the
    linearizer, the vector keeps the residue, and the arithmetic variables
    the linearizer has not met are registered. *)
Definition project_state (M : model) (vars : list expr) (fmls0 : list expr)
  : lin_env :=
  register_vars M vars (linearize_all M [] fmls0 mbo_empty []).

(** [fmls_mark] after the two marking loops: the residue literals, and the
    sub-terms of the engine terms that are not variables to eliminate. *)
Definition project_marks (vars : list expr) (st : lin_env) : expr_mark :=
  mark_tids vars (tids st) (fmls st).

(** [real_vars]: the ids of the variables handed to the engine. *)
Definition project_real_vars (vars : list expr) (st : lin_env) : list nat :=
  map (fun v => tids_find v (tids st))
      (filter (is_real_var (project_marks vars st)) vars).

(** The first half of the optimizer driver: the objective is linearized and
    set, then every literal of the copy of [fmls0] is offered to the
    linearizer. *)
Definition maximize_state (mdl : model) (fmls0 : list expr) (t : expr) : lin_env :=
  let st := {| mbo := mbo_empty; fmls := fmls0; tids := [] |} in
  let '(a, st) := linearize_term mdl 1 t acc_empty st in
  let '(coeffs, st) := extract_coefficients mdl (acc_ts a) st in
  let st := set_mbo (set_objective coeffs (acc_c a) (mbo st)) st in
  linearize_all mdl [] (fmls st) (mbo st) (tids st).

Section Drivers.

(** The interior of the engine is not part of this file: its elimination
    and its optimisation are parameters of the drivers. *)
Variable mbo_project : list nat -> model_based_opt -> model_based_opt.

(** [imp::operator()(model&, app_ref_vector&, expr_ref_vector&)]: returns the
    shrunk vector of variables and the new vector of literals. *)
Definition project (M : model) (vars : list expr) (fmls0 : list expr)
  : list expr * list expr :=
  if negb (existsb is_arith vars) then (vars, fmls0)
  else
    let st := project_state M vars fmls0 in
    let fmls_mark := project_marks vars st in
    let index2expr := build_index2expr (tids st) in
    let real_vars := project_real_vars vars st in
    let vars' := filter (fun v => negb (is_real_var fmls_mark v)) vars in
    let o := mbo_project real_vars (mbo st) in
    (vars', fmls st ++ flat_map (lift_row index2expr) (get_live_rows o)).

(** [imp::operator()(model&, app*, app_ref_vector&, expr_ref_vector&)] *)
Definition project_one (M : model) (v : expr) (lits : list expr)
  : bool * list expr :=
  let '(vs, lits') := project M [v] lits in
  (match vs with [] => true | _ => false end, lits').

(** [imp::solve] *)
Definition solve (M : model) (vars : list expr) (lits : list expr) : bool := false.

(** [mbo.maximize()]: the optimum, and the engine with the values that
    reach it. *)
Variable mbo_maximize : model_based_opt -> inf_eps * model_based_opt.

(** The loop of [maximize] that updates the model: every engine term that
    is an uninterpreted constant takes the value the engine found. *)
Definition update_model (o : model_based_opt) (ids : obj_map nat) (mdl : model)
  : model :=
  fold_left
    (fun mdl (p : expr * nat) =>
       match fst p with
       | App f _ [] => register_decl mdl f (VNum (get_value (snd p) o))
       | _ => mdl
       end)
    ids mdl.

(** What [imp::maximize] returns and writes: the value, the updated model and
    the two bounds. *)
Record maximize_result : Type := mk_maximize_result {
  res_value : inf_eps;
  res_model : model;
  res_ge : expr;
  res_gt : expr
}.

(** [imp::maximize] *)
Definition maximize (fmls0 : list expr) (mdl : model) (t : expr)
  : maximize_result :=
  let st := maximize_state mdl fmls0 t in
  let '(value, o) := mbo_maximize (mbo st) in
  let mdl' := update_model o (tids st) mdl in
  let val := Num (get_rational value) false in
  let tval := eval_expr mdl' t in
  if negb (is_finite value) then
    {| res_value := value; res_model := mdl'; res_ge := EGe t tval; res_gt := EFalse |}
  else if Qc_is_neg (get_infinitesimal value) then
    {| res_value := value; res_model := mdl'; res_ge := EGe t tval; res_gt := EGe t val |}
  else
    {| res_value := value; res_model := mdl'; res_ge := EGe t val; res_gt := EGt t val |}.

End Drivers.

(** ** What a row says about the seeded values *)

(** One summand [coeff * x] of a row under the engine's values. *)
Definition var_value (vals : list Qc) (v : var) : Qc :=
  m_coeff v * nth (m_id v) vals 0.

(** The left side [sum of coeff * x + c] of a row under the engine's values. *)
Definition row_sum (vals : list Qc) (r : row) : Qc :=
  sum_Qc (map (var_value vals) (m_vars r)) + m_const r.

(** Modelled from the spec: the reading of a row, section 3:
    [sum + c  R  0], and [sum + c = 0 (mod m)] for a divisibility row. *)
Definition sum_holds (ty : ineq_type) (m s : Qc) : bool :=
  match ty with
  | t_eq => Qc_eqb s 0
  | t_lt => Qc_ltb s 0
  | t_le => negb (Qc_ltb 0 s)
  | t_mod => Qc_eqb (Qc_mod s m) 0
  end.

(** The row holds under the engine's values. *)
Definition row_holds (vals : list Qc) (r : row) : bool :=
  sum_holds (m_type r) (m_mod r) (row_sum vals r).

(** Every row of the engine holds under its values. *)
Definition rows_hold (o : model_based_opt) : bool :=
  forallb (row_holds (m_var2value o)) (m_rows o).

(** Every variable of the row is a registered id. *)
Definition row_wf (n : nat) (r : row) : Prop :=
  Forall (fun v => (m_id v < n)%nat) (m_vars r).

(** The rows mention registered ids of [o] only and hold under its values. *)
Definition rows_ok (o : model_based_opt) (rows : list row) : Prop :=
  Forall (fun r => row_wf (List.length (m_var2value o)) r /\
                   row_holds (m_var2value o) r = true) rows.

(** Modelled from the spec: the contract of the engine's [project(vars[])],
    section 4.2: it preserves satisfaction under the seeded model.  When the
    rows of the engine mention registered ids and hold under the seeds, so
    do the rows that are live after the projection. *)
Definition project_contract
  (mbo_project : list nat -> model_based_opt -> model_based_opt) : Prop :=
  forall vs o, rows_ok o (m_rows o) -> rows_ok o (get_live_rows (mbo_project vs o)).

(** ** The invariant of the linearizer *)

(** The value in the model of the term-to-coefficient map. *)
Definition ts_val (M : model) (ts : obj_map Qc) : Qc :=
  sum_Qc (map (fun p => snd p * eval_num M (fst p)) ts).

(** The value in the model of the linear combination [(ts, c)]. *)
Definition acc_val (M : model) (a : lin_acc) : Qc :=
  acc_c a + ts_val M (acc_ts a).

(** The state the linearizer keeps for a model [M]: every registered term is
    seeded with its model value, every id has a term, every row mentions
    registered ids only and holds under the seeds, and every literal of the
    vector holds in [M]. *)
Record env_ok (M : model) (st : lin_env) : Prop := mk_env_ok {
  ok_tids : forall e id, In (e, id) (tids st) ->
            nth_error (m_var2value (mbo st)) id = Some (eval_num M e);
  ok_cover : forall id, (id < List.length (m_var2value (mbo st)))%nat ->
             exists e, In (e, id) (tids st);
  ok_rows : Forall (fun r => row_wf (List.length (m_var2value (mbo st))) r /\
                             row_holds (m_var2value (mbo st)) r = true)
                   (m_rows (mbo st));
  ok_fmls : Forall (fun f => eval_bool M f = true) (fmls st)
}.

(** The model satisfies every literal of the list. *)
Definition all_true (M : model) (l : list expr) : Prop :=
  Forall (fun f => eval_bool M f = true) l.

(** The second state extends the first: the values of the engine are a
    prefix of the new ones and every term keeps its id. *)
Definition env_le (st st' : lin_env) : Prop :=
  (exists more, m_var2value (mbo st') = m_var2value (mbo st) ++ more) /\
  (forall e id, map_find e (tids st) = Some id -> map_find e (tids st') = Some id).

(** The coefficient vector has no zero entry. *)
Definition coeffs_nonzero (vs : list var) : Prop :=
  Forall (fun v => m_coeff v <> 0) vs.

(** No row of the engine, and not its objective, has a zero coefficient. *)
Definition engine_nonzero (o : model_based_opt) : Prop :=
  Forall (fun r => coeffs_nonzero (m_vars r)) (m_rows o) /\
  coeffs_nonzero (fst (m_objective o)).

(** The orders of the sorted vector, on the recorded values. *)
Definition le_second (a b : expr * Qc) : Prop := snd a <= snd b.
Definition lt_second (a b : expr * Qc) : Prop := snd a < snd b.

(** The term in slot [j] of [index2expr], if the slot is there and not null. *)
Definition slot (l : list (option expr)) (j : nat) : option expr :=
  match nth_error l j with Some (Some e) => Some e | _ => None end.

(** The reverse map agrees with the seeds on the ids of a row. *)
Definition row_mapped (M : model) (index2expr : list (option expr))
  (vals : list Qc) (r : row) : Prop :=
  Forall (fun v => eval_num M (get_expr index2expr (m_id v)) = nth (m_id v) vals 0)
         (m_vars r).

(** ** The unit literal, and the wording of the specification *)

(** The mirror of a row type as a comparison of two terms: [<] becomes [>],
    [<=] becomes [>=], [=] stays. *)
Definition mirror (ty : ineq_type) (t s : expr) : expr :=
  match ty with
  | t_lt => EGt t s
  | t_le => EGe t s
  | t_eq => EEq t s
  | t_mod => t
  end.

(** The left side of the unit literal: [x] itself when the coefficient is
    [-1], else the product of [- coeff] and [x]. *)
Definition unit_lhs (x : expr) (coeff : Qc) : expr :=
  if Qc_eqb coeff (- (1)) then x else Mul [Num (- coeff) (is_int x); x].

(** The unit literal as the specification words it: [- coeff * x  R'  - c]. *)
Definition lift_unit_spec (index2expr : list (option expr)) (v : var) (r : row)
  : expr :=
  let x := get_expr index2expr (m_id v) in
  mirror (m_type r) (Mul [Num (- m_coeff v) (is_int x); x])
         (Num (- m_const r) (is_int x)).

(** The sides of a negated equality as the specification words the swap:
    swap when [val e1 > val e2]. *)
Definition neq_sides_spec (M : model) (e1 e2 : expr) : expr * expr :=
  if Qc_ltb (eval_num M e2) (eval_num M e1) then (e2, e1) else (e1, e2).

(** The negated-equality branch with the swap of the specification. *)
Definition linearize_neq_spec (M : model) (e1 e2 : expr) (st : lin_env)
  : bool * lin_env :=
  let '(e1', e2') := neq_sides_spec M e1 e2 in
  let '(a, st1) := linearize_pair M (- (1)) e1' e2' acc_empty st in
  submit_row M a t_lt st1.

(** ** A concrete engine and a concrete model, for examples *)

(** The row has a variable among the ids [vs]. *)
Definition row_mentions (vs : list nat) (r : row) : bool :=
  existsb (fun v => existsb (Nat.eqb (m_id v)) vs) (m_vars r).

(** The weakest engine that meets the facade: projection keeps the rows that
    mention no eliminated variable and drops the others. *)
Definition drop_project (vs : list nat) (o : model_based_opt) : model_based_opt :=
  {| m_var2value := m_var2value o;
     m_var2is_int := m_var2is_int o;
     m_rows := filter (fun r => negb (row_mentions vs r)) (m_rows o);
     m_objective := m_objective o |}.

(** An engine stub for the optimizer driver that reports a given value. *)
Definition const_maximize (v : inf_eps) (o : model_based_opt)
  : inf_eps * model_based_opt := (v, o).

Definition Qc_of_Z (z : Z) : Qc := Q2Qc (inject_Z z).

Definition int_const (name : string) : expr := App name SInt [].
Definition int_num (z : Z) : expr := Num (Qc_of_Z z) true.
Definition real_const (name : string) : expr := App name SReal [].
Definition real_num (z : Z) : expr := Num (Qc_of_Z z) false.

(** A model with [x = 4] and [y = 2] and [z = 3], in which the predicate [p]
    holds everywhere. *)
Definition example_model : model :=
  fun f _ =>
    if String.eqb f "x" then VNum (Qc_of_Z 4)
    else if String.eqb f "y" then VNum (Qc_of_Z 2)
    else if String.eqb f "z" then VNum (Qc_of_Z 3)
    else if String.eqb f "p" then VBool true
    else VNum 0.

Definition example_unit_var : var := {| m_id := 0; m_coeff := Qc_of_Z (-2) |}.

Definition example_unit_row : row :=
  {| m_vars := [example_unit_var]; m_const := Qc_of_Z 8; m_mod := 0; m_type := t_eq |}.

Definition example_env : lin_env := {| mbo := mbo_empty; fmls := []; tids := [] |}.

Definition example_project_vars : list expr := [int_const "x"].

(** [x + y <= 10], [x >= y], [not (x = z)], [p(y)] and a guarded bound. *)
Definition example_project_fmls : list expr :=
  [ ELe (Add [int_const "x"; int_const "y"]) (int_num 10);
    EGe (int_const "x") (int_const "y");
    ENot (EEq (int_const "x") (int_const "z"));
    App "p" SBool [int_const "y"];
    ELe (Ite (EGt (int_const "y") (int_num 0)) (int_const "z")
             (Add [int_const "z"; int_num 1]))
        (Mul [int_num 2; int_const "x"]) ].

(** [ite(x > 0, y, z) <= 7]: the guard [x > 0] is a comparison. *)
Definition example_ite_lit : expr :=
  ELe (Ite (EGt (int_const "x") (int_num 0)) (int_const "y") (int_const "z"))
      (int_num 7).

(** [ite(p(y), x, z) <= 7]: the guard [p(y)] is not arithmetic. *)
Definition example_guarded_lit : expr :=
  ELe (Ite (App "p" SBool [int_const "y"]) (int_const "x") (int_const "z"))
      (int_num 7).

Definition example_distinct : expr :=
  EDistinct [int_const "x"; int_const "y"; int_const "z"].

Definition example_mod_fmls : list expr :=
  [ ELe (Mod (int_const "y") (int_num 3)) (int_const "x") ].

(** [x] occurs in the residue literal [p(x)] and in the bound [x <= 5]. *)
Definition example_scope_fmls : list expr :=
  [ App "p" SBool [int_const "x"]; ELe (int_const "x") (int_num 5) ].

(** ** The remaining functions of the file *)

(** [imp::n_sign] *)
Definition n_sign (b : Qc) : Qc := if Qc_ltb 0 b then - (1) else 1.

(** [imp::validate_model]: the loop goes over every literal and clears the
    flag at each one the evaluator does not make true. *)
Definition validate_model (M : model) (fmls : list expr) : bool :=
  fold_left (fun valid f => if eval_bool M f then valid else false) fmls true.

(** [qe::arith_project]: a plugin of its own, and the one-variable entry point
    of [imp] (which builds its own one-element vector). *)
Definition arith_project
  (mbo_project : list nat -> model_based_opt -> model_based_opt)
  (M : model) (var : expr) (lits : list expr) : bool * list expr :=
  project_one mbo_project M var lits.

(** ** Shapes, occurrences and structural invariants *)

(** The shapes the dispatch of [imp::linearize] consumes, after it has
    peeled one negation: a comparison, an equality whose first side is
    arithmetic, a [distinct] whose first argument is arithmetic. *)
Definition linearizable (lit0 : expr) : bool :=
  match (match lit0 with ENot l => l | _ => lit0 end) with
  | ELe _ _ | EGe _ _ | ELt _ _ | EGt _ _ => true
  | EEq e1 _ => is_arith e1
  | EDistinct (arg0 :: _) => is_arith arg0
  | _ => false
  end.

(** The literals whose row says what the literal says: a comparison,
    negated or not, and an equality with an arithmetic first side. *)
Definition is_comparison (lit0 : expr) : bool :=
  match lit0 with
  | ELe _ _ | EGe _ _ | ELt _ _ | EGt _ _ => true
  | EEq e1 _ => is_arith e1
  | ENot (ELe _ _) | ENot (EGe _ _) | ENot (ELt _ _) | ENot (EGt _ _) => true
  | _ => false
  end.

(** The literals the loop of the driver keeps. *)
Definition is_residue (l : expr) : bool := negb (linearizable l).

(** [v] is [e] or a sub-term of [e]. *)
Fixpoint occurs (v e : expr) {struct e} : bool :=
  expr_eqb v e ||
  match e with
  | Num _ _ | ETrue | EFalse => false
  | App _ _ l | Add l | Mul l | EDistinct l => existsb (occurs v) l
  | Sub a b | Mod a b | ELe a b | EGe a b | ELt a b | EGt a b | EEq a b =>
      occurs v a || occurs v b
  | Uminus a | ENot a => occurs v a
  | Ite a b c => occurs v a || occurs v b || occurs v c
  end.

(** The correspondence between terms and ids: the ids of [tids] are
    [0, 1, ...] in order of registration, one per engine variable, and no
    term is entered twice. *)
Definition tids_wf (st : lin_env) : Prop :=
  map snd (tids st) = seq 0 (List.length (m_var2value (mbo st))) /\
  NoDup (map fst (tids st)).

(** What a call of the linearizer may do to the engine and to [tids]: append
    variables, append rows, append entries; the objective stays, and the
    correspondence between terms and ids is kept. *)
Definition lin_step (st st' : lin_env) : Prop :=
  (exists more, m_var2value (mbo st') = m_var2value (mbo st) ++ more) /\
  (exists more, m_rows (mbo st') = m_rows (mbo st) ++ more) /\
  m_objective (mbo st') = m_objective (mbo st) /\
  (exists more, tids st' = tids st ++ more) /\
  (tids_wf st -> tids_wf st').

(** Modelled from the spec: the second half of the contract of the engine's
    [project(vars[])], section 4.2: after the projection no live row
    mentions an eliminated id. *)
Definition project_scope_contract
  (mbo_project : list nat -> model_based_opt -> model_based_opt) : Prop :=
  forall vs o r v,
    In r (get_live_rows (mbo_project vs o)) -> In v (m_vars r) ->
    ~ In (m_id v) vs.

(** ** Basic facts: rationals, term identity, maps *)

Lemma Qc_eqb_eq (a b : Qc) : Qc_eqb a b = true <-> a = b.
Proof. unfold Qc_eqb. destruct (Qc_eq_dec a b); split; congruence. Qed.

Lemma Qc_eqb_refl (a : Qc) : Qc_eqb a a = true.
Proof. apply Qc_eqb_eq. reflexivity. Qed.

Lemma Qc_eqb_neq (a b : Qc) : Qc_eqb a b = false <-> a <> b.
Proof. unfold Qc_eqb. destruct (Qc_eq_dec a b); split; congruence. Qed.

Lemma Qc_ltb_lt (a b : Qc) : Qc_ltb a b = true <-> a < b.
Proof.
  unfold Qc_ltb, Qclt, Qccompare, Qlt. rewrite <- Z.compare_lt_iff.
  unfold Qcompare. destruct (_ ?= _)%Z; split; congruence.
Qed.

Lemma Qc_ltb_ge (a b : Qc) : Qc_ltb a b = false <-> b <= a.
Proof.
  rewrite <- Bool.not_true_iff_false, Qc_ltb_lt. split.
  - apply Qcnot_lt_le.
  - apply Qcle_not_lt.
Qed.

Lemma Qc_ltb_shift (a b : Qc) : Qc_ltb a b = Qc_ltb (a - b) 0.
Proof.
  apply Bool.eq_true_iff_eq. rewrite !Qc_ltb_lt.
  rewrite (Qclt_minus_iff a b), (Qclt_minus_iff (a - b) 0).
  replace (0 + - (a - b)) with (b + - a) by ring. tauto.
Qed.

Lemma Qc_eqb_shift (a b : Qc) : Qc_eqb a b = Qc_eqb (a - b) 0.
Proof.
  apply Bool.eq_true_iff_eq. rewrite !Qc_eqb_eq. split; intro H.
  - subst. ring.
  - replace a with ((a - b) + b) by ring. rewrite H. ring.
Qed.

Lemma expr_eqb_eq (a b : expr) : expr_eqb a b = true -> a = b.
Proof.
  revert b.
  assert (L : forall l, Forall (fun a => forall b, expr_eqb a b = true -> a = b) l ->
              forall l',
                (fix list_eqb (l1 l2 : list expr) {struct l1} : bool :=
                   match l1, l2 with
                   | [], [] => true
                   | x :: l1', y :: l2' => expr_eqb x y && list_eqb l1' l2'
                   | _, _ => false
                   end) l l' = true -> l = l').
  { induction 1 as [|x l Hx _ IH]; intros [|y l']; try discriminate; auto.
    intro H. apply andb_prop in H. destruct H as [H1 H2].
    f_equal; [apply Hx; exact H1 | apply IH; exact H2]. }
  induction a as [q i | f s args IH | args IH | args IH | t1 IH1 t2 IH2 | t1 IH1
                 | t1 IH1 t2 IH2 | t1 IH1 t2 IH2 t3 IH3
                 | e1 IH1 e2 IH2 | e1 IH1 e2 IH2 | e1 IH1 e2 IH2 | e1 IH1 e2 IH2
                 | e1 IH1 e2 IH2 | args IH | e IH | | ] using expr_induct;
    intros [ ]; simpl; try discriminate; intro H;
    repeat match goal with
           | H : _ && _ = true |- _ =>
               let H1 := fresh H in apply andb_prop in H; destruct H as [H H1]
           end;
    repeat match goal with
           | H : expr_eqb ?x _ = true, I : forall b, expr_eqb ?x b = true -> _ |- _ =>
               apply I in H; subst
           | H : Qc_eqb _ _ = true |- _ => apply Qc_eqb_eq in H; subst
           | H : Bool.eqb _ _ = true |- _ => apply Bool.eqb_prop in H; subst
           | H : String.eqb _ _ = true |- _ => apply String.eqb_eq in H; subst
           | H : sort_eqb ?s ?s' = true |- _ =>
               destruct s, s'; try discriminate H; clear H
           | H : _ = true, I : Forall _ _ |- _ => apply (L _ I) in H; subst
           end;
    reflexivity.
Qed.

Lemma expr_eqb_refl (a : expr) : expr_eqb a a = true.
Proof.
  assert (L : forall l, Forall (fun a => expr_eqb a a = true) l ->
                (fix list_eqb (l1 l2 : list expr) {struct l1} : bool :=
                   match l1, l2 with
                   | [], [] => true
                   | x :: l1', y :: l2' => expr_eqb x y && list_eqb l1' l2'
                   | _, _ => false
                   end) l l = true).
  { induction 1 as [|x l Hx _ IH]; [reflexivity|]. rewrite Hx, IH. reflexivity. }
  induction a using expr_induct; simpl;
    repeat match goal with
           | H : expr_eqb _ _ = true |- _ => rewrite H; clear H
           | I : Forall _ _ |- _ => rewrite (L _ I); clear I
           end;
    rewrite ?Qc_eqb_refl, ?Bool.eqb_reflx, ?String.eqb_refl;
    try reflexivity.
  destruct s; reflexivity.
Qed.

Lemma expr_eqb_iff (a b : expr) : expr_eqb a b = true <-> a = b.
Proof. split; [apply expr_eqb_eq | intros ->; apply expr_eqb_refl]. Qed.

(** ** Lifting: rows without variables, and the unit case *)

(** C10. A surviving row whose variable vector is empty is skipped by the
    lifting loop: it pushes no literal, so the literals lifted from a list of
    rows are those lifted from its rows that have a variable. *)
Theorem lift_row_constant_dropped :
  forall (index2expr : list (option expr)) (c m : Qc) (ty : ineq_type)
         (rows : list row),
    lift_row index2expr {| m_vars := []; m_const := c; m_mod := m; m_type := ty |} = [] /\
    flat_map (lift_row index2expr) rows
    = flat_map (lift_row index2expr)
        (filter (fun r => match m_vars r with [] => false | _ => true end) rows).
Proof.
  intros index2expr c m ty rows. split; [reflexivity|].
  induction rows as [|r rows IH]; [reflexivity|].
  simpl. destruct (m_vars r) as [|v vs] eqn:E.
  - unfold lift_row at 1. rewrite E. exact IH.
  - simpl. rewrite IH. reflexivity.
Qed.

Lemma is_int_unit_lhs (x : expr) (coeff : Qc) :
  is_int (unit_lhs x coeff) = is_int x.
Proof.
  unfold unit_lhs. destruct (Qc_eqb coeff (- (1))); [reflexivity|].
  unfold is_int. simpl. destruct (is_int x) eqn:E; unfold is_int in E;
    destruct (get_sort x); simpl in *; congruence.
Qed.

(** C2, as the code has it. A surviving row with exactly one variable, a
    negative coefficient and a type other than [mod] is lifted to the literal
    [- coeff * x  R'  c], where [c] is the row's constant itself and [R'] is
    the mirror of the row type; for the coefficient [-1] the left side is [x]. *)
Theorem lift_row_unit :
  forall (index2expr : list (option expr)) (v : var) (c m : Qc) (ty : ineq_type),
    m_coeff v < 0 ->
    ty <> t_mod ->
    let x := get_expr index2expr (m_id v) in
    lift_row index2expr {| m_vars := [v]; m_const := c; m_mod := m; m_type := ty |}
    = [mirror ty (unit_lhs x (m_coeff v)) (Num c (is_int x))].
Proof.
  intros index2expr v c m ty Hneg Hty x.
  unfold lift_row. simpl m_vars. simpl m_type.
  apply Qc_ltb_lt in Hneg. unfold Qc_is_neg. rewrite Hneg.
  assert (is_t_mod ty = false) as -> by (destruct ty; try reflexivity; congruence).
  simpl andb. cbv iota. unfold lift_unit. simpl m_type. simpl m_const.
  fold x. fold (unit_lhs x (m_coeff v)). rewrite is_int_unit_lhs.
  destruct ty; reflexivity.
Qed.

Lemma lift_row_unit_witness :
  lift_row [Some (int_const "x")] example_unit_row
  = [EEq (Mul [Num (- Qc_of_Z (-2)) true; int_const "x"]) (Num (Qc_of_Z 8) true)].
Proof.
  apply (lift_row_unit [Some (int_const "x")] example_unit_var (Qc_of_Z 8) 0 t_eq).
  - reflexivity.
  - discriminate.
Defined.

(** C2, as the claim states it, fails: for the row [-2 x + 8 = 0] the code
    pushes [2 x = 8], which holds where [x = 4], and not [2 x = -8], which
    does not hold there. *)
Lemma lift_row_unit_not_negated_constant :
  lift_row [Some (int_const "x")] example_unit_row
    <> [lift_unit_spec [Some (int_const "x")] example_unit_var example_unit_row] /\
  forallb (eval_bool example_model)
    (lift_row [Some (int_const "x")] example_unit_row) = true /\
  eval_bool example_model
    (lift_unit_spec [Some (int_const "x")] example_unit_var example_unit_row) = false.
Proof.
  split; [|split]; [|vm_compute; reflexivity|vm_compute; reflexivity].
  intro H. vm_compute in H. discriminate H.
Qed.

(** ** Negated equalities *)

(** C3, as the code has it. For a literal [not (e1 = e2)] with an arithmetic
    [e1], the linearizer evaluates both sides, swaps them exactly when
    [val e1 < val e2], accumulates the first side with the multiplier [-1] of
    the recorded negation and the second with [+1], and submits one strict
    row. *)
Theorem linearize_neq :
  forall (M : model) (e1 e2 : expr) (st : lin_env),
    is_arith e1 = true ->
    linearize M (ENot (EEq e1 e2)) st
    = (let '(e1', e2') := neq_sides M e1 e2 in
       let '(a1, st1) := linearize_term M (- (1)) e1' acc_empty st in
       let '(a2, st2) := linearize_term M (- - (1)) e2' a1 st1 in
       let '(coeffs, st3) := extract_coefficients M (acc_ts a2) st2 in
       (true, set_mbo (add_constraint coeffs (acc_c a2) t_lt (mbo st3)) st3)) /\
    (eval_num M e1 < eval_num M e2 -> neq_sides M e1 e2 = (e2, e1)) /\
    (~ eval_num M e1 < eval_num M e2 -> neq_sides M e1 e2 = (e1, e2)).
Proof.
  intros M e1 e2 st Ha. split; [|split].
  - unfold linearize, linearize_body. rewrite Ha.
    destruct (neq_sides M e1 e2) as [e1' e2']. unfold linearize_pair.
    destruct (linearize_term M (- (1)) e1' acc_empty st) as [a1 st1].
    destruct (linearize_term M (- - (1)) e2' a1 st1) as [a2 st2].
    reflexivity.
  - intro H. apply Qc_ltb_lt in H. unfold neq_sides. rewrite H. reflexivity.
  - intro H. unfold neq_sides.
    destruct (Qc_ltb (eval_num M e1) (eval_num M e2)) eqn:E; [|reflexivity].
    apply Qc_ltb_lt in E. contradiction.
Qed.

Lemma linearize_neq_witness :
  fst (linearize example_model (ENot (EEq (int_const "y") (int_const "x"))) example_env)
    = true /\
  neq_sides example_model (int_const "y") (int_const "x")
    = (int_const "x", int_const "y").
Proof.
  destruct (linearize_neq example_model (int_const "y") (int_const "x") example_env
              eq_refl) as [E [S _]].
  split.
  - rewrite E. vm_compute. reflexivity.
  - apply S. vm_compute. reflexivity.
Defined.

(** C3, as the claim states it, fails: where [val y = 2 < val x = 4], the
    code swaps the sides of [not (y = x)] although [val y > val x] is false;
    the row it submits holds in the model, the row of the claimed swap does
    not. *)
Lemma linearize_neq_swaps_when_smaller :
  neq_sides example_model (int_const "y") (int_const "x")
    <> neq_sides_spec example_model (int_const "y") (int_const "x") /\
  rows_hold (mbo (snd (linearize example_model
                         (ENot (EEq (int_const "y") (int_const "x"))) example_env)))
    = true /\
  rows_hold (mbo (snd (linearize_neq_spec example_model
                         (int_const "y") (int_const "x") example_env)))
    = false.
Proof.
  split; [|split]; [|vm_compute; reflexivity|vm_compute; reflexivity].
  intro H. vm_compute in H. discriminate H.
Qed.

(** ** The bounds of the optimizer driver *)

Lemma Qc_ltb_irrefl (q : Qc) : Qc_ltb q q = false.
Proof. apply Qc_ltb_ge. apply Qcle_refl. Qed.

Lemma eval_num_eval_expr (M : model) (t : expr) :
  eval_num M (eval_expr M t) = eval_num M t.
Proof.
  unfold eval_num, eval_expr. destruct (eval M t) as [q|[|]]; reflexivity.
Qed.

Lemma eval_bool_ge_self (M : model) (t : expr) :
  eval_bool M (EGe t (eval_expr M t)) = true.
Proof.
  unfold eval_bool. simpl. fold (eval_num M t). fold (eval_num M (eval_expr M t)).
  rewrite eval_num_eval_expr, Qc_ltb_irrefl. reflexivity.
Qed.

(** C5. The two bounds [maximize] writes, by the value the engine returned:
    not finite: [ge] is [t >= M(t)], with [M] the updated model, and holds in
    it, and [gt] is [false]; finite with a negative infinitesimal part: [ge]
    is [t >= M(t)] and [gt] is [t >= value]; finite otherwise: [ge] is
    [t >= value] and [gt] is [t > value]. *)
Theorem maximize_bounds :
  forall (mbo_maximize : model_based_opt -> inf_eps * model_based_opt)
         (fmls0 : list expr) (mdl : model) (t : expr),
    let r := maximize mbo_maximize fmls0 mdl t in
    let value := res_value r in
    let tval := eval_expr (res_model r) t in
    let val := Num (get_rational value) false in
    (is_finite value = false ->
       res_ge r = EGe t tval /\ res_gt r = EFalse /\
       eval_bool (res_model r) (res_ge r) = true) /\
    (is_finite value = true -> get_infinitesimal value < 0 ->
       res_ge r = EGe t tval /\ res_gt r = EGe t val) /\
    (is_finite value = true -> ~ get_infinitesimal value < 0 ->
       res_ge r = EGe t val /\ res_gt r = EGt t val).
Proof.
  intros mbo_maximize fmls0 mdl t. unfold maximize.
  destruct (mbo_maximize _) as [value o].
  destruct (is_finite value) eqn:F; simpl negb; cbv iota.
  - unfold Qc_is_neg.
    destruct (Qc_ltb (get_infinitesimal value) 0) eqn:I; cbv zeta; simpl;
      rewrite F; (split; [discriminate|]); split; intros _ H.
    + split; reflexivity.
    + apply Qc_ltb_lt in I. contradiction.
    + apply Qc_ltb_lt in H. congruence.
    + split; reflexivity.
  - cbv zeta. simpl. rewrite F. split; [|split; discriminate].
    intros _. repeat split. apply eval_bool_ge_self.
Qed.

(** ** Conditionals in the term linearizer *)

Lemma linearize_term_fmls_incl (M : model) (t : expr) mul a st (f : expr) :
  In f (fmls st) -> In f (fmls (snd (linearize_term M mul t a st))).
Proof.
  intro H. destruct (linearize_term_fmls M t mul a st) as [gs [E _]].
  rewrite E. apply in_or_app. left. exact H.
Qed.

(** ** Facts about the maps *)

Lemma map_find_In {V} (k : expr) (m : obj_map V) (v : V) :
  map_find k m = Some v -> In (k, v) m.
Proof.
  induction m as [|[k' v'] m IH]; simpl; [discriminate|].
  destruct (expr_eqb k k') eqn:E.
  - intros [= ->]. apply expr_eqb_eq in E. subst. left. reflexivity.
  - intro H. right. apply IH. exact H.
Qed.

Lemma map_insert_In {V} (k : expr) (v : V) (m : obj_map V) (p : expr * V) :
  In p (map_insert k v m) -> In p m \/ p = (k, v).
Proof.
  induction m as [|[k' v'] m IH]; simpl.
  - intros [<-|[]]. right. reflexivity.
  - destruct (expr_eqb k k') eqn:E; simpl.
    + apply expr_eqb_eq in E. subst. intros [<-|H]; auto.
    + intros [<-|H]; auto. destruct (IH H); auto.
Qed.

Lemma map_insert_absent {V} (k : expr) (v : V) (m : obj_map V) :
  map_find k m = None -> map_insert k v m = m ++ [(k, v)].
Proof.
  induction m as [|[k' v'] m IH]; simpl; [reflexivity|].
  destruct (expr_eqb k k'); [discriminate|]. intro H. rewrite IH; auto.
Qed.

Lemma map_find_app {V} (k : expr) (m1 m2 : obj_map V) :
  map_find k (m1 ++ m2)
  = match map_find k m1 with Some v => Some v | None => map_find k m2 end.
Proof.
  induction m1 as [|[k' v'] m1 IH]; simpl; [reflexivity|].
  destruct (expr_eqb k k'); [reflexivity | exact IH].
Qed.

Lemma map_find_insert_same {V} (k : expr) (v : V) (m : obj_map V) :
  map_find k (map_insert k v m) = Some v.
Proof.
  induction m as [|[k' v'] m IH]; simpl.
  - rewrite expr_eqb_refl. reflexivity.
  - destruct (expr_eqb k k') eqn:E; simpl; rewrite E; [reflexivity | exact IH].
Qed.

(** ** The value of an accumulator *)

Lemma ts_val_insert_new (M : model) (x : expr) (v : Qc) (ts : obj_map Qc) :
  map_find x ts = None ->
  ts_val M (map_insert x v ts) = ts_val M ts + v * eval_num M x.
Proof.
  induction ts as [|[k q] ts IH]; unfold ts_val in *; simpl.
  - intros _. ring.
  - destruct (expr_eqb x k); [discriminate|]. intro H. simpl.
    rewrite (IH H). ring.
Qed.

Lemma ts_val_insert_old (M : model) (x : expr) (w v : Qc) (ts : obj_map Qc) :
  map_find x ts = Some w ->
  ts_val M (map_insert x (w + v) ts) = ts_val M ts + v * eval_num M x.
Proof.
  induction ts as [|[k q] ts IH]; unfold ts_val in *; simpl; [discriminate|].
  destruct (expr_eqb x k) eqn:E.
  - intros [= ->]. apply expr_eqb_eq in E. subst. simpl. ring.
  - intro H. simpl. rewrite (IH H). ring.
Qed.

Lemma ts_val_insert_mul (M : model) (x : expr) (v : Qc) (ts : obj_map Qc) :
  ts_val M (insert_mul x v ts) = ts_val M ts + v * eval_num M x.
Proof.
  unfold insert_mul. destruct (map_find x ts) as [w|] eqn:F.
  - apply ts_val_insert_old. exact F.
  - apply ts_val_insert_new. exact F.
Qed.

(** A term [is_numeral] recognises has the recognised value in every model. *)
Lemma is_numeral_eval (M : model) (t : expr) :
  forall k, is_numeral t = Some k -> eval_num M t = k.
Proof.
  induction t as [q i | f s args IH | args IH | args IH | t1 IH1 t2 IH2 | t1 IH1
                 | t1 IH1 t2 IH2 | t1 IH1 t2 IH2 t3 IH3
                 | e1 IH1 e2 IH2 | e1 IH1 e2 IH2 | e1 IH1 e2 IH2 | e1 IH1 e2 IH2
                 | e1 IH1 e2 IH2 | args IH | e IH | | ] using expr_induct;
    intro k; simpl; try discriminate.
  - intros [= <-]. reflexivity.
  - (* Add *)
    assert (G : forall r k,
      (fix go (l : list expr) (r : Qc) : option Qc :=
         match l with
         | [] => Some r
         | x :: l' => match is_numeral x with
                      | Some r1 => go l' (r + r1)
                      | None => None
                      end
         end) args r = Some k ->
      k = r + sum_Qc (map (fun x => num_of (eval M x)) args)).
    { induction IH as [|x l Hx _ IHl]; intros r k0; simpl.
      - intros [= <-]. ring.
      - destruct (is_numeral x) as [r1|]; [|discriminate].
        intro H. apply IHl in H. rewrite H.
        fold (eval_num M x). rewrite (Hx r1 eq_refl). ring. }
    intro H. apply G in H. unfold eval_num. simpl. rewrite H. ring.
  - (* Mul *)
    assert (G : forall r k,
      (fix go (l : list expr) (r : Qc) : option Qc :=
         match l with
         | [] => Some r
         | x :: l' => match is_numeral x with
                      | Some r1 => go l' (r * r1)
                      | None => None
                      end
         end) args r = Some k ->
      k = r * prod_Qc (map (fun x => num_of (eval M x)) args)).
    { induction IH as [|x l Hx _ IHl]; intros r k0; simpl.
      - intros [= <-]. ring.
      - destruct (is_numeral x) as [r1|]; [|discriminate].
        intro H. apply IHl in H. rewrite H.
        fold (eval_num M x). rewrite (Hx r1 eq_refl). ring. }
    intro H. apply G in H. unfold eval_num. simpl. rewrite H. ring.
  - (* Sub *)
    destruct (is_numeral t1) as [r1|]; [|discriminate].
    destruct (is_numeral t2) as [r2|]; [|discriminate].
    intros [= <-]. unfold eval_num in *. simpl.
    rewrite (IH1 r1 eq_refl), (IH2 r2 eq_refl). reflexivity.
  - (* Uminus *)
    destruct (is_numeral t1) as [r1|]; [|discriminate].
    intros [= <-]. unfold eval_num in *. simpl. rewrite (IH1 r1 eq_refl).
    reflexivity.
Qed.

(** ** The remainder *)

Lemma Qc_floor_of_Z (z : Z) : Qc_floor (Q2Qc (inject_Z z)) = z.
Proof.
  unfold Qc_floor.
  change (this (Q2Qc (inject_Z z))) with (Qred (inject_Z z)).
  rewrite (Qfloor_comp _ _ (Qred_correct (inject_Z z))).
  apply Qfloor_Z.
Qed.

Lemma Qc_abs_zero (k : Qc) : Qc_abs k = 0 -> k = 0.
Proof.
  unfold Qc_abs. destruct (Qc_ltb k 0); intro H; [|exact H].
  replace k with (- - k) by ring. rewrite H. ring.
Qed.

(** A number minus its remainder has remainder zero: the divisibility row
    [u - r = 0 (mod k)] the linearizer submits for [r = val (u mod k)]. *)
Lemma Qc_mod_sub_mod (x k : Qc) : Qc_mod (x - Qc_mod x k) k = 0.
Proof.
  unfold Qc_mod. destruct (Qc_eqb k 0) eqn:K.
  - ring.
  - apply Qc_eqb_neq in K.
    assert (A : Qc_abs k <> 0) by (intro H; apply K, Qc_abs_zero, H).
    set (n := Q2Qc (inject_Z (Qc_floor (x / Qc_abs k)))).
    replace (x - (x - Qc_abs k * n)) with (Qc_abs k * n) by ring.
    replace (Qc_abs k * n / Qc_abs k) with n by (field; exact A).
    unfold n at 2. rewrite Qc_floor_of_Z. fold n. ring.
Qed.

(** ** The extractor and the term linearizer keep the invariant *)

Lemma vars_sum_app (vals more : list Qc) (vs : list var) :
  Forall (fun v => (m_id v < List.length vals)%nat) vs ->
  sum_Qc (map (var_value (vals ++ more)) vs) = sum_Qc (map (var_value vals) vs).
Proof.
  induction 1 as [|v vs Hv _ IH]; simpl; [reflexivity|].
  rewrite IH. unfold var_value. rewrite app_nth1 by exact Hv. reflexivity.
Qed.

Lemma row_holds_app (vals more : list Qc) (r : row) :
  row_wf (List.length vals) r ->
  row_holds (vals ++ more) r = row_holds vals r.
Proof.
  intro H. unfold row_holds, row_sum. rewrite (vars_sum_app vals more _ H).
  reflexivity.
Qed.

Lemma row_wf_mono (n m : nat) (r : row) :
  (n <= m)%nat -> row_wf n r -> row_wf m r.
Proof.
  intros L H. unfold row_wf in *. eapply Forall_impl; [|exact H].
  simpl. intros. lia.
Qed.

Lemma env_ok_add_var (M : model) (st : lin_env) (v : expr) (i : bool) :
  env_ok M st ->
  map_find v (tids st) = None ->
  env_ok M {| mbo := snd (add_var (eval_num M v) i (mbo st));
              fmls := fmls st;
              tids := map_insert v (fst (add_var (eval_num M v) i (mbo st)))
                        (tids st) |}.
Proof.
  intros [Ht Hc Hr Hf] F. constructor; simpl.
  - intros e id H. apply map_insert_In in H. destruct H as [H|[= -> ->]].
    + specialize (Ht e id H). rewrite nth_error_app1; [exact Ht|].
      apply nth_error_Some. congruence.
    + rewrite nth_error_app2 by lia. rewrite Nat.sub_diag. reflexivity.
  - intros id H. rewrite length_app in H. simpl in H.
    rewrite (map_insert_absent _ _ _ F).
    destruct (Nat.eq_dec id (List.length (m_var2value (mbo st)))) as [->|N].
    + exists v. apply in_or_app. right. left. reflexivity.
    + destruct (Hc id) as [e He]; [lia|].
      exists e. apply in_or_app. left. exact He.
  - apply Forall_forall. intros r Hin.
    rewrite Forall_forall in Hr. destruct (Hr r Hin) as [W H].
    split.
    + apply (row_wf_mono (List.length (m_var2value (mbo st)))); [|exact W].
      rewrite length_app. lia.
    + rewrite row_holds_app; assumption.
  - exact Hf.
Qed.

Lemma env_ok_add_row (M : model) (st : lin_env) (r : row) :
  env_ok M st ->
  row_wf (List.length (m_var2value (mbo st))) r ->
  row_holds (m_var2value (mbo st)) r = true ->
  env_ok M (set_mbo (add_row r (mbo st)) st).
Proof.
  intros [Ht Hc Hr Hf] W H. constructor; simpl; auto.
  apply Forall_app. split; [exact Hr|]. constructor; [|constructor].
  split; assumption.
Qed.

Lemma env_ok_push (M : model) (st : lin_env) (f : expr) :
  env_ok M st -> eval_bool M f = true -> env_ok M (push_fml f st).
Proof.
  intros [Ht Hc Hr Hf] H. constructor; simpl; auto.
  apply Forall_app. split; [exact Hf|]. constructor; [exact H|constructor].
Qed.

(** The coefficient extractor keeps the invariant; the vector it returns
    mentions registered ids only, and its value under the seeds is the value
    of the map in the model. *)
Lemma extract_coefficients_ok (M : model) (ts : obj_map Qc) :
  forall st, env_ok M st ->
    env_ok M (snd (extract_coefficients M ts st)) /\
    Forall (fun v => (m_id v < List.length
                        (m_var2value (mbo (snd (extract_coefficients M ts st)))))%nat)
           (fst (extract_coefficients M ts st)) /\
    sum_Qc (map (var_value (m_var2value (mbo (snd (extract_coefficients M ts st)))))
              (fst (extract_coefficients M ts st))) = ts_val M ts /\
    (forall p, In p (tids st) -> In p (tids (snd (extract_coefficients M ts st)))).
Proof.
  induction ts as [|[v q] ts IH]; intros st Hok.
  - simpl. split; [exact Hok|]. split; [constructor|].
    split; [reflexivity | auto].
  - simpl extract_coefficients.
    assert (H1 : env_ok M (snd (find_or_add M v st)) /\
                 In (v, fst (find_or_add M v st)) (tids (snd (find_or_add M v st))) /\
                 (forall p, In p (tids st) -> In p (tids (snd (find_or_add M v st))))).
    { unfold find_or_add. destruct (map_find v (tids st)) as [id|] eqn:F.
      - simpl. split; [exact Hok|]. split; [apply map_find_In; exact F | auto].
      - unfold add_term. simpl.
        split; [apply (env_ok_add_var M st v (is_int v) Hok F)|].
        rewrite (map_insert_absent _ _ _ F). split.
        + apply in_or_app. right. left. reflexivity.
        + intros p Hp. apply in_or_app. left. exact Hp. }
    destruct (find_or_add M v st) as [id st1'].
    simpl in H1. destruct H1 as [Hok1 [Hin Hinc]].
    destruct (IH st1' Hok1) as [Hok2 [Hwf [Hsum Hinc2]]].
    destruct (extract_coefficients M ts st1') as [coeffs st2]. simpl in *.
    pose proof (ok_tids M st2 Hok2 v id (Hinc2 _ Hin)) as Hv.
    split; [exact Hok2|].
    assert (Hlt : (id < List.length (m_var2value (mbo st2)))%nat)
      by (apply nth_error_Some; congruence).
    unfold ts_val. simpl. fold (ts_val M ts).
    destruct (Qc_eqb q 0) eqn:Q.
    + apply Qc_eqb_eq in Q. subst q. split; [exact Hwf|]. split; [|auto].
      rewrite Hsum. ring.
    + split; [constructor; [exact Hlt | exact Hwf]|]. split; [|auto].
      simpl. rewrite Hsum. unfold var_value. simpl.
      rewrite (nth_error_nth _ _ 0 Hv). reflexivity.
Qed.

Lemma atom_ok (M : model) (t : expr) (mul : Qc) (a : lin_acc) :
  acc_val M {| acc_c := acc_c a; acc_ts := insert_mul t mul (acc_ts a) |}
  = acc_val M a + mul * eval_num M t.
Proof. unfold acc_val. simpl. rewrite ts_val_insert_mul. ring. Qed.

Lemma row_holds_mod_row (vals : list Qc) (coeffs : list var) (c k x : Qc) :
  sum_Qc (map (var_value vals) coeffs) + c = x - Qc_mod x k ->
  row_holds vals {| m_vars := coeffs; m_const := c; m_mod := k; m_type := t_mod |}
  = true.
Proof.
  intro H. unfold row_holds, row_sum, sum_holds. simpl.
  rewrite H, Qc_mod_sub_mod. apply Qc_eqb_refl.
Qed.

(** The term linearizer keeps the invariant and adds [mul * val t] to the
    value of the accumulator. *)
Lemma linearize_term_ok (M : model) (t : expr) :
  forall mul a st, env_ok M st ->
    env_ok M (snd (linearize_term M mul t a st)) /\
    acc_val M (fst (linearize_term M mul t a st))
    = acc_val M a + mul * eval_num M t.
Proof.
  induction t as [q i | f s args IH | args IH | args IH | t1 IH1 t2 IH2 | t1 IH1
                 | t1 IH1 t2 IH2 | t1 IH1 t2 IH2 t3 IH3
                 | e1 IH1 e2 IH2 | e1 IH1 e2 IH2 | e1 IH1 e2 IH2 | e1 IH1 e2 IH2
                 | e1 IH1 e2 IH2 | args IH | e IH | | ] using expr_induct;
    intros mul a st Hok;
    try (split; [exact Hok | apply atom_ok]).
  - (* Num *)
    split; [exact Hok|]. unfold acc_val, eval_num. simpl. ring.
  - (* Add *)
    simpl linearize_term.
    assert (G : forall p, env_ok M (snd p) ->
      env_ok M (snd (fold_left (fun (p : lin_acc * lin_env) ti =>
                 linearize_term M mul ti (fst p) (snd p)) args p)) /\
      acc_val M (fst (fold_left (fun (p : lin_acc * lin_env) ti =>
                 linearize_term M mul ti (fst p) (snd p)) args p))
      = acc_val M (fst p)
        + mul * sum_Qc (map (fun x => num_of (eval M x)) args)).
    { induction IH as [|x l Hx _ IHl]; intros p Hp.
      - simpl. split; [exact Hp | ring].
      - simpl fold_left. destruct (Hx mul (fst p) (snd p) Hp) as [H1 H2].
        destruct (IHl _ H1) as [H3 H4]. split; [exact H3|].
        rewrite H4, H2. unfold eval_num. simpl. ring. }
    destruct (G (a, st) Hok) as [H1 H2]. split; [exact H1|].
    rewrite H2. reflexivity.
  - (* Mul *)
    destruct args as [|t1 [|t2 [|t3 args]]];
      try (split; [exact Hok | apply atom_ok]).
    inversion IH as [|? ? H1 IH']; subst. inversion IH' as [|? ? H2 _]; subst.
    simpl linearize_term.
    destruct (is_numeral t1) as [k1|] eqn:N1.
    + destruct (H2 (mul * k1) a st Hok) as [A B]. split; [exact A|].
      rewrite B. unfold eval_num at 2. simpl.
      fold (eval_num M t1). fold (eval_num M t2).
      rewrite (is_numeral_eval M t1 k1 N1). ring.
    + destruct (is_numeral t2) as [k2|] eqn:N2.
      * destruct (H1 (mul * k2) a st Hok) as [A B]. split; [exact A|].
        rewrite B. unfold eval_num at 2. simpl.
        fold (eval_num M t1). fold (eval_num M t2).
        rewrite (is_numeral_eval M t2 k2 N2). ring.
      * split; [exact Hok | apply atom_ok].
  - (* Sub *)
    simpl linearize_term.
    destruct (IH1 mul a st Hok) as [A B].
    destruct (linearize_term M mul t1 a st) as [a1 st1]. simpl in A, B.
    destruct (IH2 (- mul) a1 st1 A) as [C D]. split; [exact C|].
    rewrite D, B. unfold eval_num. simpl. ring.
  - (* Uminus *)
    simpl linearize_term. destruct (IH1 (- mul) a st Hok) as [A B].
    split; [exact A|]. rewrite B. unfold eval_num. simpl. ring.
  - (* Mod *)
    simpl linearize_term. destruct (is_numeral t2) as [k|] eqn:N.
    + set (r := eval_num M (Mod t1 t2)).
      assert (R : r = Qc_mod (eval_num M t1) k).
      { subst r. rewrite <- (is_numeral_eval M t2 k N). reflexivity. }
      destruct (IH1 1 {| acc_c := - r; acc_ts := [] |} st Hok) as [A B].
      destruct (linearize_term M 1 t1 {| acc_c := - r; acc_ts := [] |} st)
        as [a0 st0]. simpl in A, B.
      destruct (extract_coefficients_ok M (acc_ts a0) st0 A) as [C [W [S _]]].
      destruct (extract_coefficients M (acc_ts a0) st0) as [coeffs st1].
      simpl in C, W, S. simpl. split.
      * apply env_ok_add_row; [exact C | exact W |].
        apply (row_holds_mod_row _ _ _ _ (eval_num M t1)).
        rewrite S. unfold acc_val in B. simpl in B.
        replace (ts_val M (acc_ts a0) + acc_c a0)
          with (acc_c a0 + ts_val M (acc_ts a0)) by ring.
        rewrite B, <- R. unfold ts_val. simpl. ring.
      * unfold acc_val. simpl. fold r. ring.
    + split; [exact Hok | apply atom_ok].
  - (* Ite *)
    simpl linearize_term. destruct (eval_bool M t1) eqn:G.
    + destruct (IH2 mul a st Hok) as [A B].
      destruct (linearize_term M mul t2 a st) as [a1 st1]. simpl in A, B.
      simpl. split; [apply env_ok_push; assumption|].
      rewrite B. unfold eval_num. simpl. unfold eval_bool in G. rewrite G.
      reflexivity.
    + assert (Hn : eval_bool M (mk_not t1) = true)
        by (unfold eval_bool in *; simpl; rewrite G; reflexivity).
      destruct (IH3 mul a _ (env_ok_push M st _ Hok Hn)) as [A B].
      split; [exact A|]. rewrite B. unfold eval_num. simpl.
      unfold eval_bool in G. rewrite G. reflexivity.
Qed.

Lemma ltb_transfer (a b x : Qc) : x = a - b -> Qc_ltb x 0 = Qc_ltb a b.
Proof. intros ->. symmetry. apply Qc_ltb_shift. Qed.

Lemma ltb_transfer_r (a b x : Qc) : x = b - a -> Qc_ltb 0 x = Qc_ltb a b.
Proof.
  intros ->. apply Bool.eq_true_iff_eq. rewrite !Qc_ltb_lt.
  rewrite (Qclt_minus_iff a b), (Qclt_minus_iff 0 (b - a)).
  replace (b - a + - 0) with (b + - a) by ring. tauto.
Qed.

Lemma eqb_transfer (a b x : Qc) : x = a - b -> Qc_eqb x 0 = Qc_eqb a b.
Proof. intros ->. symmetry. apply Qc_eqb_shift. Qed.

Lemma linearize_pair_ok (M : model) (mul : Qc) (e1 e2 : expr) a st :
  env_ok M st ->
  env_ok M (snd (linearize_pair M mul e1 e2 a st)) /\
  acc_val M (fst (linearize_pair M mul e1 e2 a st))
  = acc_val M a + mul * eval_num M e1 - mul * eval_num M e2.
Proof.
  intro Hok. unfold linearize_pair.
  destruct (linearize_term_ok M e1 mul a st Hok) as [A B].
  destruct (linearize_term M mul e1 a st) as [a1 st1]. simpl in A, B.
  destruct (linearize_term_ok M e2 (- mul) a1 st1 A) as [C D].
  split; [exact C|]. rewrite D, B. ring.
Qed.

Lemma submit_row_ok (M : model) (a : lin_acc) (ty : ineq_type) (st : lin_env) :
  env_ok M st ->
  sum_holds ty 0 (acc_val M a) = true ->
  env_ok M (snd (submit_row M a ty st)).
Proof.
  intros Hok H. unfold submit_row.
  destruct (extract_coefficients_ok M (acc_ts a) st Hok) as [C [W [S _]]].
  destruct (extract_coefficients M (acc_ts a) st) as [coeffs st1].
  simpl in *. apply env_ok_add_row; [exact C | exact W |].
  unfold row_holds, row_sum. simpl. rewrite S.
  unfold acc_val in H. replace (ts_val M (acc_ts a) + acc_c a)
    with (acc_c a + ts_val M (acc_ts a)) by ring. exact H.
Qed.

Lemma pair_submit_ok (M : model) (mul : Qc) (e1 e2 : expr) (ty : ineq_type) st :
  env_ok M st ->
  sum_holds ty 0 (mul * eval_num M e1 - mul * eval_num M e2) = true ->
  env_ok M (snd (let '(a, st1) := linearize_pair M mul e1 e2 acc_empty st in
                 submit_row M a ty st1)).
Proof.
  intros Hok H.
  destruct (linearize_pair_ok M mul e1 e2 acc_empty st Hok) as [A B].
  destruct (linearize_pair M mul e1 e2 acc_empty st) as [a st1]. simpl in A, B.
  apply submit_row_ok; [exact A|]. rewrite B.
  replace (acc_val M acc_empty + mul * eval_num M e1 - mul * eval_num M e2)
    with (mul * eval_num M e1 - mul * eval_num M e2)
    by (unfold acc_val, acc_empty, ts_val; simpl; ring).
  exact H.
Qed.

(** The four readings of a comparison between two values that the branches
    of the literal linearizer submit. *)
Lemma holds_le (a b : Qc) :
  sum_holds t_le 0 (1 * a - 1 * b) = negb (Qc_ltb b a).
Proof. simpl. f_equal. apply ltb_transfer_r. ring. Qed.

Lemma holds_lt (a b : Qc) :
  sum_holds t_lt 0 (1 * a - 1 * b) = Qc_ltb a b.
Proof. simpl. apply ltb_transfer. ring. Qed.

Lemma holds_not_le (a b : Qc) :
  sum_holds t_lt 0 (- (1) * a - - (1) * b) = Qc_ltb b a.
Proof. simpl. apply ltb_transfer. ring. Qed.

Lemma holds_not_lt (a b : Qc) :
  sum_holds t_le 0 (- (1) * a - - (1) * b) = negb (Qc_ltb a b).
Proof. simpl. f_equal. apply ltb_transfer_r. ring. Qed.

Lemma holds_eq (a b : Qc) :
  sum_holds t_eq 0 (1 * a - 1 * b) = Qc_eqb a b.
Proof. simpl. apply eqb_transfer. ring. Qed.

Lemma holds_not_eq (a b : Qc) :
  sum_holds t_eq 0 (- (1) * a - - (1) * b) = Qc_eqb b a.
Proof. simpl. apply eqb_transfer. ring. Qed.

(** ** Sorting the arguments of [distinct] *)

Lemma sort_insert_perm x l : Permutation (sort_insert x l) (x :: l).
Proof.
  induction l as [|y l IH]; simpl; [reflexivity|].
  destruct (compare_second x y); [reflexivity|].
  rewrite IH. apply perm_swap.
Qed.

Lemma sort_nums_perm l : Permutation (sort_nums l) l.
Proof.
  induction l as [|x l IH]; simpl; [reflexivity|].
  rewrite sort_insert_perm. constructor. exact IH.
Qed.

Lemma sort_insert_sorted x l :
  Sorted le_second l -> Sorted le_second (sort_insert x l).
Proof.
  induction 1 as [|y l Hs IH Hd]; simpl.
  - constructor; constructor.
  - unfold compare_second. destruct (Qc_ltb (snd x) (snd y)) eqn:E.
    + constructor; [constructor; assumption|]. constructor.
      apply Qc_ltb_lt in E. apply Qclt_le_weak. exact E.
    + apply Qc_ltb_ge in E. constructor; [exact IH|].
      destruct l as [|z l]; simpl.
      * constructor. exact E.
      * unfold compare_second. destruct (Qc_ltb (snd x) (snd z)).
        -- constructor. exact E.
        -- inversion Hd; subst. constructor. assumption.
Qed.

Lemma sort_nums_sorted l : Sorted le_second (sort_nums l).
Proof.
  induction l as [|x l IH]; simpl; [constructor|].
  apply sort_insert_sorted. exact IH.
Qed.

Lemma all_distinct_NoDup (l : list Qc) :
  all_distinct Qc_eqb l = true -> NoDup l.
Proof.
  induction l as [|x l IH]; simpl; intro H; [constructor|].
  apply andb_prop in H. destruct H as [H1 H2]. constructor; [|apply IH, H2].
  intro I. apply Bool.negb_true_iff in H1.
  assert (existsb (Qc_eqb x) l = true); [|congruence].
  apply existsb_exists. exists x. split; [exact I | apply Qc_eqb_refl].
Qed.

Lemma sorted_distinct_strict (l : list (expr * Qc)) :
  Sorted le_second l -> NoDup (map snd l) -> Sorted lt_second l.
Proof.
  induction 1 as [|x l Hs IH Hd]; simpl; intro N; [constructor|].
  inversion N as [|? ? Hx N']; subst. constructor; [apply IH, N'|].
  destruct Hd as [|y l Hxy]; constructor.
  unfold lt_second, le_second in *.
  destruct (Qc_eq_dec (snd x) (snd y)) as [E|E].
  - exfalso. apply Hx. simpl. left. symmetry. exact E.
  - apply Qcle_lt_or_eq in Hxy. destruct Hxy; [assumption | contradiction].
Qed.

(** With pairwise different model values, the sorted vector is strictly
    ascending, is a rearrangement of the arguments, and still records for
    every argument its model value. *)
Lemma sort_nums_strict (M : model) (args : list expr) :
  all_distinct Qc_eqb (map (fun x => num_of (eval M x)) args) = true ->
  let nums := sort_nums (map (fun x => (x, eval_num M x)) args) in
  Sorted lt_second nums /\
  Permutation (map fst nums) args /\
  Forall (fun p => snd p = eval_num M (fst p)) nums.
Proof.
  intros H nums. subst nums.
  set (l := map (fun x => (x, eval_num M x)) args).
  pose proof (sort_nums_perm l) as P.
  split; [|split].
  - apply sorted_distinct_strict; [apply sort_nums_sorted|].
    apply (Permutation_NoDup (l := map snd l)).
    + apply Permutation_map. symmetry. exact P.
    + subst l. rewrite map_map. simpl. apply all_distinct_NoDup. exact H.
  - rewrite (Permutation_map fst P). subst l. rewrite map_map. simpl.
    rewrite map_id. reflexivity.
  - apply (Permutation_Forall (x := l)); [symmetry; exact P|].
    subst l. apply Forall_forall. intros p Hp. apply in_map_iff in Hp.
    destruct Hp as [x [<- _]]. reflexivity.
Qed.

(** ** The literal linearizer keeps the invariant *)

Lemma linearize_chain_ok (M : model) rec (nums : list (expr * Qc)) :
  Sorted lt_second nums ->
  Forall (fun p => snd p = eval_num M (fst p)) nums ->
  forall st, env_ok M st ->
    env_ok M (snd (linearize_chain (linearize_body rec M) nums st)) /\
    fst (linearize_chain (linearize_body rec M) nums st) = true.
Proof.
  induction nums as [|x [|y rest] IH]; intros Hs Hv st Hok.
  - simpl. auto.
  - simpl. auto.
  - rewrite linearize_chain_cons, linearize_body_lt.
    inversion Hs as [|? ? Hs' Hd]; subst. inversion Hd as [|? ? Hxy]; subst.
    inversion Hv as [|? ? Hx Hv']; subst. inversion Hv' as [|? ? Hy _]; subst.
    unfold lt_second in Hxy. rewrite Hx, Hy in Hxy. apply Qc_ltb_lt in Hxy.
    assert (A : env_ok M (snd (let '(a, st1) :=
                  linearize_pair M 1 (fst x) (fst y) acc_empty st in
                  submit_row M a t_lt st1))).
    { apply pair_submit_ok; [exact Hok|]. rewrite holds_lt. exact Hxy. }
    destruct (linearize_pair M 1 (fst x) (fst y) acc_empty st) as [a st1].
    pose proof (submit_row_true M a t_lt st1) as T.
    destruct (submit_row M a t_lt st1) as [ok st2]. simpl in T, A. subst ok.
    apply IH; assumption.
Qed.

Lemma find_eq_values (M : model) (args : list expr) :
  forall values arg1 arg2,
    Forall (fun p => fst p = eval_num M (snd p)) values ->
    find_eq M args values = Some (arg1, arg2) ->
    eval_num M arg1 = eval_num M arg2.
Proof.
  induction args as [|x args IH]; intros values arg1 arg2 Hv; simpl;
    [discriminate|].
  destruct (List.find _ values) as [[r e]|] eqn:F.
  - intros [= <- <-]. apply find_some in F. destruct F as [I E].
    apply Qc_eqb_eq in E. simpl in E. rewrite Forall_forall in Hv.
    specialize (Hv _ I). simpl in Hv. congruence.
  - apply IH. apply Forall_app. split; [exact Hv|].
    constructor; [reflexivity | constructor].
Qed.

Lemma eval_bool_not (M : model) (e : expr) :
  eval_bool M (ENot e) = negb (eval_bool M e).
Proof. reflexivity. Qed.

Lemma eval_bool_distinct (M : model) (args : list expr) :
  eval_bool M (EDistinct args)
  = if existsb is_arith args
    then all_distinct Qc_eqb (map (fun x => num_of (eval M x)) args)
    else all_distinct value_eqb (map (eval M) args).
Proof. reflexivity. Qed.

Lemma is_arith_exists (arg0 : expr) (args : list expr) :
  is_arith arg0 = true -> existsb is_arith (arg0 :: args) = true.
Proof. intro H. simpl. rewrite H. reflexivity. Qed.

(** A call of the literal linearizer on a literal that holds in the model
    keeps the invariant: the rows it submits hold under the seeds and the
    guards it pushes hold in the model. *)
Lemma linearize_ok (M : model) (lit : expr) (st : lin_env) :
  env_ok M st ->
  eval_bool M lit = true ->
  env_ok M (snd (linearize M lit st)).
Proof.
  intros Hok Hlit. unfold linearize.
  set (r := linearize_body (fun _ st' => (false, st')) M).
  destruct lit as [ | | | | | | | | e1 e2 | e1 e2 | e1 e2 | e1 e2 | e1 e2
                  | args | lit | | ]; try exact Hok.
  - apply pair_submit_ok; [exact Hok|]. rewrite holds_le. exact Hlit.
  - apply pair_submit_ok; [exact Hok|]. rewrite holds_le. exact Hlit.
  - apply pair_submit_ok; [exact Hok|]. rewrite holds_lt. exact Hlit.
  - apply pair_submit_ok; [exact Hok|]. rewrite holds_lt. exact Hlit.
  - unfold linearize_body. destruct (is_arith e1) eqn:A; [|exact Hok].
    apply pair_submit_ok; [exact Hok|]. rewrite holds_eq.
    unfold eval_bool in Hlit. simpl in Hlit. rewrite A in Hlit. exact Hlit.
  - unfold linearize_body. destruct args as [|arg0 args]; [exact Hok|].
    destruct (is_arith arg0) eqn:A; [|exact Hok].
    rewrite eval_bool_distinct, (is_arith_exists arg0 args A) in Hlit.
    destruct (sort_nums_strict M (arg0 :: args) Hlit) as [Hs [_ Hv]].
    subst r. apply linearize_chain_ok; assumption.
  - (* negated literal *)
    rewrite eval_bool_not in Hlit. apply Bool.negb_true_iff in Hlit.
    unfold linearize_body.
    destruct lit as [ | | | | | | | | e1 e2 | e1 e2 | e1 e2 | e1 e2 | e1 e2
                    | args | lit | | ]; try exact Hok.
    + apply pair_submit_ok; [exact Hok|]. rewrite holds_not_le.
      apply Bool.negb_false_iff. exact Hlit.
    + apply pair_submit_ok; [exact Hok|]. rewrite holds_not_le.
      apply Bool.negb_false_iff. exact Hlit.
    + apply pair_submit_ok; [exact Hok|]. rewrite holds_not_lt.
      apply Bool.negb_true_iff. exact Hlit.
    + apply pair_submit_ok; [exact Hok|]. rewrite holds_not_lt.
      apply Bool.negb_true_iff. exact Hlit.
    + destruct (is_arith e1) eqn:A; [|exact Hok].
      unfold eval_bool in Hlit. simpl in Hlit. rewrite A in Hlit.
      simpl in Hlit. fold (eval_num M e1) in Hlit. fold (eval_num M e2) in Hlit.
      apply Qc_eqb_neq in Hlit. unfold neq_sides.
      destruct (Qc_ltb (eval_num M e1) (eval_num M e2)) eqn:L;
        (apply pair_submit_ok; [exact Hok|]); rewrite holds_not_le.
      * exact L.
      * apply Qc_ltb_ge in L. apply Qc_ltb_lt.
        apply Qcle_lt_or_eq in L. destruct L as [L|L]; [exact L|].
        exfalso. apply Hlit. symmetry. exact L.
    + destruct args as [|arg0 args]; [exact Hok|].
      destruct (is_arith arg0) eqn:A; [|exact Hok].
      destruct (find_eq M (arg0 :: args) []) as [[arg1 arg2]|] eqn:F.
      * apply pair_submit_ok; [exact Hok|]. rewrite holds_not_eq.
        apply Qc_eqb_eq. symmetry.
        apply (find_eq_values M _ _ _ _ (Forall_nil _) F).
      * apply submit_row_ok; [exact Hok|]. reflexivity.
Qed.

(** ** The loop keeps the invariant *)

Lemma env_ok_tail (M : model) (st : lin_env) :
  env_ok M st ->
  env_ok M {| mbo := mbo st; fmls := tl (fmls st); tids := tids st |}.
Proof.
  intros [Ht Hc Hr Hf]. constructor; simpl; auto.
  destruct (fmls st); [constructor|]. inversion Hf; assumption.
Qed.

(** After the loop, the engine holds rows that are true under the seeds and
    the vector holds the residue, every literal of which is true in [M]. *)
Lemma linearize_all_ok (M : model) (kept pending : list expr)
  (o : model_based_opt) (ids : obj_map nat) :
  env_ok M {| mbo := o; fmls := pending; tids := ids |} ->
  all_true M kept ->
  env_ok M (linearize_all M kept pending o ids).
Proof.
  funelim (linearize_all M kept pending o ids); intros Hok Hk.
  - destruct Hok as [Ht Hc Hr Hf]. constructor; simpl in *; auto.
  - match goal with IH : env_ok _ _ -> _ -> env_ok _ _ |- _ => apply IH end.
    + pose proof (linearize_ok M fml _ Hok) as L.
      assert (Hf : eval_bool M fml = true).
      { destruct Hok as [_ _ _ Hf]. simpl in Hf. inversion Hf; assumption. }
      specialize (L Hf). apply env_ok_tail in L. exact L.
    + destruct (fst (linearize M fml _)); [exact Hk|].
      apply Forall_app. split; [exact Hk|].
      destruct Hok as [_ _ _ Hf]. simpl in Hf. inversion Hf; subst.
      constructor; [assumption | constructor].
Qed.

Lemma add_term_ok (M : model) (v : expr) (st : lin_env) :
  env_ok M st -> map_find v (tids st) = None ->
  env_ok M (snd (add_term M v st)).
Proof. intros Hok F. exact (env_ok_add_var M st v (is_int v) Hok F). Qed.

Lemma register_vars_ok (M : model) (vars : list expr) :
  forall st, env_ok M st -> env_ok M (register_vars M vars st).
Proof.
  unfold register_vars. induction vars as [|v vars IH]; intros st Hok;
    [exact Hok|].
  simpl fold_left. apply IH.
  destruct (is_arith v); [|exact Hok]. unfold map_contains.
  destruct (map_find v (tids st)) eqn:F; [exact Hok|].
  simpl. apply add_term_ok; assumption.
Qed.

(** ** The reverse map *)

Lemma get_expr_slot (l : list (option expr)) (j : nat) :
  get_expr l j = match slot l j with Some e => e | None => EFalse end.
Proof.
  unfold get_expr, slot. destruct (nth_error l j) as [[e|]|]; reflexivity.
Qed.

Lemma slot_setx (i : nat) (e : expr) :
  forall l j, slot (setx i e l) j = if Nat.eqb i j then Some e else slot l j.
Proof.
  unfold slot. induction i as [|i IH]; intros [|x l] [|j]; simpl;
    try reflexivity.
  - destruct j; reflexivity.
  - rewrite IH. destruct (Nat.eqb i j); [reflexivity|]. destruct j; reflexivity.
  - apply IH.
Qed.

Lemma build_slot_inv (ids : obj_map nat) :
  forall acc id e,
    slot (fold_left (fun i2e (p : expr * nat) => setx (snd p) (fst p) i2e) ids acc) id
      = Some e ->
    In (e, id) ids \/ slot acc id = Some e.
Proof.
  induction ids as [|[k n] ids IH]; intros acc id e; simpl; [auto|].
  intro H. apply IH in H. destruct H as [H|H]; [auto|].
  rewrite slot_setx in H. simpl in H. destruct (Nat.eqb n id) eqn:E.
  - apply Nat.eqb_eq in E. subst. injection H as ->. auto.
  - auto.
Qed.

Lemma build_slot_some (ids : obj_map nat) :
  forall acc id,
    (exists e, In (e, id) ids) \/ (exists e, slot acc id = Some e) ->
    exists e, slot (fold_left (fun i2e (p : expr * nat) =>
                                 setx (snd p) (fst p) i2e) ids acc) id = Some e.
Proof.
  induction ids as [|[k n] ids IH]; intros acc id; simpl.
  - intros [[e []]|H]. exact H.
  - intros [[e [[= -> ->]|H]]|[e H]]; apply IH.
    + right. exists e. rewrite slot_setx. simpl. rewrite Nat.eqb_refl.
      reflexivity.
    + left. exists e. exact H.
    + right. rewrite slot_setx. simpl. destruct (Nat.eqb n id); eauto.
Qed.

(** Under the invariant, the term [index2expr] gives for a registered id has
    the value the engine was seeded with for that id. *)
Lemma index2expr_value (M : model) (st : lin_env) (id : nat) :
  env_ok M st ->
  (id < List.length (m_var2value (mbo st)))%nat ->
  eval_num M (get_expr (build_index2expr (tids st)) id)
  = nth id (m_var2value (mbo st)) 0.
Proof.
  intros Hok Hlt. destruct (ok_cover M st Hok id Hlt) as [e He].
  destruct (build_slot_some (tids st) [] id) as [e' S]; [left; eauto|].
  rewrite get_expr_slot. unfold build_index2expr. rewrite S.
  apply build_slot_inv in S. destruct S as [S|S].
  - symmetry. apply nth_error_nth. apply (ok_tids M st Hok). exact S.
  - unfold slot in S. destruct id; discriminate S.
Qed.

(** ** Lifting is faithful *)

Lemma eqb_transfer_r (a b x : Qc) : x = b - a -> Qc_eqb x 0 = Qc_eqb a b.
Proof.
  intros ->. apply Bool.eq_true_iff_eq. rewrite !Qc_eqb_eq. split; intro H.
  - replace a with (b - (b - a)) by ring. rewrite H. ring.
  - subst. ring.
Qed.

Lemma is_arith_Num (q : Qc) (i : bool) : is_arith (Num q i) = true.
Proof. destruct i; reflexivity. Qed.

Lemma eval_bool_ELt (M : model) (a b : expr) :
  eval_bool M (ELt a b) = Qc_ltb (eval_num M a) (eval_num M b).
Proof. reflexivity. Qed.

Lemma eval_bool_EGt (M : model) (a b : expr) :
  eval_bool M (EGt a b) = Qc_ltb (eval_num M b) (eval_num M a).
Proof. reflexivity. Qed.

Lemma eval_bool_ELe (M : model) (a b : expr) :
  eval_bool M (ELe a b) = negb (Qc_ltb (eval_num M b) (eval_num M a)).
Proof. reflexivity. Qed.

Lemma eval_bool_EGe (M : model) (a b : expr) :
  eval_bool M (EGe a b) = negb (Qc_ltb (eval_num M a) (eval_num M b)).
Proof. reflexivity. Qed.

Lemma eval_bool_EEq_Num (M : model) (a : expr) (q : Qc) (i : bool) :
  eval_bool M (EEq a (Num q i)) = Qc_eqb (eval_num M a) q.
Proof.
  unfold eval_bool. simpl. rewrite is_arith_Num, Bool.orb_true_r. reflexivity.
Qed.

Lemma eval_bool_mod_zero (M : model) (a : expr) (m : Qc) :
  eval_bool M (EEq (Mod a (Num m true)) (Num 0 true))
  = Qc_eqb (Qc_mod (eval_num M a) m) 0.
Proof. rewrite eval_bool_EEq_Num. reflexivity. Qed.

Lemma eval_num_Sub (M : model) (a b : expr) :
  eval_num M (Sub a b) = eval_num M a - eval_num M b.
Proof. reflexivity. Qed.

Section Lifting.

Variable M : model.
Variable index2expr : list (option expr).
Variable vals : list Qc.

Lemma lift_var_eval (v : var) :
  eval_num M (get_expr index2expr (m_id v)) = nth (m_id v) vals 0 ->
  eval_num M (lift_var index2expr v) = var_value vals v.
Proof.
  intro H. unfold lift_var, var_value.
  destruct (Qc_eqb (m_coeff v) 1) eqn:E.
  - apply Qc_eqb_eq in E. rewrite E, H. ring.
  - unfold eval_num in *. simpl. rewrite H. ring.
Qed.

Lemma lift_vars_sum (vs : list var) :
  Forall (fun v => eval_num M (get_expr index2expr (m_id v)) = nth (m_id v) vals 0) vs ->
  sum_Qc (map (fun x => num_of (eval M x)) (map (lift_var index2expr) vs))
  = sum_Qc (map (var_value vals) vs).
Proof.
  induction 1 as [|v vs Hv _ IH]; simpl; [reflexivity|].
  rewrite IH. fold (eval_num M (lift_var index2expr v)).
  rewrite (lift_var_eval v Hv). reflexivity.
Qed.

Lemma lift_sum_eval (r : row) :
  row_mapped M index2expr vals r ->
  eval_num M (lift_sum index2expr r) = sum_Qc (map (var_value vals) (m_vars r)).
Proof.
  intro Hm. rewrite <- (lift_vars_sum _ Hm). unfold lift_sum.
  destruct (map (lift_var index2expr) (m_vars r)) as [|t0 [|t1 ts']];
    try reflexivity.
  unfold eval_num. simpl. ring.
Qed.

Lemma lift_general_sound (r : row) :
  row_mapped M index2expr vals r ->
  eval_bool M (lift_general index2expr r) = row_holds vals r.
Proof.
  intro Hm. unfold lift_general, row_holds, row_sum.
  set (s := lift_rhs index2expr r).
  set (t := lift_sum index2expr r).
  assert (Ht : eval_num M t = sum_Qc (map (var_value vals) (m_vars r)))
    by (apply lift_sum_eval; exact Hm).
  assert (Hs : eval_num M s = - m_const r) by reflexivity.
  unfold sum_holds. destruct (m_type r).
  - subst s. unfold lift_rhs. rewrite eval_bool_EEq_Num, Ht. symmetry.
    apply eqb_transfer. ring.
  - rewrite eval_bool_ELt, Ht, Hs. symmetry. apply ltb_transfer. ring.
  - rewrite eval_bool_ELe, Ht, Hs. f_equal. symmetry. apply ltb_transfer_r. ring.
  - rewrite eval_bool_mod_zero. f_equal. f_equal.
    destruct (Qc_eqb (m_const r) 0) eqn:C.
    + apply Qc_eqb_eq in C. rewrite Ht, C. ring.
    + rewrite eval_num_Sub, Ht, Hs. ring.
Qed.

Lemma lift_unit_sound (v : var) (r : row) :
  m_vars r = [v] ->
  m_type r <> t_mod ->
  row_mapped M index2expr vals r ->
  eval_bool M (lift_unit index2expr v r) = row_holds vals r.
Proof.
  intros Hv Hty Hm. unfold row_mapped in Hm. rewrite Hv in Hm.
  inversion Hm as [|? ? Hx _]; subst.
  unfold lift_unit, row_holds, row_sum. rewrite Hv.
  set (x := get_expr index2expr (m_id v)) in *.
  set (t := if Qc_eqb (m_coeff v) (- (1)) then x
            else Mul [Num (- m_coeff v) (is_int x); x]).
  assert (Ht : eval_num M t = - m_coeff v * nth (m_id v) vals 0).
  { subst t. destruct (Qc_eqb (m_coeff v) (- (1))) eqn:E.
    - apply Qc_eqb_eq in E. rewrite E, Hx. ring.
    - unfold eval_num in *. simpl. rewrite Hx. ring. }
  assert (Hsum : sum_Qc (map (var_value vals) [v]) + m_const r
                 = m_coeff v * nth (m_id v) vals 0 + m_const r)
    by (unfold var_value; simpl; ring).
  rewrite Hsum. unfold sum_holds. destruct (m_type r); try congruence.
  - rewrite eval_bool_EEq_Num, Ht. symmetry. apply eqb_transfer_r. ring.
  - rewrite eval_bool_EGt, Ht. symmetry. apply ltb_transfer.
    unfold eval_num. simpl. ring.
  - rewrite eval_bool_EGe, Ht. f_equal. symmetry. apply ltb_transfer_r.
    unfold eval_num. simpl. ring.
Qed.

(** P6. A literal lifted from a row has in the model the truth value the row
    has under the seeds. *)
Lemma lift_row_sound (r : row) (lit : expr) :
  row_mapped M index2expr vals r ->
  In lit (lift_row index2expr r) ->
  eval_bool M lit = row_holds vals r.
Proof.
  intros Hm. unfold lift_row.
  destruct (m_vars r) as [|v [|v' vs]] eqn:V; simpl; [tauto| |].
  - destruct (Qc_is_neg (m_coeff v) && negb (is_t_mod (m_type r))) eqn:C.
    + apply andb_prop in C. destruct C as [_ C].
      intros [<-|[]]. apply lift_unit_sound; auto.
      intro E. rewrite E in C. discriminate C.
    + intros [<-|[]]. apply lift_general_sound; auto.
  - intros [<-|[]]. apply lift_general_sound; auto.
Qed.

End Lifting.

(** ** Preservation *)

Lemma drop_project_contract : project_contract drop_project.
Proof.
  intros vs o H. unfold rows_ok, get_live_rows, drop_project in *. simpl.
  apply Forall_forall. intros r Hr. apply filter_In in Hr.
  rewrite Forall_forall in H. apply H. tauto.
Qed.

Lemma project_state_ok (M : model) (vars fmls0 : list expr) :
  all_true M fmls0 -> env_ok M (project_state M vars fmls0).
Proof.
  intro H. unfold project_state. apply register_vars_ok.
  apply linearize_all_ok; [|constructor].
  constructor; simpl.
  - intros e id [].
  - intros id Hlt. inversion Hlt.
  - constructor.
  - exact H.
Qed.

(** C1. Preservation: with an engine whose projection keeps its rows true
    under the seeded model, and a model [M] that satisfies every literal of
    [L], after [project(M, V, L)] the model satisfies every literal of the
    new list: the residue and every literal lifted from a surviving row. *)
Theorem project_preserves_model :
  forall (mbo_project : list nat -> model_based_opt -> model_based_opt)
         (M : model) (vars fmls0 : list expr),
    project_contract mbo_project ->
    (forall l, In l fmls0 -> eval_bool M l = true) ->
    forall l, In l (snd (project mbo_project M vars fmls0)) ->
              eval_bool M l = true.
Proof.
  intros mbo_project M vars fmls0 Hc H0 l. unfold project.
  destruct (negb (existsb is_arith vars)); simpl; [apply H0|].
  assert (Hok : env_ok M (project_state M vars fmls0))
    by (apply project_state_ok, Forall_forall, H0).
  set (st := project_state M vars fmls0) in *.
  intro Hl. apply in_app_or in Hl. destruct Hl as [Hl|Hl].
  - pose proof (ok_fmls M st Hok) as Hf. rewrite Forall_forall in Hf.
    apply Hf. exact Hl.
  - apply in_flat_map in Hl. destruct Hl as [r [Hr Hl]].
    pose proof (Hc (project_real_vars vars st) (mbo st) (ok_rows M st Hok)) as Hrows.
    unfold rows_ok in Hrows. rewrite Forall_forall in Hrows.
    destruct (Hrows r Hr) as [Hwf Hh].
    rewrite (lift_row_sound M (build_index2expr (tids st))
               (m_var2value (mbo st)) r l); [exact Hh | | exact Hl].
    unfold row_mapped. unfold row_wf in Hwf.
    eapply Forall_impl; [|exact Hwf]. simpl. intros v Hv.
    apply index2expr_value; assumption.
Qed.

Lemma project_preserves_model_witness :
  forallb (eval_bool example_model) example_project_fmls = true /\
  forall l,
    In l (snd (project drop_project example_model example_project_vars
                 example_project_fmls)) ->
    eval_bool example_model l = true.
Proof.
  split; [vm_compute; reflexivity|].
  apply (project_preserves_model drop_project example_model example_project_vars
           example_project_fmls drop_project_contract).
  intros l Hl.
  assert (F : forallb (eval_bool example_model) example_project_fmls = true)
    by (vm_compute; reflexivity).
  rewrite forallb_forall in F. apply F. exact Hl.
Defined.

(** ** Zero coefficients are not submitted *)

Lemma env_le_refl (st : lin_env) : env_le st st.
Proof. split; [exists []; rewrite app_nil_r; reflexivity | auto]. Qed.

Lemma env_le_trans (a b c : lin_env) : env_le a b -> env_le b c -> env_le a c.
Proof.
  intros [[m1 E1] F1] [[m2 E2] F2]. split.
  - exists (m1 ++ m2). rewrite E2, E1, app_assoc. reflexivity.
  - auto.
Qed.

Lemma find_or_add_spec (M : model) (v : expr) (st : lin_env) :
  env_le st (snd (find_or_add M v st)) /\
  map_find v (tids (snd (find_or_add M v st))) = Some (fst (find_or_add M v st)) /\
  m_rows (mbo (snd (find_or_add M v st))) = m_rows (mbo st) /\
  m_objective (mbo (snd (find_or_add M v st))) = m_objective (mbo st) /\
  (map_find v (tids st) = None ->
     fst (find_or_add M v st) = List.length (m_var2value (mbo st)) /\
     m_var2value (mbo (snd (find_or_add M v st)))
       = m_var2value (mbo st) ++ [eval_num M v] /\
     m_var2is_int (mbo (snd (find_or_add M v st)))
       = m_var2is_int (mbo st) ++ [is_int v]) /\
  (forall e, e <> v ->
     map_find e (tids (snd (find_or_add M v st))) = map_find e (tids st)).
Proof.
  unfold find_or_add. destruct (map_find v (tids st)) as [id|] eqn:F; simpl.
  - split; [apply env_le_refl|]. split; [exact F|]. split; [reflexivity|].
    split; [reflexivity|]. split; [discriminate | reflexivity].
  - split.
    { split; simpl; [eexists; reflexivity|].
      intros e id H. rewrite (map_insert_absent _ _ _ F), map_find_app, H.
      reflexivity. }
    split; [apply map_find_insert_same|]. split; [reflexivity|].
    split; [reflexivity|]. split; [auto|].
    intros e Hne. rewrite (map_insert_absent _ _ _ F), map_find_app.
    destruct (map_find e (tids st)); [reflexivity|]. simpl.
    destruct (expr_eqb e v) eqn:E; [|reflexivity].
    apply expr_eqb_eq in E. contradiction.
Qed.

Lemma extract_coefficients_le (M : model) (ts : obj_map Qc) :
  forall st,
    env_le st (snd (extract_coefficients M ts st)) /\
    m_rows (mbo (snd (extract_coefficients M ts st))) = m_rows (mbo st) /\
    m_objective (mbo (snd (extract_coefficients M ts st))) = m_objective (mbo st).
Proof.
  induction ts as [|[v q] ts IH]; intro st; simpl.
  - split; [apply env_le_refl | auto].
  - destruct (find_or_add_spec M v st) as [L [_ [R [O _]]]].
    destruct (find_or_add M v st) as [id st1]. simpl in *.
    destruct (IH st1) as [L2 [R2 O2]].
    destruct (extract_coefficients M ts st1) as [coeffs st2]. simpl in *.
    split; [eapply env_le_trans; eassumption|]. split; congruence.
Qed.

Lemma extract_coefficients_coeffs (M : model) (ts : obj_map Qc) :
  forall st,
    map m_coeff (fst (extract_coefficients M ts st))
    = filter (fun q => negb (Qc_eqb q 0)) (map snd ts).
Proof.
  induction ts as [|[v q] ts IH]; intro st; simpl; [reflexivity|].
  destruct (find_or_add M v st) as [id st1]. specialize (IH st1).
  destruct (extract_coefficients M ts st1) as [coeffs st2]. simpl in *.
  destruct (Qc_eqb q 0); simpl; congruence.
Qed.

Lemma extract_coefficients_nonzero (M : model) (ts : obj_map Qc) (st : lin_env) :
  coeffs_nonzero (fst (extract_coefficients M ts st)).
Proof.
  unfold coeffs_nonzero. rewrite <- Forall_map with (f := m_coeff) (P := fun q => q <> 0).
  rewrite extract_coefficients_coeffs. apply Forall_forall.
  intros q H. apply filter_In in H. destruct H as [_ H].
  apply Bool.negb_true_iff, Qc_eqb_neq in H. exact H.
Qed.

Lemma extract_coefficients_registers (M : model) (ts : obj_map Qc) :
  forall st e q, In (e, q) ts ->
    exists id,
      map_find e (tids (snd (extract_coefficients M ts st))) = Some id /\
      (map_find e (tids st) = None ->
         (List.length (m_var2value (mbo st)) <= id)%nat /\
         nth_error (m_var2value (mbo (snd (extract_coefficients M ts st)))) id
           = Some (eval_num M e)).
Proof.
  induction ts as [|[v c] ts IH]; intros st e q Hin; [destruct Hin|].
  simpl extract_coefficients.
  destruct (find_or_add_spec M v st) as [L1 [F1 [_ [_ [N1 D1]]]]].
  destruct (find_or_add M v st) as [id st1]. simpl in L1, F1, N1, D1.
  pose proof (extract_coefficients_le M ts st1) as [L2 _].
  assert (Hv : exists id0,
             map_find v (tids (snd (extract_coefficients M ts st1))) = Some id0 /\
             (map_find v (tids st) = None ->
                (List.length (m_var2value (mbo st)) <= id0)%nat /\
                nth_error (m_var2value (mbo (snd (extract_coefficients M ts st1)))) id0
                  = Some (eval_num M v))).
  { exists id. split; [apply L2, F1|]. intro F. destruct (N1 F) as [-> [V _]].
    split; [lia|]. destruct L2 as [[more E] _]. rewrite E, V.
    rewrite nth_error_app1 by (rewrite length_app; simpl; lia).
    rewrite nth_error_app2 by lia. rewrite Nat.sub_diag. reflexivity. }
  destruct Hin as [[= -> ->]|Hin].
  - destruct (extract_coefficients M ts st1) as [coeffs st2]. simpl in *.
    exact Hv.
  - destruct (IH st1 e q Hin) as [id' [F' N']].
    destruct (map_find e (tids st1)) as [id1|] eqn:F1'.
    + (* [e] has an id after this step: it had one before, or it is [v] *)
      destruct (map_find e (tids st)) as [id0|] eqn:F0.
      * destruct (extract_coefficients M ts st1) as [coeffs st2]. simpl in *.
        exists id'. split; [exact F'|discriminate].
      * assert (e = v) as ->.
        { destruct (expr_eqb e v) eqn:E; [apply expr_eqb_eq, E|].
          exfalso. assert (Hne : e <> v)
            by (intros ->; rewrite expr_eqb_refl in E; discriminate).
          rewrite (D1 e Hne) in F1'. congruence. }
        destruct (extract_coefficients M ts st1) as [coeffs st2]. simpl in *.
        destruct Hv as [id0 [Hv1 Hv2]]. exists id0. split; [exact Hv1|].
        intros _. apply Hv2. exact F0.
    + destruct (extract_coefficients M ts st1) as [coeffs st2]. simpl in *.
      exists id'. split; [exact F'|]. intros _.
      destruct (N' eq_refl) as [A B]. split; [|exact B].
      destruct L1 as [[more E] _]. rewrite E, length_app in A. lia.
Qed.

Lemma engine_nonzero_eq (o o' : model_based_opt) :
  m_rows o' = m_rows o -> m_objective o' = m_objective o ->
  engine_nonzero o -> engine_nonzero o'.
Proof. unfold engine_nonzero. intros -> ->. auto. Qed.

Lemma engine_nonzero_add_row (o : model_based_opt) (r : row) :
  engine_nonzero o -> coeffs_nonzero (m_vars r) -> engine_nonzero (add_row r o).
Proof.
  intros [R O] H. split; simpl; [|exact O].
  apply Forall_app. split; [exact R|]. constructor; [exact H | constructor].
Qed.

Lemma extract_coefficients_engine (M : model) (ts : obj_map Qc) (st : lin_env) :
  engine_nonzero (mbo st) ->
  engine_nonzero (mbo (snd (extract_coefficients M ts st))).
Proof.
  destruct (extract_coefficients_le M ts st) as [_ [R O]].
  apply engine_nonzero_eq; assumption.
Qed.

Lemma linearize_term_nonzero (M : model) (t : expr) :
  forall mul a st, engine_nonzero (mbo st) ->
    engine_nonzero (mbo (snd (linearize_term M mul t a st))).
Proof.
  induction t as [q i | f s args IH | args IH | args IH | t1 IH1 t2 IH2 | t1 IH1
                 | t1 IH1 t2 IH2 | t1 IH1 t2 IH2 t3 IH3
                 | e1 IH1 e2 IH2 | e1 IH1 e2 IH2 | e1 IH1 e2 IH2 | e1 IH1 e2 IH2
                 | e1 IH1 e2 IH2 | args IH | e IH | | ] using expr_induct;
    intros mul a st Hok; try exact Hok.
  - (* Add *)
    simpl linearize_term.
    assert (G : forall p, engine_nonzero (mbo (snd p)) ->
      engine_nonzero (mbo (snd (fold_left (fun (p : lin_acc * lin_env) ti =>
                 linearize_term M mul ti (fst p) (snd p)) args p)))).
    { induction IH as [|x l Hx _ IHl]; intros p Hp; [exact Hp|].
      simpl fold_left. apply IHl, Hx, Hp. }
    apply (G (a, st) Hok).
  - (* Mul *)
    destruct args as [|t1 [|t2 [|t3 args]]]; try exact Hok.
    inversion IH as [|? ? H1 IH']; subst. inversion IH' as [|? ? H2 _]; subst.
    simpl linearize_term.
    destruct (is_numeral t1); [apply H2, Hok|].
    destruct (is_numeral t2); [apply H1, Hok | exact Hok].
  - (* Sub *)
    simpl linearize_term. specialize (IH1 mul a st Hok).
    destruct (linearize_term M mul t1 a st) as [a1 st1]. apply IH2, IH1.
  - (* Uminus *)
    simpl linearize_term. apply IH1, Hok.
  - (* Mod *)
    simpl linearize_term. destruct (is_numeral t2) as [k|]; [|exact Hok].
    specialize (IH1 1 {| acc_c := - eval_num M (Mod t1 t2); acc_ts := [] |} st Hok).
    destruct (linearize_term M 1 t1 _ st) as [a0 st0]. simpl in IH1.
    pose proof (extract_coefficients_engine M (acc_ts a0) st0 IH1) as E.
    pose proof (extract_coefficients_nonzero M (acc_ts a0) st0) as N.
    destruct (extract_coefficients M (acc_ts a0) st0) as [coeffs st1].
    simpl in *. apply engine_nonzero_add_row; assumption.
  - (* Ite *)
    simpl linearize_term. destruct (eval_bool M t1).
    + specialize (IH2 mul a st Hok).
      destruct (linearize_term M mul t2 a st) as [a1 st1]. exact IH2.
    + apply IH3. exact Hok.
Qed.

Lemma pair_submit_nonzero (M : model) mul e1 e2 ty st :
  engine_nonzero (mbo st) ->
  engine_nonzero (mbo (snd (let '(a, st1) := linearize_pair M mul e1 e2 acc_empty st in
                            submit_row M a ty st1))).
Proof.
  intro H. unfold linearize_pair.
  pose proof (linearize_term_nonzero M e1 mul acc_empty st H) as H1.
  destruct (linearize_term M mul e1 acc_empty st) as [a1 st1].
  pose proof (linearize_term_nonzero M e2 (- mul) a1 st1 H1) as H2.
  destruct (linearize_term M (- mul) e2 a1 st1) as [a2 st2].
  unfold submit_row.
  pose proof (extract_coefficients_engine M (acc_ts a2) st2 H2) as E.
  pose proof (extract_coefficients_nonzero M (acc_ts a2) st2) as N.
  destruct (extract_coefficients M (acc_ts a2) st2) as [coeffs st3].
  simpl in *. apply engine_nonzero_add_row; assumption.
Qed.

Lemma linearize_chain_nonzero (M : model) rec nums :
  forall st, engine_nonzero (mbo st) ->
    engine_nonzero (mbo (snd (linearize_chain (linearize_body rec M) nums st))).
Proof.
  induction nums as [|x [|y rest] IH]; intros st H; try exact H.
  rewrite linearize_chain_cons, linearize_body_lt.
  pose proof (pair_submit_nonzero M 1 (fst x) (fst y) t_lt st H) as A.
  destruct (linearize_pair M 1 (fst x) (fst y) acc_empty st) as [a st1].
  pose proof (submit_row_true M a t_lt st1) as T.
  destruct (submit_row M a t_lt st1) as [ok st2]. simpl in T, A. subst ok.
  apply IH, A.
Qed.

Lemma linearize_nonzero (M : model) (lit : expr) (st : lin_env) :
  engine_nonzero (mbo st) -> engine_nonzero (mbo (snd (linearize M lit st))).
Proof.
  intro H. unfold linearize.
  set (r := linearize_body (fun _ st' => (false, st')) M).
  assert (E : engine_nonzero (mbo (snd (submit_row M acc_empty t_le st)))).
  { unfold submit_row. simpl. apply engine_nonzero_add_row; [exact H|constructor]. }
  unfold linearize_body.
  destruct lit as [ | | | | | | | | e1 e2 | e1 e2 | e1 e2 | e1 e2 | e1 e2
                  | args | lit | | ]; try exact H;
    try (apply pair_submit_nonzero; exact H).
  - destruct (is_arith e1); [apply pair_submit_nonzero; exact H | exact H].
  - destruct args as [|arg0 args]; [exact H|].
    destruct (is_arith arg0); [|exact H].
    subst r. apply linearize_chain_nonzero, H.
  - destruct lit as [ | | | | | | | | e1 e2 | e1 e2 | e1 e2 | e1 e2 | e1 e2
                    | args | lit | | ]; try exact H;
      try (apply pair_submit_nonzero; exact H).
    + destruct (is_arith e1); [|exact H].
      destruct (neq_sides M e1 e2). apply pair_submit_nonzero; exact H.
    + destruct args as [|arg0 args]; [exact H|].
      destruct (is_arith arg0); [|exact H].
      destruct (find_eq M (arg0 :: args) []) as [[arg1 arg2]|];
        [apply pair_submit_nonzero; exact H | exact E].
Qed.

Lemma linearize_all_nonzero (M : model) (kept pending : list expr)
  (o : model_based_opt) (ids : obj_map nat) :
  engine_nonzero o -> engine_nonzero (mbo (linearize_all M kept pending o ids)).
Proof.
  funelim (linearize_all M kept pending o ids); intro Ho; [exact Ho|].
  match goal with IH : engine_nonzero _ -> _ |- _ => apply IH end.
  apply (linearize_nonzero M fml {| mbo := o; fmls := fml :: rest; tids := ids |} Ho).
Qed.

Lemma register_vars_rows (M : model) (vars : list expr) :
  forall st,
    m_rows (mbo (register_vars M vars st)) = m_rows (mbo st) /\
    m_objective (mbo (register_vars M vars st)) = m_objective (mbo st).
Proof.
  unfold register_vars. induction vars as [|v vars IH]; intro st; [auto|].
  cbn [fold_left].
  match goal with |- context [fold_left _ vars ?s] => destruct (IH s) as [R O] end.
  rewrite R, O. destruct (is_arith v && negb (map_contains v (tids st)));
    split; reflexivity.
Qed.

Lemma engine_nonzero_empty : engine_nonzero mbo_empty.
Proof. split; constructor. Qed.

(** C9. The coefficient extractor pushes exactly the non-zero coefficients
    of the map, in its order, so the vector it returns has no zero entry;
    every term it walks has an id afterwards, also one with a zero
    coefficient, and a term that had none gets a fresh id whose seed is the
    model value of the term.  Hence no row and no objective that the two
    drivers hand to the engine has a zero coefficient. *)
Theorem extract_coefficients_skips_zero :
  forall (M : model) (ts : obj_map Qc) (st : lin_env),
    let r := extract_coefficients M ts st in
    coeffs_nonzero (fst r) /\
    map m_coeff (fst r) = filter (fun q => negb (Qc_eqb q 0)) (map snd ts) /\
    (forall e q, In (e, q) ts ->
       exists id,
         map_find e (tids (snd r)) = Some id /\
         (map_find e (tids st) = None ->
            (List.length (m_var2value (mbo st)) <= id)%nat /\
            nth_error (m_var2value (mbo (snd r))) id = Some (eval_num M e))) /\
    (forall vars fmls0, engine_nonzero (mbo (project_state M vars fmls0))) /\
    (forall fmls0 t, engine_nonzero (mbo (maximize_state M fmls0 t))).
Proof.
  intros M ts st r. subst r.
  split; [apply extract_coefficients_nonzero|].
  split; [apply extract_coefficients_coeffs|].
  split; [apply extract_coefficients_registers|].
  split.
  - intros vars fmls0. unfold project_state.
    destruct (register_vars_rows M vars (linearize_all M [] fmls0 mbo_empty []))
      as [R O].
    apply (engine_nonzero_eq _ _ R O).
    apply linearize_all_nonzero, engine_nonzero_empty.
  - intros fmls0 t. unfold maximize_state.
    pose proof (linearize_term_nonzero M t 1 acc_empty
                  {| mbo := mbo_empty; fmls := fmls0; tids := [] |}
                  engine_nonzero_empty) as H1.
    destruct (linearize_term M 1 t acc_empty _) as [a st1]. simpl in H1.
    pose proof (extract_coefficients_engine M (acc_ts a) st1 H1) as [R _].
    pose proof (extract_coefficients_nonzero M (acc_ts a) st1) as N.
    destruct (extract_coefficients M (acc_ts a) st1) as [coeffs st2].
    simpl in *. apply linearize_all_nonzero. split; simpl; assumption.
Qed.

(** ** The recursive call of the literal linearizer, and [distinct] *)

Lemma linearize_lt (M : model) (x y : expr) (st : lin_env) :
  linearize M (ELt x y) st
  = let '(a, st1) := linearize_pair M 1 x y acc_empty st in
    submit_row M a t_lt st1.
Proof. reflexivity. Qed.

Lemma linearize_chain_ext (rec1 rec2 : expr -> lin_env -> bool * lin_env) nums :
  (forall x y st, rec1 (ELt x y) st = rec2 (ELt x y) st) ->
  forall st, linearize_chain rec1 nums st = linearize_chain rec2 nums st.
Proof.
  intro H. induction nums as [|x [|y rest] IH]; intro st; try reflexivity.
  rewrite !linearize_chain_cons, H.
  destruct (rec2 (ELt (fst x) (fst y)) st) as [[|] st1]; [apply IH | reflexivity].
Qed.

(** The embedding of [imp::linearize] satisfies the recursive equation of
    the source: it is its body, called with itself for the recursive call. *)
Lemma linearize_unfold (M : model) (lit : expr) (st : lin_env) :
  linearize M lit st = linearize_body (linearize M) M lit st.
Proof.
  unfold linearize at 1.
  set (r := linearize_body (fun _ st' => (false, st')) M).
  assert (E : forall x y st', r (ELt x y) st' = linearize M (ELt x y) st')
    by reflexivity.
  unfold linearize_body.
  destruct lit as [ | | | | | | | | e1 e2 | e1 e2 | e1 e2 | e1 e2 | e1 e2
                  | args | lit | | ]; try reflexivity.
  destruct args as [|arg0 args]; [reflexivity|].
  destruct (is_arith arg0); [|reflexivity].
  apply linearize_chain_ext. exact E.
Qed.

Lemma consecutive_lt_nth (l : list expr) :
  List.length (consecutive_lt l) = pred (List.length l) /\
  forall i x y,
    nth_error l i = Some x -> nth_error l (S i) = Some y ->
    nth_error (consecutive_lt l) i = Some (ELt x y).
Proof.
  induction l as [|a [|b rest] IH].
  - split; [reflexivity|]. intros [|i] x y H; discriminate H.
  - split; [reflexivity|]. intros [|i] x y H1 H2; [discriminate H2|].
    destruct i; discriminate H1.
  - destruct IH as [IHl IHn].
    change (consecutive_lt (a :: b :: rest))
      with (ELt a b :: consecutive_lt (b :: rest)).
    split; [simpl List.length in *; rewrite IHl; reflexivity|].
    intros [|i] x y H1 H2.
    + simpl in H1, H2. injection H1 as <-. injection H2 as <-. reflexivity.
    + apply (IHn i x y H1 H2).
Qed.

Lemma consecutive_lt_true (M : model) (nums : list (expr * Qc)) :
  Sorted lt_second nums ->
  Forall (fun p => snd p = eval_num M (fst p)) nums ->
  Forall (fun l => eval_bool M l = true) (consecutive_lt (map fst nums)).
Proof.
  induction nums as [|x [|y rest] IH]; intros Hs Hv;
    try (constructor; fail).
  change (consecutive_lt (map fst (x :: y :: rest)))
    with (ELt (fst x) (fst y) :: consecutive_lt (map fst (y :: rest))).
  inversion Hs as [|? ? Hs' Hd]; subst. inversion Hv as [|? ? Hx Hv']; subst.
  constructor; [|apply IH; assumption].
  inversion Hd as [|? ? Hlt]; subst. inversion Hv' as [|? ? Hy _]; subst.
  rewrite eval_bool_ELt. unfold lt_second in Hlt. rewrite Hx, Hy in Hlt.
  apply Qc_ltb_lt. exact Hlt.
Qed.

Lemma linearize_chain_fold (M : model) rec (nums : list (expr * Qc)) :
  forall st,
    linearize_chain (linearize_body rec M) nums st
    = (true,
       fold_left (fun st' l => snd (linearize M l st'))
         (consecutive_lt (map fst nums)) st).
Proof.
  induction nums as [|x [|y rest] IH]; intro st; try reflexivity.
  rewrite linearize_chain_cons, linearize_body_lt.
  change (consecutive_lt (map fst (x :: y :: rest)))
    with (ELt (fst x) (fst y) :: consecutive_lt (map fst (y :: rest))).
  cbn [fold_left]. rewrite linearize_lt.
  destruct (linearize_pair M 1 (fst x) (fst y) acc_empty st) as [a st1].
  pose proof (submit_row_true M a t_lt st1) as T.
  destruct (submit_row M a t_lt st1) as [ok st2]. simpl in T. subst ok.
  cbn [snd]. apply IH.
Qed.

(** ** Divisibility rows *)

Lemma env_ok_start (M : model) (fmls0 : list expr) :
  all_true M fmls0 ->
  env_ok M {| mbo := mbo_empty; fmls := fmls0; tids := [] |}.
Proof.
  intro H. constructor; simpl.
  - intros e id [].
  - intros id Hlt. inversion Hlt.
  - constructor.
  - exact H.
Qed.



(** ** Variables that occur in the residue *)

(** C4, the code at a failing input. With [V = {x}], [L = {p(x), x <= 5}] and
    a model with [x = 4] in which [p] holds, the driver marks the residue
    literal [p(x)] but not its sub-term [x]; so [x] is not found marked, its
    id is handed to the engine, and [x] leaves the vector of variables,
    while the literal [p(x)], which mentions [x], stays in the output.  This
    holds whatever the engine does. *)
Theorem project_eliminates_variable_of_residue :
  forall (mbo_project : list nat -> model_based_opt -> model_based_opt),
    let st := project_state example_model example_project_vars example_scope_fmls in
    forallb (eval_bool example_model) example_scope_fmls = true /\
    fmls st = [App "p" SBool [int_const "x"]] /\
    is_marked (App "p" SBool [int_const "x"])
      (project_marks example_project_vars st) = true /\
    is_marked (int_const "x") (project_marks example_project_vars st) = false /\
    project_real_vars example_project_vars st = [0%nat] /\
    map_find (int_const "x") (tids st) = Some 0%nat /\
    fst (project mbo_project example_model example_project_vars example_scope_fmls)
      = [] /\
    In (App "p" SBool [int_const "x"])
       (snd (project mbo_project example_model example_project_vars
               example_scope_fmls)).
Proof.
  intros mbo_project st.
  assert (E : fmls st = [App "p" SBool [int_const "x"]])
    by (vm_compute; reflexivity).
  split; [vm_compute; reflexivity|].
  split; [exact E|].
  split; [vm_compute; reflexivity|].
  split; [vm_compute; reflexivity|].
  split; [vm_compute; reflexivity|].
  split; [vm_compute; reflexivity|].
  unfold project. simpl negb. cbv iota. simpl fst. simpl snd. fold st.
  split; [vm_compute; reflexivity|].
  apply in_or_app. left. rewrite E. left. reflexivity.
Qed.

(** ** The drivers on concrete inputs *)

(** Eliminating [x] from the example literals with the dropping engine: the
    residue [p(y)] stays, and the guard [y > 0], committed while walking the
    conditional, comes back as a lifted unit row. *)
Example project_example :
  project drop_project example_model example_project_vars example_project_fmls
  = ([], [App "p" SBool [int_const "y"]; EGt (int_const "y") (int_num 0)]).
Proof. vm_compute. reflexivity. Qed.

(** A divisibility row that survives is lifted to [(y - 2) mod 3 = 0]. *)
Example project_mod_example :
  project drop_project example_model example_project_vars example_mod_fmls
  = ([], [EEq (Mod (Sub (int_const "y") (int_num 2)) (int_num 3)) (int_num 0)]).
Proof. vm_compute. reflexivity. Qed.

(** A variable under a product of two variables is kept: the product is an
    engine term that is not a variable to eliminate, and its sub-terms are
    marked. *)
Example project_keeps_variable_of_product :
  project drop_project example_model example_project_vars
    [ELe (Mul [int_const "x"; int_const "y"]) (int_num 9)]
  = ([int_const "x"], [ELe (Mul [int_const "x"; int_const "y"]) (int_num 9)]).
Proof. vm_compute. reflexivity. Qed.

Example maximize_example_finite :
  let r := maximize
             (const_maximize {| get_infinity := 0; get_rational := Qc_of_Z 6;
                                get_infinitesimal := 0 |})
             [ELe (Add [real_const "x"; real_const "y"]) (real_num 10)]
             example_model (Add [real_const "x"; real_const "y"]) in
  res_ge r = EGe (Add [real_const "x"; real_const "y"]) (Num (Qc_of_Z 6) false) /\
  res_gt r = EGt (Add [real_const "x"; real_const "y"]) (Num (Qc_of_Z 6) false).
Proof. vm_compute. split; reflexivity. Qed.

Example maximize_example_unbounded :
  let r := maximize
             (const_maximize {| get_infinity := 1; get_rational := 0;
                                get_infinitesimal := 0 |})
             [] example_model (Add [real_const "x"; real_const "y"]) in
  res_ge r = EGe (Add [real_const "x"; real_const "y"]) (Num (Qc_of_Z 6) false) /\
  res_gt r = EFalse.
Proof. vm_compute. split; reflexivity. Qed.

(** ** The coefficient map *)

Lemma map_find_insert_other {V} (k k' : expr) (v : V) (m : obj_map V) :
  expr_eqb k' k = false ->
  map_find k' (map_insert k v m) = map_find k' m.
Proof.
  intro H. induction m as [|[k0 v0] m IH]; simpl.
  - rewrite H. reflexivity.
  - destruct (expr_eqb k k0) eqn:E; simpl.
    + apply expr_eqb_eq in E. subst k0. rewrite H. reflexivity.
    + destruct (expr_eqb k' k0); [reflexivity | exact IH].
Qed.

Lemma map_find_none_keys {V} (k : expr) (m : obj_map V) :
  map_find k m = None -> ~ In k (map fst m).
Proof.
  induction m as [|[k0 v0] m IH]; simpl; [tauto|].
  destruct (expr_eqb k k0) eqn:E; [discriminate|].
  intros H [->|I]; [rewrite expr_eqb_refl in E; discriminate | exact (IH H I)].
Qed.

Lemma map_insert_keys {V} (k : expr) (v : V) (m : obj_map V) :
  map fst (map_insert k v m)
  = match map_find k m with
    | Some _ => map fst m
    | None => map fst m ++ [k]
    end.
Proof.
  induction m as [|[k0 v0] m IH]; simpl; [reflexivity|].
  destruct (expr_eqb k k0) eqn:E; simpl; [reflexivity|].
  rewrite IH. destruct (map_find k m); reflexivity.
Qed.

(** X1. [insert_mul] adds [v] to the coefficient of [x]: afterwards [x] has
    its old coefficient plus [v] ([v] alone when it had none), every other
    term has the coefficient it had, the value of the map in any model has
    grown by [v * val x], and a map without a repeated key stays one. *)
Theorem insert_mul_lookup :
  forall (x y : expr) (v : Qc) (ts : obj_map Qc),
    map_find x (insert_mul x v ts)
      = Some (match map_find x ts with Some w => w + v | None => v end) /\
    (expr_eqb y x = false ->
       map_find y (insert_mul x v ts) = map_find y ts) /\
    (forall M, ts_val M (insert_mul x v ts) = ts_val M ts + v * eval_num M x) /\
    (NoDup (map fst ts) -> NoDup (map fst (insert_mul x v ts))).
Proof.
  intros x y v ts. split; [|split; [|split]].
  - unfold insert_mul. destruct (map_find x ts); apply map_find_insert_same.
  - intro H. unfold insert_mul.
    destruct (map_find x ts); apply map_find_insert_other; exact H.
  - intro M. apply ts_val_insert_mul.
  - intro N. unfold insert_mul. destruct (map_find x ts) as [w|] eqn:F;
      rewrite map_insert_keys, F; [exact N|].
    apply NoDup_app; [exact N | constructor; [tauto | constructor] |].
    intros a Ha [<-|[]]. exact (map_find_none_keys _ _ F Ha).
Qed.

(** ** Statically constant terms *)

Lemma is_numeral_nary_none (args : list expr) (a : expr) :
  In a args -> is_numeral a = None ->
  is_numeral (Mul args) = None /\ is_numeral (Add args) = None.
Proof.
  intros Hin Ha. simpl.
  assert (G : forall (op : Qc -> Qc -> Qc) r,
    (fix go (l : list expr) (r : Qc) : option Qc :=
       match l with
       | [] => Some r
       | x :: l' => match is_numeral x with
                    | Some r1 => go l' (op r r1)
                    | None => None
                    end
       end) args r = None).
  { intro op. induction args as [|x l IH]; intro r; [destruct Hin|].
    destruct Hin as [->|Hin].
    - rewrite Ha. reflexivity.
    - destruct (is_numeral x); [apply IH, Hin | reflexivity]. }
  split; [apply (G Qcmult) | apply (G Qcplus)].
Qed.

(** X2. A term that [is_numeral] recognises with value [k] evaluates to [k]
    in every model; an uninterpreted term is never recognised, and a product
    or sum with an argument that is not recognised is not recognised. *)
Theorem is_numeral_constant :
  forall (t : expr) (k : Qc),
    is_numeral t = Some k ->
    (forall M, eval_num M t = k) /\
    (forall f s args, t <> App f s args) /\
    (forall args a, In a args -> is_numeral a = None ->
                    t <> Mul args /\ t <> Add args).
Proof.
  intros t k H. split; [|split].
  - intro M. apply is_numeral_eval. exact H.
  - intros f s args ->. discriminate H.
  - intros args a Hin Ha.
    destruct (is_numeral_nary_none args a Hin Ha) as [Hm Hp].
    split; intros ->; congruence.
Qed.

Lemma is_numeral_constant_witness :
  eval_num example_model (Sub (Mul [int_num 2; int_num 3]) (Uminus (int_num 1)))
  = Qc_of_Z 7.
Proof.
  exact (proj1 (is_numeral_constant
                  (Sub (Mul [int_num 2; int_num 3]) (Uminus (int_num 1)))
                  (Qc_of_Z 7) ltac:(vm_compute; reflexivity)) example_model).
Defined.

(** ** The sign helper and the order of the sort *)

(** X3. [n_sign b] is [-1] for a positive [b] and [1] otherwise, so
    [n_sign b * b] is never positive: it is [- |b|]; and [n_sign b] is its
    own inverse. *)
Theorem n_sign_times :
  forall b : Qc,
    n_sign b * b = - Qc_abs b /\
    n_sign b * n_sign b = 1 /\
    n_sign b * b <= 0.
Proof.
  intro b.
  assert (A : n_sign b * b = - Qc_abs b).
  { unfold n_sign, Qc_abs.
    destruct (Qc_ltb 0 b) eqn:P; destruct (Qc_ltb b 0) eqn:Ng.
    - apply Qc_ltb_lt in P, Ng. exfalso.
      exact (Qclt_not_le _ _ P (Qclt_le_weak _ _ Ng)).
    - ring.
    - ring.
    - apply Qc_ltb_ge in P, Ng.
      assert (b = 0) as -> by (apply Qcle_antisym; assumption). ring. }
  split; [exact A|]. split.
  - unfold n_sign. destruct (Qc_ltb 0 b); ring.
  - rewrite A. unfold Qc_abs. destruct (Qc_ltb b 0) eqn:Ng.
    + apply Qc_ltb_lt in Ng. replace (- - b) with b by ring.
      apply Qclt_le_weak. exact Ng.
    + apply Qc_ltb_ge in Ng. apply Qcopp_le_compat in Ng.
      replace (- 0) with 0 in Ng by ring. exact Ng.
Qed.

(** X4. [compare_second] is a strict weak order, as [std::sort] needs: it is
    irreflexive and transitive, and two pairs neither of which is below the
    other have the same value. *)
Theorem compare_second_strict_weak :
  (forall a, compare_second a a = false) /\
  (forall a b c, compare_second a b = true -> compare_second b c = true ->
                 compare_second a c = true) /\
  (forall a b, compare_second a b = false -> compare_second b a = false ->
               snd a = snd b).
Proof.
  unfold compare_second. split; [|split].
  - intro a. apply Qc_ltb_irrefl.
  - intros a b c H1 H2. apply Qc_ltb_lt in H1, H2. apply Qc_ltb_lt.
    exact (Qclt_trans _ _ _ H1 H2).
  - intros a b H1 H2. apply Qc_ltb_ge in H1, H2.
    apply Qcle_antisym; assumption.
Qed.

(** ** Validation *)

Lemma validate_fold (M : model) (fmls : list expr) (b : bool) :
  fold_left (fun valid f => if eval_bool M f then valid else false) fmls b
  = b && forallb (eval_bool M) fmls.
Proof.
  revert b. induction fmls as [|f l IH]; intro b; simpl.
  - rewrite Bool.andb_true_r. reflexivity.
  - rewrite IH. destruct (eval_bool M f), b; reflexivity.
Qed.

Lemma validate_model_lemma (M : model) (fmls : list expr) :
  validate_model M fmls = true <-> forall f, In f fmls -> eval_bool M f = true.
Proof.
  unfold validate_model. rewrite validate_fold. simpl. apply forallb_forall.
Qed.

(** X5. [validate_model] does not stop at the first failure, yet its flag is
    the conjunction: it returns true exactly when the model makes every
    literal true, and validating a concatenation is validating both parts. *)
Theorem validate_model_all :
  forall (M : model) (fmls fmls' : list expr),
    (validate_model M fmls = true <->
       forall f, In f fmls -> eval_bool M f = true) /\
    validate_model M (fmls ++ fmls')
      = validate_model M fmls && validate_model M fmls'.
Proof.
  intros M fmls fmls'. unfold validate_model. rewrite !validate_fold. simpl.
  split.
  - apply forallb_forall.
  - apply forallb_app.
Qed.

(** ** The value of a linearized term *)

(** X6. Whatever the state of the engine, walking [t] with the multiplier
    [mul] adds exactly [mul * val t] to the value of the accumulator in the
    model: the constant and the coefficients together stand for the terms
    walked so far. *)
Theorem linearize_term_value :
  forall (M : model) (t : expr) (mul : Qc) (a : lin_acc) (st : lin_env),
    acc_val M (fst (linearize_term M mul t a st))
    = acc_val M a + mul * eval_num M t.
Proof.
  intros M t.
  induction t as [q i | f s args IH | args IH | args IH | t1 IH1 t2 IH2 | t1 IH1
                 | t1 IH1 t2 IH2 | t1 IH1 t2 IH2 t3 IH3
                 | e1 IH1 e2 IH2 | e1 IH1 e2 IH2 | e1 IH1 e2 IH2 | e1 IH1 e2 IH2
                 | e1 IH1 e2 IH2 | args IH | e IH | | ] using expr_induct;
    intros mul a st; try apply atom_ok.
  - unfold acc_val, eval_num. simpl. ring.
  - (* Add *)
    simpl linearize_term.
    assert (G : forall p,
      acc_val M (fst (fold_left (fun (p : lin_acc * lin_env) ti =>
                 linearize_term M mul ti (fst p) (snd p)) args p))
      = acc_val M (fst p)
        + mul * sum_Qc (map (fun x => num_of (eval M x)) args)).
    { induction IH as [|x l Hx _ IHl]; intro p; simpl; [ring|].
      rewrite IHl, Hx. unfold eval_num. ring. }
    rewrite (G (a, st)). reflexivity.
  - (* Mul *)
    destruct args as [|t1 [|t2 [|t3 args]]]; try apply atom_ok.
    inversion IH as [|? ? H1 IH']; subst. inversion IH' as [|? ? H2 _]; subst.
    simpl linearize_term.
    destruct (is_numeral t1) as [k1|] eqn:N1.
    + rewrite H2. unfold eval_num at 2. simpl.
      fold (eval_num M t1). fold (eval_num M t2).
      rewrite (is_numeral_eval M t1 k1 N1). ring.
    + destruct (is_numeral t2) as [k2|] eqn:N2; [|apply atom_ok].
      rewrite H1. unfold eval_num at 2. simpl.
      fold (eval_num M t1). fold (eval_num M t2).
      rewrite (is_numeral_eval M t2 k2 N2). ring.
  - (* Sub *)
    simpl linearize_term. specialize (IH1 mul a st).
    destruct (linearize_term M mul t1 a st) as [a1 st1]. simpl in IH1.
    rewrite IH2, IH1. unfold eval_num. simpl. ring.
  - (* Uminus *)
    simpl linearize_term. rewrite IH1. unfold eval_num. simpl. ring.
  - (* Mod *)
    simpl linearize_term. destruct (is_numeral t2); [|apply atom_ok].
    destruct (linearize_term M 1 t1 _ st) as [a0 st0].
    destruct (extract_coefficients M (acc_ts a0) st0) as [coeffs st1].
    unfold acc_val. simpl. ring.
  - (* Ite *)
    simpl linearize_term. destruct (eval_bool M t1) eqn:G.
    + specialize (IH2 mul a st).
      destruct (linearize_term M mul t2 a st) as [a1 st1]. simpl in *.
      rewrite IH2. unfold eval_num. simpl. unfold eval_bool in G. rewrite G.
      reflexivity.
    + rewrite IH3. unfold eval_num. simpl. unfold eval_bool in G. rewrite G.
      reflexivity.
Qed.

(** ** Which literals are consumed *)

Lemma linearize_chain_true (M : model) rec nums :
  forall st, fst (linearize_chain (linearize_body rec M) nums st) = true.
Proof.
  induction nums as [|x [|y rest] IH]; intro st; try reflexivity.
  rewrite linearize_chain_cons, linearize_body_lt.
  destruct (linearize_pair M 1 (fst x) (fst y) acc_empty st) as [a st1].
  pose proof (submit_row_true M a t_lt st1) as T.
  destruct (submit_row M a t_lt st1) as [ok st2]. simpl in T. subst ok.
  apply IH.
Qed.

Lemma pair_submit_true (M : model) mul e1 e2 ty st :
  fst (let '(a, st1) := linearize_pair M mul e1 e2 acc_empty st in
       submit_row M a ty st1) = true.
Proof.
  destruct (linearize_pair M mul e1 e2 acc_empty st) as [a st1].
  apply submit_row_true.
Qed.

Lemma linearize_shape (M : model) (lit : expr) (st : lin_env) :
  fst (linearize M lit st) = linearizable lit /\
  (linearizable lit = false -> snd (linearize M lit st) = st).
Proof.
  unfold linearize, linearizable.
  set (r := linearize_body (fun _ st' => (false, st')) M).
  unfold linearize_body.
  destruct lit as [ | | | | | | | | e1 e2 | e1 e2 | e1 e2 | e1 e2 | e1 e2
                  | args | lit | | ];
    try (split; [reflexivity | reflexivity]);
    try (split; [apply pair_submit_true | discriminate]).
  - destruct (is_arith e1); [split; [apply pair_submit_true | discriminate]|].
    split; reflexivity.
  - destruct args as [|arg0 args]; [split; reflexivity|].
    destruct (is_arith arg0); [|split; reflexivity].
    split; [subst r; apply linearize_chain_true | discriminate].
  - destruct lit as [ | | | | | | | | e1 e2 | e1 e2 | e1 e2 | e1 e2 | e1 e2
                    | args | lit | | ];
      try (split; [reflexivity | reflexivity]);
      try (split; [apply pair_submit_true | discriminate]).
    + destruct (is_arith e1); [|split; reflexivity].
      destruct (neq_sides M e1 e2).
      split; [apply pair_submit_true | discriminate].
    + destruct args as [|arg0 args]; [split; reflexivity|].
      destruct (is_arith arg0); [|split; reflexivity].
      destruct (find_eq M (arg0 :: args) []) as [[arg1 arg2]|];
        (split; [|discriminate]);
        [apply pair_submit_true | apply submit_row_true].
Qed.

(** X7. Whether the literal linearizer consumes a literal depends on the
    shape of the literal alone, not on the model or the engine: it returns
    true exactly on a comparison, an equality with an arithmetic first side
    or a [distinct] with an arithmetic first argument, negated or not.  On
    every other literal it returns false and has touched neither the engine
    nor the literal vector nor the ids. *)
Theorem linearize_consumes_by_shape :
  forall (M : model) (lit : expr) (st : lin_env),
    fst (linearize M lit st) = linearizable lit /\
    (fst (linearize M lit st) = false -> snd (linearize M lit st) = st).
Proof.
  intros M lit st. destruct (linearize_shape M lit st) as [A B].
  split; [exact A|]. rewrite A. exact B.
Qed.

(** ** The colliding pair of a negated [distinct] *)

Lemma NoDup_all_distinct (l : list Qc) : NoDup l -> all_distinct Qc_eqb l = true.
Proof.
  induction 1 as [|x l Hx _ IH]; simpl; [reflexivity|].
  rewrite IH, Bool.andb_true_r. apply Bool.negb_true_iff.
  destruct (existsb (Qc_eqb x) l) eqn:E; [|reflexivity].
  apply existsb_exists in E. destruct E as [y [Hy E]].
  apply Qc_eqb_eq in E. subst y. contradiction.
Qed.

Lemma find_eq_scan (M : model) (args : list expr) :
  forall pre,
    NoDup (map (eval_num M) pre) ->
    match find_eq M args (map (fun e => (eval_num M e, e)) pre) with
    | None => NoDup (map (eval_num M) (pre ++ args))
    | Some (a1, a2) =>
        exists l1 l2 l3,
          pre ++ args = l1 ++ a2 :: l2 ++ a1 :: l3 /\
          eval_num M a1 = eval_num M a2 /\
          NoDup (map (eval_num M) (l1 ++ a2 :: l2))
    end.
Proof.
  induction args as [|x args IH]; intros pre N; simpl.
  - rewrite app_nil_r. exact N.
  - destruct (List.find _ _) as [[r a2]|] eqn:F.
    + apply find_some in F. destruct F as [I E]. simpl in E.
      apply Qc_eqb_eq in E. apply in_map_iff in I.
      destruct I as [e [[= <- <-] He]].
      apply in_split in He. destruct He as [l1 [l2 ->]].
      exists l1, l2, args. rewrite <- app_assoc. simpl.
      split; [reflexivity|]. split; [symmetry; exact E | exact N].
    + assert (N' : NoDup (map (eval_num M) (pre ++ [x]))).
      { rewrite map_app. simpl. apply NoDup_app; [exact N | | ].
        - constructor; [tauto | constructor].
        - intros q Hq [<-|[]]. apply in_map_iff in Hq.
          destruct Hq as [e [Ee He]].
          assert (Fn := find_none _ _ F (eval_num M e, e)).
          simpl in Fn. rewrite Ee, Qc_eqb_refl in Fn.
          assert (true = false); [|discriminate].
          apply Fn. apply in_map_iff. exists e. rewrite Ee.
          split; [reflexivity | exact He]. }
      specialize (IH (pre ++ [x]) N').
      rewrite map_app in IH. simpl in IH. rewrite <- app_assoc in IH.
      exact IH.
Qed.

(** X8. The loop of the negated [distinct] branch finds a pair exactly when
    two arguments have the same model value.  The pair it returns is the
    first argument whose value repeats an earlier one, together with the
    earlier argument that has this value: all arguments before the first are
    pairwise different in the model.  So for a negated [distinct] with an
    arithmetic argument that holds in the model a pair is always found. *)
Theorem find_eq_first_collision :
  forall (M : model) (args : list expr),
    (find_eq M args [] = None <-> NoDup (map (eval_num M) args)) /\
    (forall a1 a2, find_eq M args [] = Some (a1, a2) ->
       exists l1 l2 l3,
         args = l1 ++ a2 :: l2 ++ a1 :: l3 /\
         eval_num M a1 = eval_num M a2 /\
         NoDup (map (eval_num M) (l1 ++ a2 :: l2))) /\
    (existsb is_arith args = true ->
       eval_bool M (ENot (EDistinct args)) = true ->
       find_eq M args [] <> None).
Proof.
  intros M args.
  pose proof (find_eq_scan M args [] (NoDup_nil _)) as S. simpl in S.
  assert (A : find_eq M args [] = None <-> NoDup (map (eval_num M) args)).
  { destruct (find_eq M args []) as [[a1 a2]|].
    - split; [discriminate|]. intro N. exfalso.
      destruct S as [l1 [l2 [l3 [E [V _]]]]]. rewrite E in N.
      rewrite map_app in N. simpl in N. apply NoDup_remove_2 in N.
      apply N. apply in_or_app. right. rewrite map_app. apply in_or_app.
      right. simpl. left. exact V.
    - split; [intros _; exact S | reflexivity]. }
  split; [exact A|]. split.
  - intros a1 a2 F. rewrite F in S. exact S.
  - intros Ha Ht F. apply A in F.
    rewrite eval_bool_not, eval_bool_distinct, Ha in Ht.
    apply NoDup_all_distinct in F. unfold eval_num in F.
    rewrite F in Ht. discriminate Ht.
Qed.

(** ** The linearizer only appends *)

Lemma lin_step_refl (st : lin_env) : lin_step st st.
Proof.
  split; [exists []; rewrite app_nil_r; reflexivity|].
  split; [exists []; rewrite app_nil_r; reflexivity|].
  split; [reflexivity|].
  split; [exists []; rewrite app_nil_r; reflexivity | tauto].
Qed.

Lemma lin_step_trans (a b c : lin_env) :
  lin_step a b -> lin_step b c -> lin_step a c.
Proof.
  intros [[v1 V1] [[r1 R1] [O1 [[t1 T1] W1]]]] [[v2 V2] [[r2 R2] [O2 [[t2 T2] W2]]]].
  split; [exists (v1 ++ v2); rewrite V2, V1, app_assoc; reflexivity|].
  split; [exists (r1 ++ r2); rewrite R2, R1, app_assoc; reflexivity|].
  split; [congruence|].
  split; [exists (t1 ++ t2); rewrite T2, T1, app_assoc; reflexivity|].
  auto.
Qed.

Lemma lin_step_same (st st' : lin_env) :
  mbo st' = mbo st -> tids st' = tids st -> lin_step st st'.
Proof.
  intros Eo Et. unfold lin_step, tids_wf. rewrite Eo, Et.
  split; [exists []; rewrite app_nil_r; reflexivity|].
  split; [exists []; rewrite app_nil_r; reflexivity|].
  split; [reflexivity|].
  split; [exists []; rewrite app_nil_r; reflexivity | tauto].
Qed.

Lemma lin_step_add_row (st : lin_env) (r : row) :
  lin_step st (set_mbo (add_row r (mbo st)) st).
Proof.
  unfold lin_step, tids_wf. simpl.
  split; [exists []; rewrite app_nil_r; reflexivity|].
  split; [exists [r]; reflexivity|].
  split; [reflexivity|].
  split; [exists []; rewrite app_nil_r; reflexivity | tauto].
Qed.

Lemma lin_step_add_term (M : model) (v : expr) (st : lin_env) :
  map_find v (tids st) = None -> lin_step st (snd (add_term M v st)).
Proof.
  intro F. unfold lin_step, tids_wf, add_term. simpl.
  rewrite (map_insert_absent _ _ _ F).
  split; [eexists; reflexivity|].
  split; [exists []; rewrite app_nil_r; reflexivity|].
  split; [reflexivity|].
  split; [eexists; reflexivity|].
  intros [S N]. rewrite !map_app, length_app, seq_app, S. simpl.
  split; [reflexivity|].
  apply NoDup_app; [exact N | constructor; [tauto | constructor] |].
  intros a Ha [<-|[]]. exact (map_find_none_keys _ _ F Ha).
Qed.

Lemma lin_step_find_or_add (M : model) (v : expr) (st : lin_env) :
  lin_step st (snd (find_or_add M v st)).
Proof.
  unfold find_or_add. destruct (map_find v (tids st)) eqn:F.
  - apply lin_step_refl.
  - apply lin_step_add_term. exact F.
Qed.

Lemma lin_step_extract (M : model) (ts : obj_map Qc) :
  forall st, lin_step st (snd (extract_coefficients M ts st)).
Proof.
  induction ts as [|[v q] ts IH]; intro st; simpl; [apply lin_step_refl|].
  pose proof (lin_step_find_or_add M v st) as H1.
  destruct (find_or_add M v st) as [id st1]. simpl in H1.
  specialize (IH st1). destruct (extract_coefficients M ts st1) as [c st2].
  simpl in *. exact (lin_step_trans _ _ _ H1 IH).
Qed.

Lemma lin_step_term (M : model) (t : expr) :
  forall mul a st, lin_step st (snd (linearize_term M mul t a st)).
Proof.
  induction t as [q i | f s args IH | args IH | args IH | t1 IH1 t2 IH2 | t1 IH1
                 | t1 IH1 t2 IH2 | t1 IH1 t2 IH2 t3 IH3
                 | e1 IH1 e2 IH2 | e1 IH1 e2 IH2 | e1 IH1 e2 IH2 | e1 IH1 e2 IH2
                 | e1 IH1 e2 IH2 | args IH | e IH | | ] using expr_induct;
    intros mul a st; try apply lin_step_refl.
  - (* Add *)
    simpl linearize_term.
    assert (G : forall p,
      lin_step (snd p) (snd (fold_left (fun (p : lin_acc * lin_env) ti =>
                 linearize_term M mul ti (fst p) (snd p)) args p))).
    { induction IH as [|x l Hx _ IHl]; intro p; [apply lin_step_refl|].
      simpl fold_left. eapply lin_step_trans; [apply Hx | apply IHl]. }
    apply (G (a, st)).
  - (* Mul *)
    destruct args as [|t1 [|t2 [|t3 args]]]; try apply lin_step_refl.
    inversion IH as [|? ? H1 IH']; subst. inversion IH' as [|? ? H2 _]; subst.
    simpl linearize_term.
    destruct (is_numeral t1); [apply H2|].
    destruct (is_numeral t2); [apply H1 | apply lin_step_refl].
  - (* Sub *)
    simpl linearize_term. specialize (IH1 mul a st).
    destruct (linearize_term M mul t1 a st) as [a1 st1].
    exact (lin_step_trans _ _ _ IH1 (IH2 _ _ _)).
  - (* Uminus *)
    simpl linearize_term. apply IH1.
  - (* Mod *)
    simpl linearize_term. destruct (is_numeral t2) as [k|]; [|apply lin_step_refl].
    specialize (IH1 1 {| acc_c := - eval_num M (Mod t1 t2); acc_ts := [] |} st).
    destruct (linearize_term M 1 t1 _ st) as [a0 st0]. simpl in IH1.
    pose proof (lin_step_extract M (acc_ts a0) st0) as E.
    destruct (extract_coefficients M (acc_ts a0) st0) as [coeffs st1].
    simpl in *.
    exact (lin_step_trans _ _ _ (lin_step_trans _ _ _ IH1 E)
             (lin_step_add_row st1 _)).
  - (* Ite *)
    simpl linearize_term. destruct (eval_bool M t1).
    + specialize (IH2 mul a st).
      destruct (linearize_term M mul t2 a st) as [a1 st1]. simpl in *.
      eapply lin_step_trans; [exact IH2 | apply lin_step_same; reflexivity].
    + eapply lin_step_trans; [|apply IH3]. apply lin_step_same; reflexivity.
Qed.

Lemma lin_step_submit (M : model) a ty st :
  lin_step st (snd (submit_row M a ty st)).
Proof.
  unfold submit_row. pose proof (lin_step_extract M (acc_ts a) st) as E.
  destruct (extract_coefficients M (acc_ts a) st) as [coeffs st1]. simpl in *.
  exact (lin_step_trans _ _ _ E (lin_step_add_row st1 _)).
Qed.

Lemma lin_step_pair_submit (M : model) mul e1 e2 ty st :
  lin_step st (snd (let '(a, st1) := linearize_pair M mul e1 e2 acc_empty st in
                    submit_row M a ty st1)).
Proof.
  unfold linearize_pair.
  pose proof (lin_step_term M e1 mul acc_empty st) as H1.
  destruct (linearize_term M mul e1 acc_empty st) as [a1 st1].
  pose proof (lin_step_term M e2 (- mul) a1 st1) as H2.
  destruct (linearize_term M (- mul) e2 a1 st1) as [a2 st2]. simpl in *.
  exact (lin_step_trans _ _ _ (lin_step_trans _ _ _ H1 H2)
           (lin_step_submit M a2 ty st2)).
Qed.

Lemma lin_step_chain (M : model) rec nums :
  forall st, lin_step st (snd (linearize_chain (linearize_body rec M) nums st)).
Proof.
  induction nums as [|x [|y rest] IH]; intro st; try apply lin_step_refl.
  rewrite linearize_chain_cons, linearize_body_lt.
  pose proof (lin_step_pair_submit M 1 (fst x) (fst y) t_lt st) as A.
  destruct (linearize_pair M 1 (fst x) (fst y) acc_empty st) as [a st1].
  pose proof (submit_row_true M a t_lt st1) as T.
  destruct (submit_row M a t_lt st1) as [ok st2]. simpl in T, A. subst ok.
  exact (lin_step_trans _ _ _ A (IH st2)).
Qed.

Lemma lin_step_linearize (M : model) (lit : expr) (st : lin_env) :
  lin_step st (snd (linearize M lit st)).
Proof.
  unfold linearize.
  set (r := linearize_body (fun _ st' => (false, st')) M).
  unfold linearize_body.
  destruct lit as [ | | | | | | | | e1 e2 | e1 e2 | e1 e2 | e1 e2 | e1 e2
                  | args | lit | | ]; try apply lin_step_refl;
    try apply lin_step_pair_submit.
  - destruct (is_arith e1); [apply lin_step_pair_submit | apply lin_step_refl].
  - destruct args as [|arg0 args]; [apply lin_step_refl|].
    destruct (is_arith arg0); [|apply lin_step_refl].
    subst r. apply lin_step_chain.
  - destruct lit as [ | | | | | | | | e1 e2 | e1 e2 | e1 e2 | e1 e2 | e1 e2
                    | args | lit | | ]; try apply lin_step_refl;
      try apply lin_step_pair_submit.
    + destruct (is_arith e1); [|apply lin_step_refl].
      destruct (neq_sides M e1 e2). apply lin_step_pair_submit.
    + destruct args as [|arg0 args]; [apply lin_step_refl|].
      destruct (is_arith arg0); [|apply lin_step_refl].
      destruct (find_eq M (arg0 :: args) []) as [[arg1 arg2]|];
        [apply lin_step_pair_submit | apply lin_step_submit].
Qed.

Lemma lin_step_all (M : model) (kept pending : list expr)
  (o : model_based_opt) (ids : obj_map nat) :
  lin_step {| mbo := o; fmls := pending; tids := ids |}
           (linearize_all M kept pending o ids).
Proof.
  funelim (linearize_all M kept pending o ids).
  - apply lin_step_same; reflexivity.
  - eapply lin_step_trans; [|eassumption].
    eapply lin_step_trans; [apply (lin_step_linearize M fml)|].
    apply lin_step_same; reflexivity.
Qed.

Lemma lin_step_register (M : model) (vars : list expr) :
  forall st, lin_step st (register_vars M vars st).
Proof.
  unfold register_vars. induction vars as [|v vars IH]; intro st;
    [apply lin_step_refl|].
  cbn [fold_left]. eapply lin_step_trans; [|apply IH].
  destruct (is_arith v); [|apply lin_step_refl]. unfold map_contains.
  destruct (map_find v (tids st)) eqn:F; [apply lin_step_refl|].
  simpl. apply lin_step_add_term. exact F.
Qed.

(** X9. A call of the literal linearizer only appends: the variables of the
    engine and their seeds stay and new ones come after them, no row is
    removed or changed, the objective is untouched, and every term keeps the
    id it has. *)
Theorem linearize_only_appends :
  forall (M : model) (lit : expr) (st : lin_env),
    let st' := snd (linearize M lit st) in
    (exists more, m_var2value (mbo st') = m_var2value (mbo st) ++ more) /\
    (exists more, m_rows (mbo st') = m_rows (mbo st) ++ more) /\
    m_objective (mbo st') = m_objective (mbo st) /\
    (exists more, tids st' = tids st ++ more) /\
    (exists more, fmls st' = fmls st ++ more) /\
    (forall e id, map_find e (tids st) = Some id ->
                  map_find e (tids st') = Some id).
Proof.
  intros M lit st st'. subst st'.
  destruct (lin_step_linearize M lit st) as [V [R [O [[t T] _]]]].
  destruct (linearize_fmls M lit st) as [gs [F _]].
  split; [exact V|]. split; [exact R|]. split; [exact O|].
  split; [exists t; exact T|]. split; [exists gs; exact F|].
  intros e id H. rewrite T, map_find_app, H. reflexivity.
Qed.

(** ** Terms and ids correspond *)

Lemma setx_end (e : expr) (l : list (option expr)) :
  setx (List.length l) e l = l ++ [Some e].
Proof. induction l as [|x l IH]; simpl; [reflexivity | rewrite IH; reflexivity]. Qed.

Lemma build_index2expr_seq (ids : obj_map nat) :
  forall acc,
    map snd ids = seq (List.length acc) (List.length ids) ->
    fold_left (fun i2e (p : expr * nat) => setx (snd p) (fst p) i2e) ids acc
    = acc ++ map (fun p => Some (fst p)) ids.
Proof.
  induction ids as [|[e n] ids IH]; intros acc H; simpl.
  - rewrite app_nil_r. reflexivity.
  - simpl in H. injection H as -> H. rewrite setx_end.
    rewrite IH; [rewrite <- app_assoc; reflexivity|].
    rewrite length_app. simpl. rewrite Nat.add_1_r. exact H.
Qed.

Lemma seq_entry (ids : obj_map nat) :
  forall a e id,
    map snd ids = seq a (List.length ids) -> In (e, id) ids ->
    (a <= id)%nat /\ nth_error ids (id - a) = Some (e, id).
Proof.
  induction ids as [|[e0 n0] ids IH]; intros a e id H Hin; [destruct Hin|].
  simpl in H. injection H as -> H. destruct Hin as [[= -> ->]|Hin].
  - rewrite Nat.sub_diag. auto.
  - destruct (IH (S a) e id H Hin) as [L N]. split; [lia|].
    replace (id - a)%nat with (S (id - S a)) by lia. exact N.
Qed.

Lemma map_find_of_In {V} (k : expr) (v : V) (m : obj_map V) :
  NoDup (map fst m) -> In (k, v) m -> map_find k m = Some v.
Proof.
  induction m as [|[k0 v0] m IH]; simpl; intros N Hin; [destruct Hin|].
  inversion N as [|? ? Hk N']; subst. destruct Hin as [[= -> ->]|Hin].
  - rewrite expr_eqb_refl. reflexivity.
  - destruct (expr_eqb k k0) eqn:E; [|apply IH; assumption].
    apply expr_eqb_eq in E. subst k0. exfalso. apply Hk.
    apply (in_map fst) in Hin. exact Hin.
Qed.

Lemma tids_wf_length (st : lin_env) :
  tids_wf st -> List.length (tids st) = List.length (m_var2value (mbo st)).
Proof.
  intros [S _]. apply (f_equal (@List.length nat)) in S.
  rewrite length_map, length_seq in S. exact S.
Qed.

Lemma index2expr_of_wf (st : lin_env) :
  tids_wf st ->
  build_index2expr (tids st) = map (fun p => Some (fst p)) (tids st).
Proof.
  intro W. unfold build_index2expr. rewrite build_index2expr_seq; [reflexivity|].
  simpl. rewrite (tids_wf_length st W). exact (proj1 W).
Qed.

Lemma index2expr_roundtrip (st : lin_env) :
  tids_wf st ->
  List.length (build_index2expr (tids st)) = List.length (m_var2value (mbo st)) /\
  (forall e id, map_find e (tids st) = Some id ->
     get_expr (build_index2expr (tids st)) id = e) /\
  (forall id, (id < List.length (m_var2value (mbo st)))%nat ->
     map_find (get_expr (build_index2expr (tids st)) id) (tids st) = Some id).
Proof.
  intro W. rewrite (index2expr_of_wf st W).
  pose proof (tids_wf_length st W) as L. destruct W as [S N].
  rewrite <- L in S. split; [rewrite length_map; exact L|]. split.
  - intros e id F. apply map_find_In in F.
    destruct (seq_entry _ 0 e id S F) as [_ E]. rewrite Nat.sub_0_r in E.
    unfold get_expr. rewrite nth_error_map, E. reflexivity.
  - intros id Hlt. rewrite <- L in Hlt.
    destruct (nth_error (tids st) id) as [[e n]|] eqn:E;
      [|apply nth_error_None in E; lia].
    assert (n = id).
    { assert (Hn : nth_error (map snd (tids st)) id = Some n)
        by (rewrite nth_error_map, E; reflexivity).
      rewrite S, nth_error_seq in Hn.
      destruct (id <? List.length (tids st))%nat; simpl in Hn; congruence. }
    subst n. unfold get_expr. rewrite nth_error_map, E. simpl.
    apply map_find_of_In; [exact N|]. eapply nth_error_In. exact E.
Qed.

Lemma tids_wf_start (fmls0 : list expr) :
  tids_wf {| mbo := mbo_empty; fmls := fmls0; tids := [] |}.
Proof. split; simpl; [reflexivity | constructor]. Qed.

Lemma project_state_wf (M : model) (vars fmls0 : list expr) :
  tids_wf (project_state M vars fmls0).
Proof.
  unfold project_state.
  destruct (lin_step_register M vars (linearize_all M [] fmls0 mbo_empty []))
    as [_ [_ [_ [_ W]]]].
  apply W.
  destruct (lin_step_all M [] fmls0 mbo_empty []) as [_ [_ [_ [_ W0]]]].
  apply W0. apply tids_wf_start.
Qed.

Lemma map_contains_step (st st' : lin_env) (v : expr) :
  lin_step st st' ->
  map_contains v (tids st) = true -> map_contains v (tids st') = true.
Proof.
  intros [_ [_ [_ [[more T] _]]]]. unfold map_contains.
  rewrite T, map_find_app. destruct (map_find v (tids st)); [auto|discriminate].
Qed.

Lemma register_step_contains (M : model) (v : expr) (st : lin_env) :
  is_arith v = true ->
  map_contains v
    (tids (if is_arith v && negb (map_contains v (tids st))
           then snd (add_term M v st) else st)) = true.
Proof.
  intro Ha. rewrite Ha. simpl.
  destruct (map_contains v (tids st)) eqn:C; simpl; [exact C|].
  unfold map_contains. rewrite map_find_insert_same. reflexivity.
Qed.

Lemma register_vars_registers (M : model) (vars : list expr) :
  forall st v, In v vars -> is_arith v = true ->
    map_contains v (tids (register_vars M vars st)) = true.
Proof.
  induction vars as [|x vars IH]; intros st v Hin Ha; [destruct Hin|].
  unfold register_vars. cbn [fold_left].
  match goal with |- context [fold_left ?f vars ?s] =>
    change (fold_left f vars s) with (register_vars M vars s)
  end.
  destruct Hin as [->|Hin]; [|apply IH; assumption].
  eapply map_contains_step; [apply lin_step_register|].
  apply register_step_contains. exact Ha.
Qed.

(** X10. In the state the projection driver builds, terms and ids
    correspond one to one: the ids of [tids] are [0 .. n-1] for the [n]
    variables of the engine, no term has two entries, [index2expr] has a
    term in every slot, looking up the id of a term and reading that slot
    gives the term back, reading a slot and looking up its term gives the
    slot back, and every arithmetic variable to eliminate has an id. *)
Theorem project_state_ids :
  forall (M : model) (vars fmls0 : list expr),
    let st := project_state M vars fmls0 in
    let index2expr := build_index2expr (tids st) in
    map snd (tids st) = seq 0 (List.length (m_var2value (mbo st))) /\
    NoDup (map fst (tids st)) /\
    List.length index2expr = List.length (m_var2value (mbo st)) /\
    (forall e id, map_find e (tids st) = Some id -> get_expr index2expr id = e) /\
    (forall id, (id < List.length (m_var2value (mbo st)))%nat ->
       map_find (get_expr index2expr id) (tids st) = Some id) /\
    (forall v, In v vars -> is_arith v = true ->
       map_find v (tids st) = Some (tids_find v (tids st))).
Proof.
  intros M vars fmls0 st index2expr.
  pose proof (project_state_wf M vars fmls0) as W. fold st in W.
  destruct (index2expr_roundtrip st W) as [L [A B]].
  split; [exact (proj1 W)|]. split; [exact (proj2 W)|].
  split; [exact L|]. split; [exact A|]. split; [exact B|].
  intros v Hin Ha.
  pose proof (register_vars_registers M vars
                (linearize_all M [] fmls0 mbo_empty []) v Hin Ha) as C.
  fold (project_state M vars fmls0) in C. fold st in C.
  unfold map_contains, tids_find in *.
  destruct (map_find v (tids st)); [reflexivity | discriminate C].
Qed.

(** ** Marks and the variables that are kept *)

Lemma is_marked_cons (v e : expr) (m : expr_mark) :
  is_marked v (mark e m) = expr_eqb v e || is_marked v m.
Proof. reflexivity. Qed.

Lemma fold_mark_rec_mono_F (v : expr) (l : list expr) :
  Forall (fun e => forall m, is_marked v m = true ->
                             is_marked v (mark_rec e m) = true) l ->
  forall m, is_marked v m = true ->
    is_marked v (fold_left (fun acc x => mark_rec x acc) l m) = true.
Proof.
  induction 1 as [|x l Hx _ IH]; intros m H; simpl; [exact H|].
  apply IH, Hx, H.
Qed.

Lemma mark_rec_mono (v e : expr) :
  forall m, is_marked v m = true -> is_marked v (mark_rec e m) = true.
Proof.
  induction e as [q i | f s args IH | args IH | args IH | t1 IH1 t2 IH2 | t1 IH1
                 | t1 IH1 t2 IH2 | t1 IH1 t2 IH2 t3 IH3
                 | e1 IH1 e2 IH2 | e1 IH1 e2 IH2 | e1 IH1 e2 IH2 | e1 IH1 e2 IH2
                 | e1 IH1 e2 IH2 | args IH | e IH | | ] using expr_induct;
    intros m H; simpl mark_rec;
    match goal with
    | |- context [mark ?x m] =>
        assert (H0 : is_marked v (mark x m) = true)
          by (rewrite is_marked_cons, H; apply Bool.orb_true_r)
    end;
    first [ exact H0
          | apply fold_mark_rec_mono_F; assumption
          | apply IH3, IH2, IH1, H0
          | apply IH2, IH1, H0
          | apply IH1, H0
          | apply IH, H0 ].
Qed.

Lemma fold_mark_rec_mono (v : expr) (l : list expr) :
  forall m, is_marked v m = true ->
    is_marked v (fold_left (fun acc x => mark_rec x acc) l m) = true.
Proof.
  induction l as [|x l IH]; intros m H; simpl; [exact H|].
  apply IH, mark_rec_mono, H.
Qed.

Lemma fold_mark_rec_in (v : expr) (l : list expr) :
  Forall (fun e => forall m, occurs v e = true ->
                             is_marked v (mark_rec e m) = true) l ->
  forall m, existsb (occurs v) l = true ->
    is_marked v (fold_left (fun acc x => mark_rec x acc) l m) = true.
Proof.
  induction 1 as [|x l Hx _ IH]; intros m H; simpl in *; [discriminate|].
  apply Bool.orb_true_iff in H. destruct H as [H|H].
  - apply fold_mark_rec_mono, Hx, H.
  - apply IH, H.
Qed.

(** [mark_rec] marks every sub-term. *)
Lemma mark_rec_occurs (v e : expr) :
  forall m, occurs v e = true -> is_marked v (mark_rec e m) = true.
Proof.
  induction e as [q i | f s args IH | args IH | args IH | t1 IH1 t2 IH2 | t1 IH1
                 | t1 IH1 t2 IH2 | t1 IH1 t2 IH2 t3 IH3
                 | e1 IH1 e2 IH2 | e1 IH1 e2 IH2 | e1 IH1 e2 IH2 | e1 IH1 e2 IH2
                 | e1 IH1 e2 IH2 | args IH | e IH | | ] using expr_induct;
    intros m H; simpl occurs in H; simpl mark_rec;
    apply Bool.orb_true_iff in H; destruct H as [H|H];
    try discriminate H;
    try (* the term itself *)
      (assert (H0 : is_marked v (mark _ m) = true)
         by (rewrite is_marked_cons, H; reflexivity);
       first [ exact H0
             | apply fold_mark_rec_mono; exact H0
             | repeat apply mark_rec_mono; exact H0 ]);
    try (apply fold_mark_rec_in; assumption);
    repeat (apply Bool.orb_true_iff in H; destruct H as [H|H]);
    auto using mark_rec_mono.
Qed.

Lemma mark_tids_mono (v : expr) (var_mark : expr_mark) (ids : obj_map nat) :
  forall fm, is_marked v fm = true ->
    is_marked v (mark_tids var_mark ids fm) = true.
Proof.
  unfold mark_tids. induction ids as [|[e id] ids IH]; intros fm H; simpl;
    [exact H|].
  apply IH. destruct (is_marked e var_mark); [exact H|].
  apply mark_rec_mono, H.
Qed.

Lemma mark_tids_occurs (v e : expr) (id : nat) (var_mark : expr_mark)
  (ids : obj_map nat) :
  forall fm,
    In (e, id) ids -> is_marked e var_mark = false -> occurs v e = true ->
    is_marked v (mark_tids var_mark ids fm) = true.
Proof.
  unfold mark_tids. induction ids as [|[e0 id0] ids IH]; intros fm Hin Hm Ho;
    [destruct Hin|].
  simpl. destruct Hin as [[= -> ->]|Hin].
  - rewrite Hm. apply (mark_tids_mono v var_mark ids).
    apply mark_rec_occurs, Ho.
  - apply IH; assumption.
Qed.

(** X11. The variables the projection driver returns are variables it was
    given; a variable that is not arithmetic is always among them; and so is
    every variable that occurs in an engine term which is not itself a
    variable to eliminate, for instance in a product of two variables. *)
Theorem project_keeps_variables :
  forall (mbo_project : list nat -> model_based_opt -> model_based_opt)
         (M : model) (vars fmls0 : list expr),
    (forall v, In v (fst (project mbo_project M vars fmls0)) -> In v vars) /\
    (forall v, In v vars -> is_arith v = false ->
               In v (fst (project mbo_project M vars fmls0))) /\
    (forall v e id,
       In v vars ->
       map_find e (tids (project_state M vars fmls0)) = Some id ->
       is_marked e vars = false ->
       occurs v e = true ->
       In v (fst (project mbo_project M vars fmls0))).
Proof.
  intros mbo_project M vars fmls0. unfold project.
  destruct (negb (existsb is_arith vars)) eqn:A; simpl.
  - split; [auto|]. split; auto.
  - split; [intros v H; apply filter_In in H; tauto|]. split.
    + intros v Hin Ha. apply filter_In. split; [exact Hin|].
      unfold is_real_var. rewrite Ha. reflexivity.
    + intros v e id Hin F Hm Ho. apply filter_In. split; [exact Hin|].
      unfold is_real_var, project_marks.
      rewrite (mark_tids_occurs v e id vars _ _ (map_find_In _ _ _ F) Hm Ho).
      simpl. rewrite Bool.andb_false_r. reflexivity.
Qed.

(** ** Lifted literals and eliminated variables *)

Lemma occurs_const (v e : expr) :
  is_uninterp_const e = true -> occurs v e = expr_eqb v e.
Proof.
  destruct e as [ | f s [|a l] | | | | | | | | | | | | | | | ]; try discriminate.
  intros _. simpl. apply Bool.orb_false_r.
Qed.

Lemma occurs_lift_var (v : expr) (index2expr : list (option expr)) (x : var) :
  is_uninterp_const v = true ->
  occurs v (lift_var index2expr x) = occurs v (get_expr index2expr (m_id x)).
Proof.
  intro Hv. unfold lift_var. destruct (Qc_eqb (m_coeff x) 1); [reflexivity|].
  destruct v as [ | f s [|a l] | | | | | | | | | | | | | | | ]; try discriminate.
  simpl. rewrite Bool.orb_false_r. reflexivity.
Qed.

Lemma occurs_lift_sum (v : expr) (index2expr : list (option expr)) (r : row) :
  is_uninterp_const v = true ->
  occurs v (lift_sum index2expr r) = true ->
  exists x, In x (m_vars r) /\ occurs v (get_expr index2expr (m_id x)) = true.
Proof.
  intros Hv H.
  assert (G : existsb (occurs v) (map (lift_var index2expr) (m_vars r)) = true).
  { unfold lift_sum in H.
    destruct (map (lift_var index2expr) (m_vars r)) as [|t0 [|t1 ts]] eqn:E.
    - destruct v as [ | f s [|a l] | | | | | | | | | | | | | | | ];
        try discriminate Hv. discriminate H.
    - simpl. rewrite H. reflexivity.
    - destruct v as [ | f s [|a l] | | | | | | | | | | | | | | | ];
        try discriminate Hv. exact H. }
  apply existsb_exists in G. destruct G as [t [Ht Ho]].
  apply in_map_iff in Ht. destruct Ht as [x [<- Hx]].
  exists x. split; [exact Hx|]. rewrite <- (occurs_lift_var v _ x Hv). exact Ho.
Qed.

Lemma occurs_lift_general (v : expr) (index2expr : list (option expr)) (r : row) :
  is_uninterp_const v = true ->
  occurs v (lift_general index2expr r) = true ->
  occurs v (lift_sum index2expr r) = true.
Proof.
  intros Hv H. unfold lift_general, lift_rhs in H.
  destruct v as [ | f s [|a l] | | | | | | | | | | | | | | | ];
    try discriminate Hv.
  destruct (m_type r); simpl in H; rewrite ?Bool.orb_false_r in H;
    try exact H.
  destruct (Qc_eqb (m_const r) 0); simpl in H;
    rewrite ?Bool.orb_false_r in H; exact H.
Qed.

Lemma occurs_lift_unit (v : expr) (index2expr : list (option expr))
  (x : var) (r : row) :
  is_uninterp_const v = true ->
  occurs v (lift_unit index2expr x r) = true ->
  occurs v (get_expr index2expr (m_id x)) = true.
Proof.
  intros Hv H. unfold lift_unit in H.
  destruct v as [ | f s [|a l] | | | | | | | | | | | | | | | ];
    try discriminate Hv.
  destruct (Qc_eqb (m_coeff x) (- (1))); destruct (m_type r); simpl in H;
    rewrite ?Bool.orb_false_r in H; exact H.
Qed.

Lemma occurs_lift_row (v lit : expr) (index2expr : list (option expr)) (r : row) :
  is_uninterp_const v = true ->
  In lit (lift_row index2expr r) ->
  occurs v lit = true ->
  exists x, In x (m_vars r) /\ occurs v (get_expr index2expr (m_id x)) = true.
Proof.
  intros Hv Hl Ho. unfold lift_row in Hl.
  destruct (m_vars r) as [|x [|x' xs]] eqn:V; [destruct Hl| |].
  - destruct (Qc_is_neg (m_coeff x) && negb (is_t_mod (m_type r)));
      destruct Hl as [<-|[]].
    + exists x. split; [left; reflexivity|].
      apply (occurs_lift_unit v index2expr x r Hv Ho).
    + rewrite <- V. apply occurs_lift_sum; [exact Hv|].
      apply occurs_lift_general; assumption.
  - destruct Hl as [<-|[]]. rewrite <- V. apply occurs_lift_sum; [exact Hv|].
    apply occurs_lift_general; assumption.
Qed.

Lemma drop_project_scope : project_scope_contract drop_project.
Proof.
  intros vs o r v Hr Hv Hin. unfold get_live_rows, drop_project in Hr.
  simpl in Hr. apply filter_In in Hr. destruct Hr as [_ Hr].
  apply Bool.negb_true_iff in Hr.
  assert (row_mentions vs r = true); [|congruence].
  unfold row_mentions. apply existsb_exists. exists v. split; [exact Hv|].
  apply existsb_exists. exists (m_id v). split; [exact Hin|].
  apply Nat.eqb_refl.
Qed.

(** X12. The literals lifted from the surviving rows are in scope: with an
    engine that leaves no eliminated id in a live row, and variables that
    are uninterpreted constants, a variable the driver removed from the
    vector of variables occurs in no literal lifted from a live row.  (A
    residue literal is another matter.) *)
Theorem lifted_literals_in_scope :
  forall (mbo_project : list nat -> model_based_opt -> model_based_opt)
         (M : model) (vars fmls0 : list expr),
    project_scope_contract mbo_project ->
    (forall v, In v vars -> is_uninterp_const v = true) ->
    let st := project_state M vars fmls0 in
    forall r lit v,
      In r (get_live_rows (mbo_project (project_real_vars vars st) (mbo st))) ->
      In lit (lift_row (build_index2expr (tids st)) r) ->
      In v vars ->
      ~ In v (fst (project mbo_project M vars fmls0)) ->
      occurs v lit = false.
Proof.
  intros mbo_project M vars fmls0 Hc Hconst st r lit v Hr Hl Hv Hout.
  destruct (occurs v lit) eqn:Ho; [exfalso|reflexivity].
  (* [v] was eliminated: it is arithmetic and not marked *)
  assert (Hreal : is_real_var (project_marks vars st) v = true).
  { unfold project in Hout.
    destruct (negb (existsb is_arith vars)); simpl in Hout; [contradiction|].
    fold st in Hout. destruct (is_real_var (project_marks vars st) v) eqn:R;
      [reflexivity|].
    exfalso. apply Hout. apply filter_In. rewrite R. auto. }
  destruct (occurs_lift_row v lit _ r (Hconst v Hv) Hl Ho) as [x [Hx Hox]].
  rewrite get_expr_slot in Hox.
  destruct (slot (build_index2expr (tids st)) (m_id x)) as [e|] eqn:S.
  - apply build_slot_inv in S.
    destruct S as [S|S]; [|unfold slot in S; destruct (m_id x); discriminate S].
    destruct (is_marked e vars) eqn:Me.
    + (* [e] is a variable to eliminate, hence [v] itself *)
      apply existsb_exists in Me. destruct Me as [w [Hw Ew]].
      apply expr_eqb_eq in Ew. subst w.
      rewrite (occurs_const v e (Hconst e Hw)) in Hox.
      apply expr_eqb_eq in Hox. subst e.
      pose proof (project_state_wf M vars fmls0) as [_ N]. fold st in N.
      pose proof (map_find_of_In v (m_id x) (tids st) N S) as F.
      apply (Hc _ _ r x Hr Hx). unfold project_real_vars.
      apply in_map_iff. exists v. split.
      * unfold tids_find. rewrite F. reflexivity.
      * apply filter_In. auto.
    + (* [e] is another engine term: its sub-terms are marked *)
      unfold is_real_var, project_marks in Hreal.
      rewrite (mark_tids_occurs v e (m_id x) vars _ _ S Me Hox) in Hreal.
      rewrite Bool.andb_false_r in Hreal. discriminate Hreal.
  - specialize (Hconst v Hv).
    destruct v as [ | f s [|a l] | | | | | | | | | | | | | | | ];
      discriminate.
Qed.

Lemma lifted_literals_in_scope_witness :
  fst (project drop_project example_model example_project_vars
         example_project_fmls) = [] /\
  forall r lit,
    In r (get_live_rows
            (drop_project
               (project_real_vars example_project_vars
                  (project_state example_model example_project_vars
                     example_project_fmls))
               (mbo (project_state example_model example_project_vars
                       example_project_fmls)))) ->
    In lit (lift_row (build_index2expr
                        (tids (project_state example_model example_project_vars
                                 example_project_fmls))) r) ->
    occurs (int_const "x") lit = false.
Proof.
  assert (E : fst (project drop_project example_model example_project_vars
                     example_project_fmls) = []) by (vm_compute; reflexivity).
  split; [exact E|].
  intros r lit Hr Hl.
  assert (C : forall v, In v example_project_vars -> is_uninterp_const v = true)
    by (intros v [<-|[]]; reflexivity).
  assert (N : ~ In (int_const "x")
                (fst (project drop_project example_model example_project_vars
                        example_project_fmls)))
    by (rewrite E; intros []).
  exact (lifted_literals_in_scope drop_project example_model
           example_project_vars example_project_fmls drop_project_scope C
           r lit (int_const "x") Hr Hl (or_introl eq_refl) N).
Defined.

(** ** The residue *)

Lemma register_vars_fmls (M : model) (vars : list expr) :
  forall st, fmls (register_vars M vars st) = fmls st.
Proof.
  unfold register_vars. induction vars as [|v vars IH]; intro st; [reflexivity|].
  cbn [fold_left]. rewrite IH.
  destruct (is_arith v && negb (map_contains v (tids st))); reflexivity.
Qed.

(** ** Where the guards come from, and where they go *)

Lemma occurs_unfold (v e : expr) :
  occurs v e
  = expr_eqb v e ||
    match e with
    | Num _ _ | ETrue | EFalse => false
    | App _ _ l | Add l | Mul l | EDistinct l => existsb (occurs v) l
    | Sub a b | Mod a b | ELe a b | EGe a b | ELt a b | EGt a b | EEq a b =>
        occurs v a || occurs v b
    | Uminus a | ENot a => occurs v a
    | Ite a b c => occurs v a || occurs v b || occurs v c
    end.
Proof. destruct e; reflexivity. Qed.

Lemma occurs_refl (v : expr) : occurs v v = true.
Proof. rewrite occurs_unfold, expr_eqb_refl. reflexivity. Qed.

Lemma occurs_list (v : expr) (l : list expr) (x : expr) :
  In x l -> occurs v x = true -> existsb (occurs v) l = true.
Proof. intros Hin Hx. apply existsb_exists. exists x. split; assumption. Qed.

Ltac occurs_below :=
  rewrite occurs_unfold; apply Bool.orb_true_iff; right; cbv beta iota.

Lemma occurs_trans (a b c : expr) :
  occurs a b = true -> occurs b c = true -> occurs a c = true.
Proof.
  intro Hab.
  induction c as [ | f s args X | args X | args X | t1 IHt1 t2 IHt2 | t IHt
                   | t1 IHt1 t2 IHt2 | t1 IHt1 t2 IHt2 t3 IHt3
                   | t1 IHt1 t2 IHt2 | t1 IHt1 t2 IHt2 | t1 IHt1 t2 IHt2
                   | t1 IHt1 t2 IHt2 | t1 IHt1 t2 IHt2 | args X | t IHt | | ]
    using expr_induct; intro Hbc;
    rewrite occurs_unfold in Hbc; apply Bool.orb_true_iff in Hbc;
    destruct Hbc as [E|S];
    try (apply expr_eqb_eq in E; subst b; exact Hab);
    try discriminate S;
    occurs_below;
    try (apply existsb_exists in S; destruct S as [x [Hin Hx]];
         rewrite Forall_forall in X;
         apply (occurs_list a args x Hin (X x Hin Hx)));
    try (apply Bool.orb_true_iff in S; destruct S as [S|S];
         [rewrite (IHt1 S); reflexivity
         |rewrite (IHt2 S); apply Bool.orb_true_r]);
    try (apply IHt; exact S).
  apply Bool.orb_true_iff in S. destruct S as [S|S].
  - apply Bool.orb_true_iff in S. destruct S as [S|S].
    + rewrite (IHt1 S). reflexivity.
    + rewrite (IHt2 S). rewrite Bool.orb_true_r. reflexivity.
  - rewrite (IHt3 S). apply Bool.orb_true_r.
Qed.

Lemma taken_guard_true (M : model) (c : expr) :
  eval_bool M (taken_guard M c) = true.
Proof.
  unfold taken_guard. destruct (eval_bool M c) eqn:G; [exact G|].
  unfold mk_not. rewrite eval_bool_not, G. reflexivity.
Qed.

(** A guard pushed while walking [t] is the guard taken at an [ite] inside
    [t]. *)
Lemma term_guards_origin (M : model) (t g : expr) :
  In g (term_guards M t) ->
  exists c u2 u3, occurs (Ite c u2 u3) t = true /\ g = taken_guard M c.
Proof.
  induction t as [ | | args X | args X | t1 IHt1 t2 IHt2 | t IHt
                   | t1 IHt1 t2 IHt2 | t1 IHt1 t2 IHt2 t3 IHt3
                   | | | | | | | | | ] using expr_induct;
    try (intros []).
  - (* Add *)
    simpl term_guards. intro H. apply in_flat_map in H.
    destruct H as [x [Hin Hg]]. rewrite Forall_forall in X.
    destruct (X x Hin Hg) as [c [u2 [u3 [O E]]]]. exists c, u2, u3.
    split; [|exact E]. occurs_below. apply (occurs_list _ args x Hin O).
  - (* Mul *)
    destruct args as [|t1 [|t2 [|t3 args]]]; try (intros []).
    inversion X as [|? ? H1 X']; subst. inversion X' as [|? ? H2 _]; subst.
    simpl term_guards. destruct (is_numeral t1) as [k1|].
    + intro H. destruct (H2 H) as [c [u2 [u3 [O E]]]]. exists c, u2, u3.
      split; [|exact E]. occurs_below. simpl. rewrite O.
      rewrite !Bool.orb_true_r. reflexivity.
    + destruct (is_numeral t2) as [k2|]; [|intros []].
      intro H. destruct (H1 H) as [c [u2 [u3 [O E]]]]. exists c, u2, u3.
      split; [|exact E]. occurs_below. simpl. rewrite O. reflexivity.
  - (* Sub *)
    simpl term_guards. intro H. apply in_app_or in H. destruct H as [H|H].
    + destruct (IHt1 H) as [c [u2 [u3 [O E]]]]. exists c, u2, u3.
      split; [|exact E]. occurs_below. rewrite O. reflexivity.
    + destruct (IHt2 H) as [c [u2 [u3 [O E]]]]. exists c, u2, u3.
      split; [|exact E]. occurs_below. rewrite O. apply Bool.orb_true_r.
  - (* Uminus *)
    simpl term_guards. intro H.
    destruct (IHt H) as [c [u2 [u3 [O E]]]]. exists c, u2, u3.
    split; [|exact E]. occurs_below. exact O.
  - (* Mod *)
    simpl term_guards. destruct (is_numeral t2) as [k|]; [|intros []].
    intro H. destruct (IHt1 H) as [c [u2 [u3 [O E]]]]. exists c, u2, u3.
    split; [|exact E]. occurs_below. rewrite O. reflexivity.
  - (* Ite *)
    simpl term_guards. destruct (eval_bool M t1) eqn:G.
    + intro H. apply in_app_or in H. destruct H as [H|[<-|[]]].
      * destruct (IHt2 H) as [c [u2 [u3 [O E]]]]. exists c, u2, u3.
        split; [|exact E]. occurs_below. rewrite O.
        rewrite Bool.orb_true_r. reflexivity.
      * exists t1, t2, t3. split; [apply occurs_refl|].
        unfold taken_guard. rewrite G. reflexivity.
    + intros [<-|H].
      * exists t1, t2, t3. split; [apply occurs_refl|].
        unfold taken_guard. rewrite G. reflexivity.
      * destruct (IHt3 H) as [c [u2 [u3 [O E]]]]. exists c, u2, u3.
        split; [|exact E]. occurs_below. rewrite O. apply Bool.orb_true_r.
Qed.

Lemma chain_terms_in (l : list expr) (t : expr) :
  In t (flat_map (fun l => match l with ELt x y => [x; y] | _ => [] end)
          (consecutive_lt l)) ->
  In t l.
Proof.
  induction l as [|x [|y rest] IH].
  - intros [].
  - intros [].
  - rewrite chain_terms_cons. intros [<-|[<-|H]].
    + left. reflexivity.
    + right. left. reflexivity.
    + right. apply IH. exact H.
Qed.

(** The terms the literal linearizer walks are sub-terms of the literal. *)
Lemma lit_terms_sub (M : model) (lit t : expr) :
  In t (lit_terms M lit) -> occurs t lit = true.
Proof.
  assert (B : forall e1 e2 x, In x [e1; e2] ->
                occurs x e1 || occurs x e2 = true).
  { intros e1 e2 x [<-|[<-|[]]]; rewrite occurs_refl;
      [reflexivity | apply Bool.orb_true_r]. }
  assert (B' : forall e1 e2 x, In x [e2; e1] ->
                 occurs x e1 || occurs x e2 = true).
  { intros e1 e2 x H. rewrite Bool.orb_comm. apply B. exact H. }
  assert (L : forall args x, In x args -> existsb (occurs x) args = true).
  { intros args x H. apply (occurs_list x args x H). apply occurs_refl. }
  assert (D : forall neg arg0 args x,
            In x (if is_arith arg0 then
                    if neg : bool then
                      match find_eq M (arg0 :: args) [] with
                      | Some (arg1, arg2) => [arg1; arg2]
                      | None => []
                      end
                    else
                      flat_map (fun l => match l with
                                         | ELt x y => [x; y] | _ => [] end)
                        (consecutive_lt
                           (map fst (sort_nums (map (fun x => (x, eval_num M x))
                                                  (arg0 :: args)))))
                  else []) ->
            In x (arg0 :: args)).
  { intros neg arg0 args x. destruct (is_arith arg0); [|intros []].
    destruct neg.
    - destruct (find_eq M (arg0 :: args) []) as [[arg1 arg2]|] eqn:F;
        [|intros []].
      apply find_eq_split in F. destruct F as [l1 [l2 [E I]]].
      simpl in I. rewrite E. intros [<-|[<-|[]]].
      + apply in_or_app. right. left. reflexivity.
      + apply in_or_app. left. exact I.
    - intro H. apply chain_terms_in in H.
      eapply Permutation_in; [|exact H].
      etransitivity;
        [apply Permutation_map, sort_nums_perm|].
      rewrite map_map. simpl. rewrite map_id. reflexivity. }
  assert (Q : forall e1 e2 x,
            In x (if is_arith e1 then [e1; e2] else []) ->
            occurs x e1 || occurs x e2 = true).
  { intros e1 e2 x. destruct (is_arith e1); [apply B | intros []]. }
  assert (Q' : forall e1 e2 x,
            In x (if is_arith e1
                  then let '(e1', e2') := neq_sides M e1 e2 in [e1'; e2']
                  else []) ->
            occurs x e1 || occurs x e2 = true).
  { intros e1 e2 x. destruct (is_arith e1); [|intros []].
    unfold neq_sides. destruct (Qc_ltb _ _); [apply B' | apply B]. }
  unfold lit_terms.
  destruct lit as [ | | | | | | | | e1 e2 | e1 e2 | e1 e2 | e1 e2 | e1 e2
                  | args | lit | | ]; try (intros []; fail).
  - intro H. occurs_below. apply B. exact H.
  - intro H. occurs_below. apply B'. exact H.
  - intro H. occurs_below. apply B. exact H.
  - intro H. occurs_below. apply B'. exact H.
  - intro H. occurs_below. apply Q. exact H.
  - destruct args as [|arg0 args]; [intros []|].
    intro H. occurs_below. apply L. apply (D false arg0 args t H).
  - destruct lit as [ | | | | | | | | e1 e2 | e1 e2 | e1 e2 | e1 e2 | e1 e2
                    | args | lit | | ]; try (intros []; fail).
    + intro H. do 2 occurs_below. apply B. exact H.
    + intro H. do 2 occurs_below. apply B'. exact H.
    + intro H. do 2 occurs_below. apply B. exact H.
    + intro H. do 2 occurs_below. apply B'. exact H.
    + intro H. do 2 occurs_below. apply Q'. exact H.
    + destruct args as [|arg0 args]; [intros []|].
      intro H. do 2 occurs_below. apply L. apply (D true arg0 args t H).
Qed.

Lemma lit_guards_origin (M : model) (lit g : expr) :
  In g (lit_guards M lit) ->
  exists c u2 u3, occurs (Ite c u2 u3) lit = true /\ g = taken_guard M c.
Proof.
  unfold lit_guards. intro H. apply in_flat_map in H.
  destruct H as [t [Ht Hg]].
  destruct (term_guards_origin M t g Hg) as [c [u2 [u3 [O E]]]].
  exists c, u2, u3. split; [|exact E].
  apply (occurs_trans _ t lit O). apply (lit_terms_sub M lit t Ht).
Qed.

Lemma occurs_ite_taken (M : model) (c x u2 u3 : expr) :
  occurs (Ite x u2 u3) (taken_guard M c) = true ->
  occurs (Ite x u2 u3) c = true.
Proof.
  unfold taken_guard, mk_not. destruct (eval_bool M c); [tauto|].
  rewrite occurs_unfold. intro H. apply Bool.orb_true_iff in H.
  destruct H as [H|H]; [|exact H].
  apply expr_eqb_eq in H. discriminate H.
Qed.

(** Every guard the loop pushes is the guard taken at an [ite] inside a
    literal of the vector the loop started from. *)
Lemma all_guards_origin (M : model) (pending : list expr) (g : expr) :
  In g (all_guards M pending) ->
  exists c u2 u3 l,
    In l pending /\ occurs (Ite c u2 u3) l = true /\ g = taken_guard M c.
Proof.
  funelim (all_guards M pending); [intros []|].
  intro Hg. apply in_app_or in Hg. destruct Hg as [Hg|Hg].
  - destruct (lit_guards_origin M fml g Hg) as [c [u2 [u3 [O E]]]].
    exists c, u2, u3, fml. split; [left; reflexivity|]. split; assumption.
  - destruct (H g Hg) as [c [u2 [u3 [l [Hl [O E]]]]]].
    apply in_app_or in Hl. destruct Hl as [Hl|Hl].
    + exists c, u2, u3, l. split; [right; exact Hl|]. split; assumption.
    + destruct (lit_guards_origin M fml l Hl) as [c' [a' [b' [O' E']]]].
      exists c, u2, u3, fml. split; [left; reflexivity|]. split; [|exact E].
      apply (occurs_trans _ (Ite c' a' b') fml); [|exact O'].
      subst l. apply occurs_ite_taken in O. occurs_below. rewrite O. reflexivity.
Qed.

(** The guards of every literal the loop walks, a literal of the input or
    a guard pushed before, are among the guards pushed. *)
Lemma all_guards_closure (M : model) (pending : list expr) (lit : expr) :
  In lit (pending ++ all_guards M pending) ->
  incl (lit_guards M lit) (all_guards M pending).
Proof.
  funelim (all_guards M pending); [intros []|].
  intros Hl g Hg. apply in_or_app. simpl in Hl. destruct Hl as [<-|Hl].
  - left. exact Hg.
  - right. apply (H lit); [|exact Hg]. rewrite <- app_assoc. exact Hl.
Qed.

(** What the loop of a driver leaves in the literal vector: the literals
    walked, those of the input and the guards, that are not consumed. *)
Lemma linearize_all_guards (M : model) (kept pending : list expr)
  (o : model_based_opt) (ids : obj_map nat) :
  fmls (linearize_all M kept pending o ids)
  = kept ++ filter is_residue (pending ++ all_guards M pending).
Proof.
  funelim (linearize_all M kept pending o ids).
  - simp all_guards. simpl. rewrite app_nil_r. reflexivity.
  - match goal with IH : fmls _ = _ |- _ => rewrite IH end.
    destruct (linearize_shape M fml {| mbo := o; fmls := fml :: rest; tids := ids |})
      as [Sh _].
    rewrite linearize_guards, Sh. simp all_guards. simpl.
    unfold is_residue at 2. rewrite <- !app_assoc.
    destruct (linearizable fml); simpl; [reflexivity|].
    rewrite <- app_assoc. reflexivity.
Qed.

Lemma project_state_fmls (M : model) (vars fmls0 : list expr) :
  fmls (project_state M vars fmls0)
  = filter is_residue (fmls0 ++ all_guards M fmls0).
Proof.
  unfold project_state. rewrite register_vars_fmls.
  apply (linearize_all_guards M [] fmls0 mbo_empty []).
Qed.

(** X13. Residue safety.  A literal of the input that the linearizer does
    not consume is in the output of the projection driver.  When there is an
    arithmetic variable, the output is, in this order, the literals walked by
    the loop that are not of a consumed shape, followed by the literals
    lifted from the live rows; the literals walked are those of the input
    followed by the guards [all_guards] pushed meanwhile.  These guards are
    tied to the run from both sides: each of them holds in the model and is
    the guard taken at an [ite] that occurs in a literal of the input, and
    whatever a call of the literal linearizer on a walked literal appends to
    the vector is among them. *)
Theorem project_residue :
  forall (mbo_project : list nat -> model_based_opt -> model_based_opt)
         (M : model) (vars fmls0 : list expr),
    (forall l, In l fmls0 -> linearizable l = false ->
               In l (snd (project mbo_project M vars fmls0))) /\
    (existsb is_arith vars = true ->
     let st := project_state M vars fmls0 in
     fmls st = filter is_residue (fmls0 ++ all_guards M fmls0) /\
     snd (project mbo_project M vars fmls0)
     = fmls st
       ++ flat_map (lift_row (build_index2expr (tids st)))
            (get_live_rows
               (mbo_project (project_real_vars vars st) (mbo st)))) /\
    (forall g, In g (all_guards M fmls0) ->
       eval_bool M g = true /\
       exists c u2 u3 l,
         In l fmls0 /\ occurs (Ite c u2 u3) l = true /\
         g = (if eval_bool M c then c else mk_not c)) /\
    (forall lit st0 g,
       In lit (fmls0 ++ all_guards M fmls0) ->
       In g (fmls (snd (linearize M lit st0))) ->
       In g (fmls st0) \/ In g (all_guards M fmls0)).
Proof.
  intros mbo_project M vars fmls0.
  pose proof (project_state_fmls M vars fmls0) as E.
  split; [|split; [|split]].
  - intros l Hin Hl. unfold project.
    destruct (negb (existsb is_arith vars)); simpl; [exact Hin|].
    apply in_or_app. left. rewrite E. apply filter_In.
    split; [apply in_or_app; left; exact Hin|].
    unfold is_residue. rewrite Hl. reflexivity.
  - intro A. cbv zeta. split; [exact E|].
    unfold project. rewrite A. reflexivity.
  - intros g Hg.
    destruct (all_guards_origin M fmls0 g Hg) as [c [u2 [u3 [l [Hl [O Eg]]]]]].
    split.
    + rewrite Eg. apply taken_guard_true.
    + exists c, u2, u3, l. split; [exact Hl|]. split; [exact O | exact Eg].
  - intros lit st0 g Hl Hg. rewrite linearize_guards in Hg.
    apply in_app_or in Hg. destruct Hg as [Hg|Hg]; [left; exact Hg|].
    right. apply (all_guards_closure M fmls0 lit Hl g Hg).
Qed.

(** ** Rows and literals say the same *)

Lemma pair_submit_last (M : model) (mul : Qc) (e1 e2 : expr) (ty : ineq_type) st :
  env_ok M st ->
  let res := (let '(a, st1) := linearize_pair M mul e1 e2 acc_empty st in
              submit_row M a ty st1) in
  exists rows r,
    m_rows (mbo (snd res)) = rows ++ [r] /\
    m_type r = ty /\
    row_holds (m_var2value (mbo (snd res))) r
    = sum_holds ty 0 (mul * eval_num M e1 - mul * eval_num M e2).
Proof.
  intros Hok res. subst res.
  destruct (linearize_pair_ok M mul e1 e2 acc_empty st Hok) as [A B].
  destruct (linearize_pair M mul e1 e2 acc_empty st) as [a st1]. simpl in A, B.
  unfold submit_row.
  destruct (extract_coefficients_ok M (acc_ts a) st1 A) as [_ [_ [S _]]].
  destruct (extract_coefficients M (acc_ts a) st1) as [coeffs st2].
  simpl in *. eexists. eexists. split; [reflexivity|]. split; [reflexivity|].
  unfold row_holds, row_sum. simpl. rewrite S. f_equal.
  transitivity (acc_val M a); [unfold acc_val; ring|].
  rewrite B. unfold acc_val, acc_empty, ts_val. simpl. ring.
Qed.

(** X14. For a comparison [<=], [<], [>=], [>], negated or not, and for an
    equality with an arithmetic first side, the row the literal linearizer
    submits last says in the engine what the literal says in the model:
    from a state that keeps the invariant, it holds under the seeds exactly
    when the literal is true in the model. *)
Theorem linearize_comparison_row :
  forall (M : model) (lit : expr) (st : lin_env),
    env_ok M st ->
    is_comparison lit = true ->
    exists rows r,
      m_rows (mbo (snd (linearize M lit st))) = rows ++ [r] /\
      row_holds (m_var2value (mbo (snd (linearize M lit st)))) r
      = eval_bool M lit.
Proof.
  intros M lit st Hok Hc. unfold linearize.
  set (rec := linearize_body (fun _ st' => (false, st')) M).
  assert (P : forall mul e1 e2 ty b,
    sum_holds ty 0 (mul * eval_num M e1 - mul * eval_num M e2) = b ->
    exists rows r,
      m_rows (mbo (snd (let '(a, st1) := linearize_pair M mul e1 e2 acc_empty st in
                        submit_row M a ty st1))) = rows ++ [r] /\
      row_holds (m_var2value (mbo (snd (let '(a, st1) :=
                   linearize_pair M mul e1 e2 acc_empty st in
                   submit_row M a ty st1)))) r = b).
  { intros mul e1 e2 ty b Hb.
    destruct (pair_submit_last M mul e1 e2 ty st Hok) as [rows [r [E [_ H]]]].
    exists rows, r. split; [exact E|]. rewrite H. exact Hb. }
  unfold linearize_body.
  destruct lit as [ | | | | | | | | e1 e2 | e1 e2 | e1 e2 | e1 e2 | e1 e2
                  | args | lit | | ]; try discriminate Hc.
  - apply P. apply holds_le.
  - apply P. apply holds_le.
  - apply P. apply holds_lt.
  - apply P. apply holds_lt.
  - simpl in Hc. rewrite Hc. apply P. rewrite holds_eq.
    unfold eval_bool. simpl. rewrite Hc. reflexivity.
  - destruct lit as [ | | | | | | | | e1 e2 | e1 e2 | e1 e2 | e1 e2 | e1 e2
                    | args | lit | | ]; try discriminate Hc.
    + apply P. rewrite holds_not_le, eval_bool_not, eval_bool_ELe,
        Bool.negb_involutive. reflexivity.
    + apply P. rewrite holds_not_le, eval_bool_not, eval_bool_EGe,
        Bool.negb_involutive. reflexivity.
    + apply P. rewrite holds_not_lt, eval_bool_not, eval_bool_ELt. reflexivity.
    + apply P. rewrite holds_not_lt, eval_bool_not, eval_bool_EGt. reflexivity.
Qed.

Lemma linearize_comparison_row_witness :
  exists rows r,
    m_rows (mbo (snd (linearize example_model
                        (ENot (ELe (int_const "x") (int_const "y"))) example_env)))
      = rows ++ [r] /\
    row_holds (m_var2value (mbo (snd (linearize example_model
                 (ENot (ELe (int_const "x") (int_const "y"))) example_env))))
              r
    = eval_bool example_model (ENot (ELe (int_const "x") (int_const "y"))).
Proof.
  exact (linearize_comparison_row example_model
           (ENot (ELe (int_const "x") (int_const "y"))) example_env
           (env_ok_start example_model [] (Forall_nil _)) eq_refl).
Defined.

(** X15. Lift round trip.  In the state the projection driver builds from
    literals that hold in the model, a literal lifted from any row over
    registered ids is true in the model exactly when the row holds under the
    seeds of the engine: lifting neither weakens nor strengthens a row. *)
Theorem lift_row_exact :
  forall (M : model) (vars fmls0 : list expr) (r : row) (lit : expr),
    validate_model M fmls0 = true ->
    let st := project_state M vars fmls0 in
    row_wf (List.length (m_var2value (mbo st))) r ->
    In lit (lift_row (build_index2expr (tids st)) r) ->
    eval_bool M lit = row_holds (m_var2value (mbo st)) r.
Proof.
  intros M vars fmls0 r lit Hv st Hwf Hl.
  assert (Hok : env_ok M st).
  { apply project_state_ok, Forall_forall.
    apply (proj1 (validate_model_lemma M fmls0)). exact Hv. }
  apply (lift_row_sound M (build_index2expr (tids st)) (m_var2value (mbo st)) r lit);
    [|exact Hl].
  unfold row_mapped. unfold row_wf in Hwf.
  eapply Forall_impl; [|exact Hwf]. simpl. intros v Hlt.
  apply index2expr_value; assumption.
Qed.

Definition example_sum_row : row :=
  {| m_vars := [ {| m_id := 0; m_coeff := 1 |}; {| m_id := 1; m_coeff := 1 |} ];
     m_const := Qc_of_Z (-10); m_mod := 0; m_type := t_le |}.

Lemma lift_row_exact_witness :
  validate_model example_model example_project_fmls = true /\
  forall lit,
    In lit (lift_row (build_index2expr
                        (tids (project_state example_model example_project_vars
                                 example_project_fmls))) example_sum_row) ->
    eval_bool example_model lit
    = row_holds (m_var2value (mbo (project_state example_model
                                     example_project_vars example_project_fmls)))
                example_sum_row.
Proof.
  assert (V : validate_model example_model example_project_fmls = true)
    by (vm_compute; reflexivity).
  split; [exact V|]. intros lit Hl.
  apply (lift_row_exact example_model example_project_vars example_project_fmls
           example_sum_row lit V); [|exact Hl].
  unfold row_wf.
  replace (List.length (m_var2value (mbo (project_state example_model
             example_project_vars example_project_fmls)))) with 3%nat
    by (vm_compute; reflexivity).
  simpl. repeat constructor.
Defined.

(** ** The optimizer driver *)

Lemma env_ok_set_objective (M : model) (st : lin_env) coeffs c :
  env_ok M st -> env_ok M (set_mbo (set_objective coeffs c (mbo st)) st).
Proof. intros [Ht Hc Hr Hf]. constructor; simpl; auto. Qed.

Lemma rows_hold_of_ok (M : model) (st : lin_env) :
  env_ok M st -> rows_hold (mbo st) = true.
Proof.
  intro Hok. unfold rows_hold. apply forallb_forall. intros r Hr.
  pose proof (ok_rows M st Hok) as H. rewrite Forall_forall in H.
  apply H. exact Hr.
Qed.

(** X16. When the model satisfies the literals it is given, [maximize] hands
    the engine a problem that the model solves: every row holds under the
    seeded values, the variables of the objective are registered, and the
    objective evaluates under the seeds to the value of the term [t] in the
    model. *)
Theorem maximize_state_feasible :
  forall (mdl : model) (fmls0 : list expr) (t : expr),
    validate_model mdl fmls0 = true ->
    let st := maximize_state mdl fmls0 t in
    rows_hold (mbo st) = true /\
    Forall (fun v => (m_id v < List.length (m_var2value (mbo st)))%nat)
           (fst (m_objective (mbo st))) /\
    sum_Qc (map (var_value (m_var2value (mbo st))) (fst (m_objective (mbo st))))
      + snd (m_objective (mbo st))
    = eval_num mdl t.
Proof.
  intros mdl fmls0 t Hv. unfold maximize_state.
  assert (H0 : env_ok mdl {| mbo := mbo_empty; fmls := fmls0; tids := [] |}).
  { apply env_ok_start, Forall_forall.
    apply (proj1 (validate_model_lemma mdl fmls0)). exact Hv. }
  destruct (linearize_term_ok mdl t 1 acc_empty _ H0) as [A B].
  destruct (linearize_term mdl 1 t acc_empty _) as [a st1]. simpl in A, B.
  destruct (extract_coefficients_ok mdl (acc_ts a) st1 A) as [C [W [S _]]].
  destruct (extract_coefficients mdl (acc_ts a) st1) as [coeffs st2].
  simpl in C, W, S.
  set (st3 := set_mbo (set_objective coeffs (acc_c a) (mbo st2)) st2).
  assert (H3 : env_ok mdl st3) by (apply env_ok_set_objective; exact C).
  assert (H4 : env_ok mdl (linearize_all mdl [] (fmls st3) (mbo st3) (tids st3))).
  { apply linearize_all_ok; [|constructor].
    destruct H3 as [Ht Hc Hr Hf]. constructor; assumption. }
  destruct (lin_step_all mdl [] (fmls st3) (mbo st3) (tids st3))
    as [[more V] [_ [O _]]].
  cbv zeta. split; [apply (rows_hold_of_ok mdl _ H4)|].
  fold st3. rewrite O, V. simpl. split.
  - eapply Forall_impl; [|exact W]. simpl. intros v Hlt.
    rewrite length_app. lia.
  - rewrite (vars_sum_app _ more coeffs W), S.
    unfold acc_val in B. transitivity (acc_c a + ts_val mdl (acc_ts a));
      [ring|]. rewrite B. unfold acc_empty, ts_val. simpl. ring.
Qed.

Lemma maximize_state_feasible_witness :
  rows_hold (mbo (maximize_state example_model
                    [ELe (Add [real_const "x"; real_const "y"]) (real_num 10)]
                    (Add [real_const "x"; real_const "y"]))) = true.
Proof.
  exact (proj1 (maximize_state_feasible example_model
                  [ELe (Add [real_const "x"; real_const "y"]) (real_num 10)]
                  (Add [real_const "x"; real_const "y"])
                  ltac:(vm_compute; reflexivity))).
Defined.

Lemma maximize_model mbo_maximize (fmls0 : list expr) (mdl : model) (t : expr) :
  res_model (maximize mbo_maximize fmls0 mdl t)
  = update_model (snd (mbo_maximize (mbo (maximize_state mdl fmls0 t))))
                 (tids (maximize_state mdl fmls0 t)) mdl.
Proof.
  unfold maximize. destruct (mbo_maximize _) as [value o]. simpl.
  destruct (negb (is_finite value)); [reflexivity|].
  destruct (Qc_is_neg (get_infinitesimal value)); reflexivity.
Qed.

Lemma update_model_other (o : model_based_opt) (ids : obj_map nat) :
  forall (mdl : model) (g : string) (args : list value),
    (args <> [] \/ forall s id, ~ In (App g s [], id) ids) ->
    update_model o ids mdl g args = mdl g args.
Proof.
  unfold update_model. induction ids as [|[e id] ids IH]; intros mdl g args H;
    [reflexivity|].
  simpl. rewrite IH.
  - destruct e as [ | f s [|a l] | | | | | | | | | | | | | | | ];
      try reflexivity.
    unfold register_decl. destruct (String.eqb g f) eqn:E; [|reflexivity].
    destruct args; [|reflexivity].
    apply String.eqb_eq in E. subst f. exfalso.
    destruct H as [H|H]; [apply H; reflexivity|].
    apply (H s id). left. reflexivity.
  - destruct H as [H|H]; [left; exact H|]. right. intros s id' Hin.
    apply (H s id'). right. exact Hin.
Qed.

Lemma update_model_const (o : model_based_opt) (ids : obj_map nat) :
  forall (mdl : model) (f : string) (s : sort) (id : nat),
    In (App f s [], id) ids ->
    exists s' id', In (App f s' [], id') ids /\
                   update_model o ids mdl f [] = VNum (get_value id' o).
Proof.
  unfold update_model.
  induction ids as [|[e id0] ids IH] using rev_ind; intros mdl f s id Hin;
    [destruct Hin|].
  rewrite fold_left_app. simpl.
  destruct e as [ | g s0 [|a l] | | | | | | | | | | | | | | | ];
    try (apply in_app_or in Hin; destruct Hin as [Hin|[Hin|[]]];
         [|discriminate Hin];
         destruct (IH mdl f s id Hin) as [s' [id' [I E]]];
         exists s', id'; split; [apply in_or_app; left; exact I | exact E]).
  unfold register_decl. destruct (String.eqb f g) eqn:E.
  - apply String.eqb_eq in E. subst g. exists s0, id0.
    split; [apply in_or_app; right; left; reflexivity | reflexivity].
  - apply in_app_or in Hin. destruct Hin as [Hin|[Hin|[]]].
    + destruct (IH mdl f s id Hin) as [s' [id' [I E']]].
      exists s', id'. split; [apply in_or_app; left; exact I | exact E'].
    + injection Hin as -> _ _. rewrite String.eqb_refl in E. discriminate E.
Qed.

(** X17. The model [maximize] returns differs from the one it was given on
    registered constants only: the interpretation of a symbol that is not an
    uninterpreted constant among the engine terms, and every application to
    arguments, is as before; a constant among the engine terms is
    interpreted by a numeral, the value the engine has after maximizing for
    an id registered under that name. *)
Theorem maximize_updates_constants :
  forall (mbo_maximize : model_based_opt -> inf_eps * model_based_opt)
         (fmls0 : list expr) (mdl : model) (t : expr),
    let st := maximize_state mdl fmls0 t in
    let o := snd (mbo_maximize (mbo st)) in
    let mdl' := res_model (maximize mbo_maximize fmls0 mdl t) in
    (forall g args,
       (args <> [] \/ forall s id, ~ In (App g s [], id) (tids st)) ->
       mdl' g args = mdl g args) /\
    (forall f s id,
       In (App f s [], id) (tids st) ->
       exists s' id', In (App f s' [], id') (tids st) /\
                      mdl' f [] = VNum (get_value id' o)).
Proof.
  intros mbo_maximize fmls0 mdl t st o mdl'. subst mdl'.
  rewrite maximize_model. fold st. fold o. split.
  - intros g args H. apply update_model_other. exact H.
  - intros f s id H. apply (update_model_const o (tids st) mdl f s id H).
Qed.

(** ** The entry point for one variable *)

Lemma project_literals_true
  (mbo_project : list nat -> model_based_opt -> model_based_opt)
  (M : model) (vars fmls0 : list expr) :
  project_contract mbo_project ->
  validate_model M fmls0 = true ->
  forall l, In l (snd (project mbo_project M vars fmls0)) -> eval_bool M l = true.
Proof.
  intros Hc Hv l.
  pose proof (proj1 (validate_model_lemma M fmls0) Hv) as H0.
  unfold project.
  destruct (negb (existsb is_arith vars)); simpl; [apply H0|].
  assert (Hok : env_ok M (project_state M vars fmls0))
    by (apply project_state_ok, Forall_forall, H0).
  set (st := project_state M vars fmls0) in *.
  intro Hl. apply in_app_or in Hl. destruct Hl as [Hl|Hl].
  - pose proof (ok_fmls M st Hok) as Hf. rewrite Forall_forall in Hf.
    apply Hf. exact Hl.
  - apply in_flat_map in Hl. destruct Hl as [r [Hr Hl]].
    pose proof (Hc (project_real_vars vars st) (mbo st) (ok_rows M st Hok))
      as Hrows.
    unfold rows_ok in Hrows. rewrite Forall_forall in Hrows.
    destruct (Hrows r Hr) as [Hwf Hh].
    rewrite (lift_row_sound M (build_index2expr (tids st))
               (m_var2value (mbo st)) r l); [exact Hh | | exact Hl].
    unfold row_mapped. unfold row_wf in Hwf.
    eapply Forall_impl; [|exact Hwf]. simpl. intros v Hv'.
    apply index2expr_value; assumption.
Qed.

(** X18. [arith_project] on one variable: a variable that is not arithmetic
    is refused and the literals are left as they were; an answer [true]
    means the variable is arithmetic and is not among the sub-terms of any
    other engine term; and whatever the answer, with an engine that keeps
    its rows true and a model of the literals given, the model satisfies
    every literal handed back. *)
Theorem arith_project_answer :
  forall (mbo_project : list nat -> model_based_opt -> model_based_opt)
         (M : model) (var : expr) (lits : list expr),
    project_contract mbo_project ->
    validate_model M lits = true ->
    (is_arith var = false ->
     arith_project mbo_project M var lits = (false, lits)) /\
    (fst (arith_project mbo_project M var lits) = true ->
     is_arith var = true /\
     forall e id, In (e, id) (tids (project_state M [var] lits)) ->
                  e <> var -> occurs var e = false) /\
    (forall l, In l (snd (arith_project mbo_project M var lits)) ->
               eval_bool M l = true).
Proof.
  intros mbo_project M var lits Hc Hv.
  pose proof (project_literals_true mbo_project M [var] lits Hc Hv) as T.
  unfold arith_project, project_one. split; [|split].
  - intro Ha. unfold project. simpl. rewrite Ha. reflexivity.
  - revert T. unfold project. simpl. rewrite Bool.orb_false_r.
    destruct (is_arith var) eqn:Ha; simpl; [|discriminate].
    destruct (is_real_var (project_marks [var] (project_state M [var] lits)) var)
      eqn:R; simpl; [|discriminate].
    intros _ _. split; [reflexivity|]. intros e id Hin Hne.
    destruct (occurs var e) eqn:Ho; [exfalso|reflexivity].
    unfold is_real_var, project_marks in R.
    rewrite (mark_tids_occurs var e id [var] (tids (project_state M [var] lits))
               _ Hin) in R.
    + rewrite Bool.andb_false_r in R. discriminate R.
    + simpl. rewrite Bool.orb_false_r.
      destruct (expr_eqb e var) eqn:E; [|reflexivity].
      exfalso. apply Hne. apply expr_eqb_eq. exact E.
    + exact Ho.
  - intros l Hl. apply T.
    destruct (project mbo_project M [var] lits) as [vs lits']. exact Hl.
Qed.

Lemma arith_project_answer_witness :
  validate_model example_model example_project_fmls = true /\
  fst (arith_project drop_project example_model (int_const "x")
         example_project_fmls) = true /\
  forall l,
    In l (snd (arith_project drop_project example_model (int_const "x")
                 example_project_fmls)) ->
    eval_bool example_model l = true.
Proof.
  assert (V : validate_model example_model example_project_fmls = true)
    by (vm_compute; reflexivity).
  split; [exact V|]. split; [vm_compute; reflexivity|].
  exact (proj2 (proj2 (arith_project_answer drop_project example_model
                         (int_const "x") example_project_fmls
                         drop_project_contract V))).
Defined.

(** ** Guards of [ite] terms *)




(** The guards of the two examples: the comparison is pushed and consumed,
    the predicate is pushed and stays. *)
Example all_guards_example :
  all_guards example_model [example_ite_lit] = [EGt (int_const "x") (int_num 0)] /\
  all_guards example_model [example_guarded_lit] = [App "p" SBool [int_const "y"]] /\
  project drop_project example_model example_project_vars [example_guarded_lit]
    = ([], [App "p" SBool [int_const "y"]]).
Proof. vm_compute. repeat split. Qed.

(** ** The chain of a [distinct] literal *)

(** C8. For a literal [distinct(a1, ..., an)] that is not negated, whose
    first argument is arithmetic and which holds in the model, the linearizer
    records the model value of every argument and sorts the arguments by it:
    the sorted vector is strictly ascending and a rearrangement of the
    arguments.  The literals it then builds are [ai < ai+1] for the
    consecutive pairs of the sorted vector, one for each of the [n - 1]
    positions, and each of them holds in the model.  The call is the chain of
    the calls of the literal linearizer on these literals, in this order,
    each from the state the one before has left; each such call walks [ai]
    with multiplier [1] and [ai+1] with [-1] and submits one strict row,
    which holds under the seeds of the engine exactly when [val ai] is below
    [val ai+1]; so from a state in which the rows hold they all hold
    afterwards.  The literal is reported as consumed. *)
Theorem linearize_distinct :
  forall (M : model) (arg0 : expr) (args : list expr) (st : lin_env),
    is_arith arg0 = true ->
    eval_bool M (EDistinct (arg0 :: args)) = true ->
    let nums := sort_nums (map (fun x => (x, eval_num M x)) (arg0 :: args)) in
    let lits := consecutive_lt (map fst nums) in
    Sorted lt_second nums /\
    Permutation (map fst nums) (arg0 :: args) /\
    Forall (fun p => snd p = eval_num M (fst p)) nums /\
    List.length lits = pred (List.length (arg0 :: args)) /\
    (forall i ai aj,
       nth_error (map fst nums) i = Some ai ->
       nth_error (map fst nums) (S i) = Some aj ->
       nth_error lits i = Some (ELt ai aj) /\
       eval_num M ai < eval_num M aj) /\
    Forall (fun l => eval_bool M l = true) lits /\
    linearize M (EDistinct (arg0 :: args)) st
      = (true, fold_left (fun st' l => snd (linearize M l st')) lits st) /\
    (forall ai aj st',
       linearize M (ELt ai aj) st'
       = (true,
          let '(a1, st1) := linearize_term M 1 ai acc_empty st' in
          let '(a2, st2) := linearize_term M (- (1)) aj a1 st1 in
          let '(coeffs, st3) := extract_coefficients M (acc_ts a2) st2 in
          set_mbo (add_constraint coeffs (acc_c a2) t_lt (mbo st3)) st3)) /\
    (forall ai aj st',
       env_ok M st' ->
       exists rows r,
         m_rows (mbo (snd (linearize M (ELt ai aj) st'))) = rows ++ [r] /\
         m_type r = t_lt /\
         row_holds (m_var2value (mbo (snd (linearize M (ELt ai aj) st')))) r
         = Qc_ltb (eval_num M ai) (eval_num M aj)) /\
    (env_ok M st ->
     rows_hold (mbo (snd (linearize M (EDistinct (arg0 :: args)) st))) = true).
Proof.
  intros M arg0 args st A H0.
  pose proof H0 as H.
  intros nums lits.
  rewrite eval_bool_distinct, (is_arith_exists arg0 args A) in H.
  destruct (sort_nums_strict M (arg0 :: args) H) as [Hs [Hp Hv]].
  fold nums in Hs, Hp, Hv.
  destruct (consecutive_lt_nth (map fst nums)) as [Hl Hn]. fold lits in Hl, Hn.
  pose proof (consecutive_lt_true M nums Hs Hv) as Ht. fold lits in Ht.
  split; [exact Hs|]. split; [exact Hp|]. split; [exact Hv|].
  split; [rewrite Hl, (Permutation_length Hp); reflexivity|].
  split; [|split; [exact Ht|split; [|split; [|split]]]].
  - intros i ai aj Hi Hj. pose proof (Hn i ai aj Hi Hj) as E.
    split; [exact E|].
    rewrite Forall_forall in Ht. apply nth_error_In in E.
    specialize (Ht _ E). rewrite eval_bool_ELt in Ht.
    apply Qc_ltb_lt. exact Ht.
  - assert (E : linearize M (EDistinct (arg0 :: args)) st
                = linearize_chain (linearize M) nums st).
    { rewrite linearize_unfold. unfold linearize_body. rewrite A. reflexivity. }
    rewrite E.
    rewrite (linearize_chain_ext (linearize M)
               (linearize_body (fun _ st' => (false, st')) M) nums
               (fun x y st' => eq_refl)).
    apply linearize_chain_fold.
  - intros ai aj st'. rewrite linearize_lt. unfold linearize_pair, submit_row.
    destruct (linearize_term M 1 ai acc_empty st') as [a1 st1].
    destruct (linearize_term M (- (1)) aj a1 st1) as [a2 st2].
    destruct (extract_coefficients M (acc_ts a2) st2) as [coeffs st3].
    reflexivity.
  - intros ai aj st' Hok. rewrite linearize_lt.
    destruct (pair_submit_last M 1 ai aj t_lt st' Hok) as [rows [r [R [Ty Hh]]]].
    exists rows, r. split; [exact R|]. split; [exact Ty|].
    rewrite Hh. apply holds_lt.
  - intro Hok. apply (rows_hold_of_ok M).
    apply linearize_ok; [exact Hok | exact H0].
Qed.

Lemma linearize_distinct_witness :
  consecutive_lt
    (map fst (sort_nums (map (fun x => (x, eval_num example_model x))
                           [int_const "x"; int_const "y"; int_const "z"])))
    = [ELt (int_const "y") (int_const "z"); ELt (int_const "z") (int_const "x")] /\
  linearize example_model example_distinct example_env
  = (true,
     fold_left (fun st' l => snd (linearize example_model l st'))
       (consecutive_lt
          (map fst (sort_nums (map (fun x => (x, eval_num example_model x))
                                 [int_const "x"; int_const "y"; int_const "z"]))))
       example_env).
Proof.
  destruct (linearize_distinct example_model (int_const "x")
              [int_const "y"; int_const "z"] example_env eq_refl)
    as [_ [_ [_ [_ [_ [_ [T _]]]]]]].
  - vm_compute. reflexivity.
  - split; [vm_compute; reflexivity | exact T].
Defined.
